(** * Evacuation guidance: hazard-weighted route planner and state server

    A shallow embedding of the two programs of the repository:

    - the authoritative node (the socket server holding [users] and
      [fireLocations]), as a step function from a state and a received
      event to a new state and the list of messages it emits;
    - the observer ([EvacuationSystem]): floor loading, snapshot
      handling, [recalculate] and the Dijkstra planner [findPath], in its
      current form (roles, floors) and in its earlier form ([Legacy]).

    Modelling conventions.

    - Grid coordinates, floors and accumulated costs are JavaScript
      numbers holding integers; they are [Z] here.  [Infinity], which
      [getCost] returns for walls, is a constructor of [Cost].
    - [Math.sqrt] is only ever applied to a sum of two integer squares
      [s], and only the comparison [dist < 4] and the value
      [Math.floor((4.5 - dist) * 10)] are used.  Both are expressed on
      [s]: [s < 16] and [45 - ceil (sqrt (100 * s))], which
      [hazardCost_Int_part] relates to the expression over the reals.
      (Of the nine sums of two squares below 16, the squares 0, 1, 4
      and 9 are computed exactly in double precision; for the other
      five the real value lies at least 0.05 away from an integer, far
      above rounding error.)
    - [visited] is a [Map] keyed by the string [x,y]; the key is the
      pair itself here.
    - [Array.prototype.sort] is stable (ECMAScript 2019); it is modelled
      by a stable insertion sort, the result of a stable sort being
      unique.
    - The [while] loop of [findPath] is a fuel-indexed recursion;
      [findPath] supplies [4 * (width * height + 1) + 2] iterations,
      and [search_fuel_enough] shows the loop never needs more. *)

From stdpp Require Import gmap list strings.
From Stdlib Require Import ZArith Lia Sorted Reals Lra QArith Qround.

Local Open Scope Z_scope.

#[local] Set Warnings "-clear-no-such-hyp".

(** ** Cells, costs, search nodes *)

Abbreviation Cell := (Z * Z)%type.

Inductive Cost := Finite (c : Z) | Infinity.

Definition cadd (a b : Cost) : Cost :=
  match a, b with
  | Finite x, Finite y => Finite (x + y)
  | _, _ => Infinity
  end.

Definition cle (a b : Cost) : Prop :=
  match a, b with
  | Finite x, Finite y => x <= y
  | _, Infinity => True
  | Infinity, Finite _ => False
  end.

(** [{ x, y, cost, parent }] *)
#[warnings="-register-all"]
Inductive Node := mkNode (x y cost : Z) (parent : option Node).

Definition nx (n : Node) : Z := let (x, _, _, _) := n in x.
Definition ny (n : Node) : Z := let (_, y, _, _) := n in y.
Definition ncost (n : Node) : Z := let (_, _, c, _) := n in c.
Definition nparent (n : Node) : option Node := let (_, _, _, p) := n in p.

Definition key (n : Node) : Cell := (nx n, ny n).

Inductive Role := civilian | firefighter.
Inductive Action := evacuate | rescue.

Definition Role_eqb (a b : Role) : bool :=
  match a, b with
  | civilian, civilian | firefighter, firefighter => true
  | _, _ => false
  end.

Definition Action_eqb (a b : Action) : bool :=
  match a, b with
  | evacuate, evacuate | rescue, rescue => true
  | _, _ => false
  end.

(** [{ x, y, floor }] *)
Record Fire := mkFire { fx : Z; fy : Z; ffloor : Z }.

(** A user object as the observer holds it: fields that a given object
    does not have are [None] ([undefined]). *)
Record User := mkUser {
  uid : option string;
  ux : Z;
  uy : Z;
  ufloor : option Z;
  urole : option Role;
  uffAction : option Action;
  upath : list Cell
}.

Record EvacuationSystem := mkSystem {
  currentFloor : Z;
  width : Z;
  height : Z;
  myId : option string;
  users : list User;
  fireLocations : list Fire;
  exits : list Cell;
  walls : list Cell;
  role : Role
}.

(** ** The frontier: stable sort by cost, then shift *)

Fixpoint insert (n : Node) (l : list Node) : list Node :=
  match l with
  | [] => [n]
  | m :: l' => if ncost n <=? ncost m then n :: l else m :: insert n l'
  end.

(** [openSet.sort((a, b) => a.cost - b.cost)] *)
Fixpoint sort (l : list Node) : list Node :=
  match l with
  | [] => []
  | n :: l' => insert n (sort l')
  end.

(** ** The search loop *)

Definition dirs : list (Z * Z) := [(0, 1); (0, -1); (1, 0); (-1, 0)].

Definition inBounds (w h : Z) (c : Cell) : bool :=
  (0 <=? c.1) && (c.1 <? w) && (0 <=? c.2) && (c.2 <? h).

(** The body of [for (let d of dirs)]: what one direction pushes. *)
Definition pushed (w h : Z) (getCost : Z -> Z -> Cost) (visited : gmap (Z * Z) Z)
    (curr : Node) (d : Z * Z) : list Node :=
  let nx := nx curr + d.1 in
  let ny := ny curr + d.2 in
  if inBounds w h (nx, ny) then
    match getCost nx ny with
    | Infinity => []
    | Finite stepCost =>
        let newCost := ncost curr + stepCost in
        match visited !! (nx, ny) with
        | None => [mkNode nx ny newCost (Some curr)]
        | Some c => if newCost <? c then [mkNode nx ny newCost (Some curr)] else []
        end
    end
  else [].

Definition relax (w h : Z) (getCost : Z -> Z -> Cost) (visited : gmap (Z * Z) Z)
    (curr : Node) (openSet : list Node) (d : Z * Z) : list Node :=
  openSet ++ pushed w h getCost visited curr d.

Definition isTarget (targets : list Cell) (c : Cell) : bool :=
  existsb (fun t => (t.1 =? c.1) && (t.2 =? c.2)) targets.

Inductive Outcome := Found (n : Node) | Exhausted | OutOfFuel.

(** [visited.has(key) && visited.get(key) <= curr.cost] *)
Definition stale (visited : gmap (Z * Z) Z) (curr : Node) : bool :=
  match visited !! key curr with
  | Some c => c <=? ncost curr
  | None => false
  end.

(** [while (openSet.length > 0) { ... }]; [Found n] is the [break] with
    [nearestTarget = n], [Exhausted] the exit with an empty frontier. *)
Fixpoint search (w h : Z) (getCost : Z -> Z -> Cost) (targets : list Cell)
    (fuel : nat) (openSet : list Node) (visited : gmap (Z * Z) Z) : Outcome :=
  match fuel with
  | O => OutOfFuel
  | S fuel' =>
      match sort openSet with
      | [] => Exhausted
      | curr :: rest =>
          if stale visited curr then search w h getCost targets fuel' rest visited
          else
            let visited' := <[key curr := ncost curr]> visited in
            if isTarget targets (key curr) then Found curr
            else search w h getCost targets fuel'
                   (foldl (relax w h getCost visited' curr) rest dirs) visited'
      end
  end.

(** [while (curr) { path.unshift({x, y}); curr = curr.parent }] *)
Fixpoint unwind (n : Node) (path : list Cell) : list Cell :=
  match n with
  | mkNode x y _ p =>
      match p with
      | Some q => unwind q ((x, y) :: path)
      | None => (x, y) :: path
      end
  end.

Definition reconstruct (o : Outcome) : list Cell :=
  match o with
  | Found n => unwind n []
  | _ => []
  end.

(** Iterations granted to the loop: four pushes for each cell of the
    grid and for the start cell, the start entry and the final test. *)
Definition searchFuel (w h : Z) : nat :=
  (4 * (Z.to_nat w * Z.to_nat h + 1) + 2)%nat.

(** ** The cost function *)

(** [this.walls.some(w => w.x === x && w.y === y)] *)
Definition isWall (st : EvacuationSystem) (x y : Z) : bool :=
  existsb (fun w => (w.1 =? x) && (w.2 =? y)) (walls st).

Definition ceil_sqrt (n : Z) : Z :=
  let r := Z.sqrt n in if r * r =? n then r else r + 1.

(** [Math.floor((4.5 - Math.sqrt(s)) * 10)] for an integer [s >= 0] *)
Definition hazardCost (s : Z) : Z := 45 - ceil_sqrt (100 * s).

(** The body of [for (const fire of this.fireLocations)]. *)
Definition addFire (floor x y : Z) (cost : Z) (fire : Fire) : Z :=
  if negb (ffloor fire =? floor) then cost
  else
    let s := (x - fx fire) ^ 2 + (y - fy fire) ^ 2 in
    if s <? 16 then cost + hazardCost s else cost.

(** [(role !== 'firefighter') || (role === 'firefighter' && ffAction === 'evacuate')] *)
Definition shouldAvoidFire (role : Role) (ffAction : Action) : bool :=
  negb (Role_eqb role firefighter)
  || (Role_eqb role firefighter && Action_eqb ffAction evacuate).

(** The closure [getCost(x, y)] of [findPath]. *)
Definition getCost (st : EvacuationSystem) (role : Role) (ffAction : Action)
    (x y : Z) : Cost :=
  if isWall st x y then Infinity
  else
    Finite
      (if (0 <? Z.of_nat (length (fireLocations st))) && shouldAvoidFire role ffAction
       then foldl (addFire (currentFloor st) x y) 1 (fireLocations st)
       else 1).

(** ** The planner *)

Definition fireCell (f : Fire) : Cell := (fx f, fy f).

(** [fires.filter(f => f.floor === floor)]: the hazards tagged with
    [floor]. *)
Definition hazardsOn (floor : Z) (fires : list Fire) : list Fire :=
  List.filter (fun f => ffloor f =? floor) fires.

(** The first lines of [findPath]: hazards of the current floor for a
    firefighter on rescue duty, the exits if there are none and for
    everybody else. *)
Definition targetsOf (st : EvacuationSystem) (role : Role) (ffAction : Action)
    : list Cell :=
  if Role_eqb role firefighter && Action_eqb ffAction rescue then
    let targets := hazardsOn (currentFloor st) (fireLocations st) in
    if Z.of_nat (length targets) =? 0 then exits st else map fireCell targets
  else exits st.

(** [findPath(startX, startY, role, ffAction)]: the search from the
    start node, then the walk back along the parents. *)
Definition findPath (st : EvacuationSystem) (startX startY : Z)
    (role : Role) (ffAction : Action) : list Cell :=
  reconstruct
    (search (width st) (height st) (getCost st role ffAction)
       (targetsOf st role ffAction)
       (searchFuel (width st) (height st))
       [mkNode startX startY 0 None] ∅).

(** ** Recomputation of every occupant's route *)

Definition setPath (u : User) (p : list Cell) : User :=
  mkUser (uid u) (ux u) (uy u) (ufloor u) (urole u) (uffAction u) p.

(** [user.ffAction || (user.role === 'firefighter' ? 'rescue' : 'evacuate')] *)
Definition actionOf (u : User) : Action :=
  match uffAction u with
  | Some a => a
  | None =>
      match urole u with
      | Some firefighter => rescue
      | _ => evacuate
      end
  end.

(** The [role = 'civilian'] default parameter of [findPath]. *)
Definition roleOf (u : User) : Role :=
  match urole u with
  | Some r => r
  | None => civilian
  end.

Definition setUsers (st : EvacuationSystem) (us : list User) : EvacuationSystem :=
  mkSystem (currentFloor st) (width st) (height st) (myId st) us
    (fireLocations st) (exits st) (walls st) (role st).

(** [this.users.forEach(user => { user.path = this.findPath(...) })];
    the spoken directions are left out. *)
Definition recalculate (st : EvacuationSystem) : EvacuationSystem :=
  setUsers st
    (map (fun user => setPath user (findPath st (ux user) (uy user) (roleOf user) (actionOf user)))
       (users st)).

(** ** Floor geometry *)

(** The values of [i] in [for (let i = 0; i < n; i++)], for a
    possibly fractional bound [n]. *)
Definition upTo (n : Q) : list Z := seqZ 0 (Qceiling n).

(** The values of [i] in [for (let i = from; i < to; i += step)]. *)
Definition stride (from to step : Z) : list Z :=
  map (fun k => from + step * k) (seqZ 0 ((to - from + step - 1) / step)).

Definition addToWalls (x y w h : Q) (walls : list Cell) : list Cell :=
  walls ++
  flat_map (fun i =>
    map (fun j => (Qfloor (x + inject_Z i), Qfloor (y + inject_Z j))) (upTo h))
    (upTo w).

Definition bounds (w h : Z) : list Cell :=
  flat_map (fun x => [(x, 0); (x, h - 1)]) (seqZ 0 w) ++
  flat_map (fun y => [(0, y); (w - 1, y)]) (seqZ 0 h).

(** The walls and exits [loadFloor] generates for [floorNum] on a
    [w] by [h] grid. *)
Definition floorPlan (floorNum w h : Z) : list Cell * list Cell :=
  let W := inject_Z w in
  let H := inject_Z h in
  if floorNum =? 1 then
    let aisleWidth := 4%Q in
    let rowDepth := 2%Q in
    let sideMargin := 2%Q in
    let walls :=
      foldl (fun walls y =>
        addToWalls (W / 2 + aisleWidth / 2) (inject_Z y)
          (W / 2 - sideMargin - aisleWidth / 2) rowDepth
          (addToWalls sideMargin (inject_Z y)
             (W / 2 - sideMargin - aisleWidth / 2) rowDepth walls))
        (bounds w h) (stride 6 (h - 5) (2 + 3)) in
    (walls, [(Qfloor (W / 2), 1); (Qfloor (W / 2), h - 2); (w - 2, h - 2)])
  else if floorNum =? 2 then
    let walls := addToWalls 2 9 (W - 4) 1 (bounds w h) in
    let walls := addToWalls 2 13 (W - 4) 1 walls in
    let walls :=
      foldl (fun walls i =>
        addToWalls (inject_Z i) 8 4 1 (addToWalls (inject_Z i) 2 1 6 walls))
        walls (stride 4 (w - 4) 6) in
    let walls := addToWalls (W / 3) 15 1 (H - 15) walls in
    let walls := addToWalls (2 * W / 3) 15 1 (H - 15) walls in
    (walls, [(1, 11); (w - 2, 11)])
  else
    let midY := Qfloor (H / 2) in
    let M := inject_Z midY in
    let walls := addToWalls 10 0 1 (M - 2) (bounds w h) in
    let walls := addToWalls 10 (M + 2) 1 (H - (M + 2)) walls in
    let walls := addToWalls (W - 10) 0 1 (M - 2) walls in
    let walls := addToWalls (W - 10) (M + 2) 1 (H - (M + 2)) walls in
    let walls := addToWalls 0 M 8 1 walls in
    let walls := addToWalls (W - 8) M 8 1 walls in
    let walls := addToWalls 15 6 (W - 30) 2 walls in
    let walls := addToWalls 15 (H - 8) (W - 30) 2 walls in
    (walls, [(w - 2, 2); (1, h - 3); (Qfloor (W / 2), 1)]).

(** [loadFloor(floorNum)]: the floor index and its geometry replace
    the current ones, occupants and hazards are forgotten until the next
    snapshot. *)
Definition loadFloor (st : EvacuationSystem) (floorNum : Z) : EvacuationSystem :=
  let plan := floorPlan floorNum (width st) (height st) in
  recalculate
    (mkSystem floorNum (width st) (height st) (myId st) [] [] plan.2 plan.1 (role st)).

(** ** The authoritative node *)

Module Server.

(** The object stored in [users[socket.id]]. *)
Record User := mkUser { id : string; x : Z; y : Z; floor : Z }.

(** Events a socket delivers, with the fields of [data] that a
    client may send; an absent field is [None]. *)
Inductive Event :=
| updateUser (x y : Z) (floor : option Z) (role : option Role) (intent : option Action)
| toggleFire (x y : Z) (floor : option Z)
| clearFire (floor : option Z)
| disconnect.

Inductive Message :=
| init (id : string) (users : list User) (fireLocations : list Fire)
| stateUpdate (users : list User) (fireLocations : list Fire).

(** [users] is an object used as a map: its values are listed in the
    order in which their keys were first set (socket ids are never
    array indices).  [sockets] are the connections of the namespace,
    the recipients of [io.emit]. *)
Record State := mkState {
  users : list (string * User);
  fireLocations : list Fire;
  sockets : list string
}.

(** [users[k] = v] *)
Fixpoint set (k : string) (v : User) (o : list (string * User)) : list (string * User) :=
  match o with
  | [] => [(k, v)]
  | (k', v') :: o' => if String.eqb k' k then (k, v) :: o' else (k', v') :: set k v o'
  end.

(** [delete users[k]] *)
Definition delete (k : string) (o : list (string * User)) : list (string * User) :=
  List.filter (fun p => negb (String.eqb p.1 k)) o.

(** [Object.values(users)] *)
Definition values (o : list (string * User)) : list User := map snd o.

(** [data.floor || 1] *)
Definition floorOr1 (floor : option Z) : Z :=
  match floor with
  | Some f => if f =? 0 then 1 else f
  | None => 1
  end.

Definition sameFire (x y floor : Z) (f : Fire) : bool :=
  (fx f =? x) && (fy f =? y) && (ffloor f =? floor).

(** [findIndex] followed by [splice(idx, 1)], or [push] when the
    index is [-1]. *)
Fixpoint toggle (x y floor : Z) (fires : list Fire) : list Fire :=
  match fires with
  | [] => [mkFire x y floor]
  | f :: fires' =>
      if sameFire x y floor f then fires' else f :: toggle x y floor fires'
  end.

(** [io.emit('stateUpdate', { users: Object.values(users), fireLocations })] *)
Definition emitAll (st : State) : list (string * Message) :=
  map (fun s => (s, stateUpdate (values (users st)) (fireLocations st))) (sockets st).

(** [io.on('connection', socket => ...)] up to the registration of
    the handlers. *)
Definition connection (st : State) (socket : string) : State * list (string * Message) :=
  (mkState (users st) (fireLocations st) (sockets st ++ [socket]),
   [(socket, init socket (values (users st)) (fireLocations st))]).

(** The handlers registered on [socket].  On [disconnect] the
    transport has already taken the socket out of the namespace when
    the handler runs. *)
Definition on (st : State) (socket : string) (ev : Event) : State * list (string * Message) :=
  match ev with
  | updateUser x y floor _ _ =>
      let st' :=
        mkState (set socket (mkUser socket x y (floorOr1 floor)) (users st))
          (fireLocations st) (sockets st) in
      (st', emitAll st')
  | toggleFire x y floor =>
      let st' :=
        mkState (users st) (toggle x y (floorOr1 floor) (fireLocations st)) (sockets st) in
      (st', emitAll st')
  | clearFire floor =>
      let floor := floorOr1 floor in
      let st' :=
        mkState (users st)
          (List.filter (fun f => negb (ffloor f =? floor)) (fireLocations st))
          (sockets st) in
      (st', emitAll st')
  | disconnect =>
      let st' :=
        mkState (delete socket (users st)) (fireLocations st)
          (List.filter (fun s => negb (String.eqb s socket)) (sockets st)) in
      (st', emitAll st')
  end.

Definition initial : State := mkState [] [] [].

(** States the node can be in: started empty, then driven by
    connections and by events of connected sockets. *)
Inductive reachable : State -> Prop :=
| reach_initial : reachable initial
| reach_connection st socket :
    reachable st -> socket ∉ sockets st -> reachable (connection st socket).1
| reach_on st socket ev :
    reachable st -> socket ∈ sockets st -> reachable (on st socket ev).1.

End Server.

(** ** The observer's snapshot handlers *)

(** [{ ...u, path: [] }] for an object [u] of a snapshot. *)
Definition ofWire (u : Server.User) : User :=
  mkUser (Some (Server.id u)) (Server.x u) (Server.y u) (Some (Server.floor u))
    None None [].

(** The assignments of [socket.on('init', ...)] and
    [socket.on('stateUpdate', ...)] that precede [this.recalculate()]. *)
Definition adopt (st : EvacuationSystem) (m : Server.Message) : EvacuationSystem :=
  match m with
  | Server.init id us fires =>
      mkSystem (currentFloor st) (width st) (height st) (Some id)
        (map ofWire us) fires (exits st) (walls st) (role st)
  | Server.stateUpdate us fires =>
      mkSystem (currentFloor st) (width st) (height st) (myId st)
        (map ofWire us) fires (exits st) (walls st) (role st)
  end.

Definition receive (st : EvacuationSystem) (m : Server.Message) : EvacuationSystem :=
  recalculate (adopt st m).

(** ** The earlier planner (no roles, no floors) *)

Module Legacy.

(** The fields of the observer that the planner reads; a hazard is a
    bare [{ x, y }]. *)
Record System := mkSystem {
  width : Z;
  height : Z;
  fireLocations : list Cell;
  exits : list Cell;
  walls : list Cell
}.

Definition isWall (st : System) (x y : Z) : bool :=
  existsb (fun w => (w.1 =? x) && (w.2 =? y)) (walls st).

Definition addFire (x y : Z) (cost : Z) (fire : Cell) : Z :=
  let s := (x - fire.1) ^ 2 + (y - fire.2) ^ 2 in
  if s <? 16 then cost + hazardCost s else cost.

Definition getCost (st : System) (x y : Z) : Cost :=
  if isWall st x y then Infinity
  else
    Finite
      (if 0 <? Z.of_nat (length (fireLocations st))
       then foldl (addFire x y) 1 (fireLocations st)
       else 1).

Definition findPath (st : System) (startX startY : Z) : list Cell :=
  reconstruct
    (search (width st) (height st) (getCost st) (exits st)
       (searchFuel (width st) (height st))
       [mkNode startX startY 0 None] ∅).

End Legacy.

(** The state of an earlier observer, seen as one of the current kind:
    every hazard is on the one floor there is. *)
Definition asCurrent (st : Legacy.System) : EvacuationSystem :=
  mkSystem 1 (Legacy.width st) (Legacy.height st) None []
    (map (fun c => mkFire c.1 c.2 1) (Legacy.fireLocations st))
    (Legacy.exits st) (Legacy.walls st) civilian.

(** ** Routes over the grid *)

(** Two cells differ by exactly 1 in exactly one coordinate. *)
Definition adjacent (a b : Cell) : Prop :=
  (a.1 = b.1 ∧ Z.abs (a.2 - b.2) = 1) ∨ (a.2 = b.2 ∧ Z.abs (a.1 - b.1) = 1).

(** A sequence of cells in which every step goes to a 4-neighbour that
    lies within the [w] by [h] grid.  Nothing is asked of the first
    cell. *)
Inductive walk (w h : Z) : list Cell -> Prop :=
| walk_nil : walk w h []
| walk_one c : walk w h [c]
| walk_cons a b p :
    adjacent a b -> inBounds w h b = true -> walk w h (b :: p) ->
    walk w h (a :: b :: p).

(** The sum of the costs of the cells stepped onto: every cell but the
    first. *)
Definition routeCost (getCost : Z -> Z -> Cost) (p : list Cell) : Cost :=
  foldr (fun c acc => cadd (getCost c.1 c.2) acc) (Finite 0) (tail p).

(** [p] leads from [start] to a cell of [targets]. *)
Definition connects (w h : Z) (targets : list Cell) (start : Cell) (p : list Cell) : Prop :=
  walk w h p ∧ head p = Some start ∧ ∃ g, last p = Some g ∧ g ∈ targets.

(** ** Notions used in the correctness proof of the search loop *)

Section PlannerNotions.

Variables (w h : Z) (getCost : Z -> Z -> Cost) (targets : list Cell) (start : Cell).

(** [pathTo v c]: some walk from [start] over passable cells ends in
    [v] and costs [c]. *)
Inductive pathTo : Cell -> Z -> Prop :=
| pathTo_start : pathTo start 0
| pathTo_step u v c s :
    pathTo u c -> adjacent u v -> inBounds w h v = true ->
    getCost v.1 v.2 = Finite s -> pathTo v (c + s).

(** The parent chain of a node is a walk from [start] whose cost is
    the node's [cost]. *)
Fixpoint wfNode (n : Node) : Prop :=
  match n with
  | mkNode x y c p =>
      match p with
      | None => (x, y) = start ∧ c = 0
      | Some q =>
          wfNode q ∧ adjacent (key q) (x, y) ∧ inBounds w h (x, y) = true ∧
          ∃ s, getCost x y = Finite s ∧ c = ncost q + s
      end
  end.

Record Inv (openSet : list Node) (visited : gmap (Z * Z) Z) : Prop := mkInv {
  inv_wf : ∀ n, n ∈ openSet -> wfNode n;
  inv_mono : ∀ k v n, visited !! k = Some v -> n ∈ openSet -> v <= ncost n;
  inv_min : ∀ k v c, visited !! k = Some v -> pathTo k c -> v <= c;
  inv_start :
    is_Some (visited !! start) ∨
    ∃ n, n ∈ openSet ∧ key n = start ∧ ncost n <= 0;
  inv_edge : ∀ u vu v s,
    visited !! u = Some vu -> adjacent u v -> inBounds w h v = true ->
    getCost v.1 v.2 = Finite s ->
    is_Some (visited !! v) ∨
    ∃ n, n ∈ openSet ∧ key n = v ∧ ncost n <= vu + s;
  inv_goal : ∀ k, is_Some (visited !! k) -> isTarget targets k = false
}.

(** What the loop's outcome means. *)
Definition outcomeOk (o : Outcome) : Prop :=
  match o with
  | Found n =>
      wfNode n ∧ isTarget targets (key n) = true ∧
      ∀ g c, pathTo g c -> isTarget targets g = true -> ncost n <= c
  | Exhausted => ∀ g c, pathTo g c -> isTarget targets g = false
  | OutOfFuel => True
  end.

(** Cells a frontier entry can stand on. *)
Definition domain : gset Cell :=
  {[start]} ∪ list_to_set (flat_map (fun x => map (fun y => (x, y)) (seqZ 0 h)) (seqZ 0 w)).

(** The quantity that decreases with every iteration. *)
Definition measure (openSet : list Node) (visited : gmap (Z * Z) Z) : nat :=
  (4 * size (domain ∖ dom visited) + length openSet)%nat.

End PlannerNotions.

(** ** Same-cost classes of the frontier *)

Definition byCost (c : Z) (l : list Node) : list Node :=
  List.filter (fun n => ncost n =? c) l.

(** The loop of [findPath] keeping a log: next to the outcome, the
    entries it took from the frontier, in the order in which it took
    them, and the entries it pushed, in the order in which it pushed
    them. *)
Fixpoint searchLog (w h : Z) (getCost : Z -> Z -> Cost) (targets : list Cell)
    (fuel : nat) (openSet : list Node) (visited : gmap (Z * Z) Z)
    : Outcome * (list Node * list Node) :=
  match fuel with
  | O => (OutOfFuel, ([], []))
  | S fuel' =>
      match sort openSet with
      | [] => (Exhausted, ([], []))
      | curr :: rest =>
          if stale visited curr then
            let r := searchLog w h getCost targets fuel' rest visited in
            (r.1, (curr :: r.2.1, r.2.2))
          else
            let visited' := <[key curr := ncost curr]> visited in
            if isTarget targets (key curr) then (Found curr, ([curr], []))
            else
              let r := searchLog w h getCost targets fuel'
                         (foldl (relax w h getCost visited' curr) rest dirs) visited' in
              (r.1, (curr :: r.2.1,
                     flat_map (pushed w h getCost visited' curr) dirs ++ r.2.2))
      end
  end.

(** ** What the planner is expected to return *)

(** [route] is a cheapest walk from [start] to a cell of [targets]:
    it is such a walk, of finite cost, and no such walk costs less. *)
Definition cheapest (w h : Z) (getCost : Z -> Z -> Cost) (targets : list Cell)
    (start : Cell) (route : list Cell) : Prop :=
  connects w h targets start route ∧
  ∃ c, routeCost getCost route = Finite c ∧
       ∀ p, connects w h targets start p -> cle (Finite c) (routeCost getCost p).

(** No cell of [p] after the first is a wall. *)
Definition avoidsWalls (st : EvacuationSystem) (p : list Cell) : Prop :=
  Forall (fun c => isWall st c.1 c.2 = false) (tail p).

Definition avoidsWallsLegacy (st : Legacy.System) (p : list Cell) : Prop :=
  Forall (fun c => Legacy.isWall st c.1 c.2 = false) (tail p).

(** ** Example states *)

(** A 10 by 10 floor whose outer border is walled except for the one
    exit at (5, 0). *)
Definition borderWithExit : list Cell :=
  List.filter (fun c => negb ((c.1 =? 5) && (c.2 =? 0))) (bounds 10 10).

Definition scenario (fires : list Fire) : EvacuationSystem :=
  mkSystem 1 10 10 None [] fires [(5, 0)] borderWithExit civilian.

Definition legacyScenario (fires : list Cell) : Legacy.System :=
  Legacy.mkSystem 10 10 fires [(5, 0)] borderWithExit.

(** A 3 by 3 floor with a fully walled border; its only exit lies in
    the wall. *)
Definition sealed : EvacuationSystem :=
  mkSystem 1 3 3 None [] [] [(1, 0)] (bounds 3 3) civilian.

Definition legacySealed : Legacy.System :=
  Legacy.mkSystem 3 3 [] [(1, 0)] (bounds 3 3).

(** The observer after [loadFloor(1)] on a 20 by 20 grid. *)
Definition lectureHall : EvacuationSystem :=
  loadFloor (mkSystem 1 20 20 None [] [] [] [] civilian) 1.

(** None of the four neighbours of [(x, y)] is an in-bounds cell that
    is not a wall. *)
Definition isolated (st : EvacuationSystem) (x y : Z) : bool :=
  forallb (fun d =>
    negb (inBounds (width st) (height st) (x + d.1, y + d.2))
    || isWall st (x + d.1) (y + d.2)) dirs.

Definition isolatedLegacy (st : Legacy.System) (x y : Z) : bool :=
  forallb (fun d =>
    negb (inBounds (Legacy.width st) (Legacy.height st) (x + d.1, y + d.2))
    || Legacy.isWall st (x + d.1) (y + d.2)) dirs.

(** ** The planner's inputs *)

(** Two observer states present the planner with the same floor
    geometry (bounds, wall cells, exit cells), the same floor index and
    the same hazards on that floor; the order in which walls, exits and
    hazards are listed, and everything else in the states, may
    differ. *)
Definition sameInputs (st st' : EvacuationSystem) : Prop :=
  width st = width st' ∧ height st = height st' ∧
  currentFloor st = currentFloor st' ∧
  (∀ c, c ∈ walls st ↔ c ∈ walls st') ∧
  (∀ c, c ∈ exits st ↔ c ∈ exits st') ∧
  hazardsOn (currentFloor st) (fireLocations st)
    ≡ₚ hazardsOn (currentFloor st') (fireLocations st').

(** Three frontier entries, the last two of equal cost. *)
Definition frontier3 : list Node :=
  [mkNode 2 1 7 None; mkNode 1 2 3 None; mkNode 3 2 3 None].

(** ** The cost formula, over the reals *)

(** The Euclidean distance from the cell [(x, y)] to a hazard. *)
Definition distance (x y : Z) (f : Fire) : R :=
  sqrt ((IZR x - IZR (fx f)) ^ 2 + (IZR y - IZR (fy f)) ^ 2).

(** [floor((4.5 - d) * 10)] for the distance [d] to the hazard. *)
Definition surcharge (x y : Z) (f : Fire) : Z :=
  Int_part ((4.5 - distance x y f) * 10).

(** The sum of [surcharge] over the hazards of [floor] that are at
    distance less than 4. *)
Definition hazardSurcharge (floor x y : Z) (fires : list Fire) : Z :=
  foldr (fun f acc =>
    if Z.eq_dec (ffloor f) floor then
      if Rlt_dec (distance x y f) 4 then surcharge x y f + acc else acc
    else acc) 0 fires.

(** The cost of a cell as the design document words it. *)
Definition getCostFormula (st : EvacuationSystem) (role : Role) (ffAction : Action)
    (x y : Z) : Cost :=
  if isWall st x y then Infinity
  else
    match role, ffAction with
    | firefighter, rescue => Finite 1
    | _, _ => Finite (1 + hazardSurcharge (currentFloor st) x y (fireLocations st))
    end.

(** ** Example states of the authoritative node *)

(** One observer connected; hazards on floors 1 and 2. *)
Definition twoFloors : Server.State :=
  Server.mkState [] [mkFire 2 2 1; mkFire 4 4 2; mkFire 6 6 1] ["a"].

(** Two observers connected, one of them placed; a hazard at (3, 3). *)
Definition twoObservers : Server.State :=
  Server.mkState [("a", Server.mkUser "a" 1 1 1)] [mkFire 3 3 1] ["a"; "b"].

(** The registry keeps every entry under the identity it carries. *)
Definition keysMatch (st : Server.State) : Prop :=
  ∀ k u, (k, u) ∈ Server.users st -> Server.id u = k.

(** The route the same occupant gets from an observer whose active
    floor is the occupant's own. *)
Definition ownFloorRoute (st : EvacuationSystem) (u : User) : list Cell :=
  let floor := default 1 (ufloor u) in
  let plan := floorPlan floor (width st) (height st) in
  findPath
    (mkSystem floor (width st) (height st) (myId st) (users st) (fireLocations st)
       plan.2 plan.1 (role st))
    (ux u) (uy u) (roleOf u) (actionOf u).

(** A snapshot with one occupant, of floor 2, and that occupant as an
    observer showing the lecture hall holds it after recomputation. *)
Definition floor2Snapshot : Server.Message :=
  Server.stateUpdate [Server.mkUser "a" 1 10 2] [].

Definition visitor : User :=
  mkUser (Some "a") 1 10 (Some 2) None None
    [(1, 10); (1, 11); (1, 12); (1, 13); (1, 14); (1, 15); (1, 16); (1, 17);
     (1, 18); (2, 18); (3, 18); (4, 18); (5, 18); (6, 18); (7, 18); (8, 18);
     (9, 18); (10, 18)].

(** ** Well-formed states of the authoritative node *)

(** The registry has one entry per identity, stored under the identity
    it carries, for a socket that is still connected and on a floor
    other than 0; sockets are listed once; no two hazards coincide and
    none is on floor 0. *)
Definition wellFormed (st : Server.State) : Prop :=
  NoDup (map fst (Server.users st)) ∧
  (∀ k u, (k, u) ∈ Server.users st ->
     Server.id u = k ∧ k ∈ Server.sockets st ∧ Server.floor u ≠ 0) ∧
  NoDup (Server.sockets st) ∧
  NoDup (Server.fireLocations st) ∧
  (∀ f, f ∈ Server.fireLocations st -> ffloor f ≠ 0).

(** ** Pointer and button handlers of the observer *)

(** [this.mode]: ['fire'], or anything else. *)
Inductive Mode := viewMode | fireMode.

(** What [Math.random()] and [Date.now()] contribute to one click: the
    action drawn for a new firefighter and the identity made for it. *)
Record Chance := mkChance { drawnAction : Action; freshId : string }.

Definition setFires (st : EvacuationSystem) (fires : list Fire) : EvacuationSystem :=
  mkSystem (currentFloor st) (width st) (height st) (myId st) (users st)
    fires (exits st) (walls st) (role st).

(** [u.x === x && u.y === y && u.floor === floor] *)
Definition sameSpot (x y floor : Z) (u : User) : bool :=
  (ux u =? x) && (uy u =? y) &&
  match ufloor u with
  | Some f => f =? floor
  | None => false
  end.

(** [findIndex] then [splice(idx, 1)], or [push(new)] when nobody
    stands there. *)
Fixpoint toggleUser (x y floor : Z) (new : User) (us : list User) : list User :=
  match us with
  | [] => [new]
  | u :: us' => if sameSpot x y floor u then us' else u :: toggleUser x y floor new us'
  end.

(** [u.role === 'firefighter'] *)
Definition isFirefighter (u : User) : bool :=
  match urole u with
  | Some firefighter => true
  | _ => false
  end.

(** [handleClick(e)] once the pointer position is turned into the cell
    [(x, y)]: the new state and the events sent to the node. *)
Definition handleClick (isOnline : bool) (mode : Mode) (chance : Chance)
    (st : EvacuationSystem) (x y : Z) : EvacuationSystem * list Server.Event :=
  match mode with
  | fireMode =>
      if isOnline then (st, [Server.toggleFire x y (Some (currentFloor st))])
      else
        (recalculate
           (setFires st (Server.toggle x y (currentFloor st) (fireLocations st))), [])
  | viewMode =>
      if isWall st x y then (st, [])
      else if isOnline then
        (st, [Server.updateUser x y (Some (currentFloor st)) (Some (role st)) None])
      else
        match role st with
        | firefighter =>
            let new :=
              mkUser (Some (freshId chance)) x y (Some (currentFloor st))
                (Some firefighter) (Some (drawnAction chance)) [] in
            (recalculate (setUsers st (toggleUser x y (currentFloor st) new (users st))), [])
        | civilian =>
            let me :=
              mkUser (Some "me") x y (Some (currentFloor st)) (Some civilian)
                (Some evacuate) [] in
            (recalculate
               (mkSystem (currentFloor st) (width st) (height st) (Some "me")
                  (List.filter isFirefighter (users st) ++ [me])
                  (fireLocations st) (exits st) (walls st) (role st)), [])
        end
  end.

(** The listener of the clear button, once the question is answered
    with yes. *)
Definition clearClick (isOnline : bool) (st : EvacuationSystem)
    : EvacuationSystem * list Server.Event :=
  if isOnline then (st, [Server.clearFire (Some (currentFloor st))])
  else
    (recalculate
       (setFires st
          (List.filter (fun f => negb (ffloor f =? currentFloor st)) (fireLocations st))),
     []).

(** ** Demo occupants *)

(** [this.users.some(u => u.x === x && u.y === y)] *)
Definition occupied (us : list User) (c : Cell) : bool :=
  existsb (fun u => (ux u =? c.1) && (uy u =? c.2)) us.

(** The loop of [spawnUsers]; [draws] are the cells [(x, y)] that the
    two [Math.floor(Math.random() * ...) + 1] give, one per attempt. *)
Fixpoint spawnLoop (st : EvacuationSystem) (count : nat) (draws : list Cell)
    (us : list User) : list User :=
  match draws with
  | [] => us
  | c :: draws' =>
      if (length us <? count)%nat then
        if negb (isWall st c.1 c.2) && negb (occupied us c)
        then spawnLoop st count draws' (us ++ [mkUser None c.1 c.2 None None None []])
        else spawnLoop st count draws' us
      else us
  end.

(** [spawnUsers(count)]; [random i] is the cell drawn by attempt [i],
    and there are 100 attempts at most. *)
Definition spawnUsers (st : EvacuationSystem) (count : nat) (random : nat -> Cell)
    : EvacuationSystem :=
  setUsers st (spawnLoop st count (map random (seq 0 100)) (users st)).

(** ** The floor plans of the earlier observer *)

Definition legacyFloorPlan (floorNum w h : Z) : list Cell * list Cell :=
  let W := inject_Z w in
  let H := inject_Z h in
  if floorNum =? 1 then
    let walls := addToWalls 5 5 2 5 (bounds w h) in
    let walls := addToWalls 15 5 2 5 walls in
    let walls := addToWalls (W - 7) 5 2 5 walls in
    let walls := addToWalls 5 (H - 7) 10 2 walls in
    let walls := addToWalls (W - 12) (H - 7) 8 2 walls in
    let walls := addToWalls (W / 2 - 2) (H / 2 - 2) 4 4 walls in
    (walls, [(w - 2, h - 5); (1, h - 5); (Qfloor (W / 2), 1)])
  else if floorNum =? 2 then floorPlan 2 w h
  else ((floorPlan 3 w h).1, [(w - 2, 2); (1, h - 3); (Qfloor (W / 2), 0)]).

(** ** Example states for the handlers *)

(** The lecture hall with one firefighter and one civilian placed
    offline. *)
Definition staffedHall : EvacuationSystem :=
  mkSystem 1 20 20 (Some "me")
    [mkUser (Some "ff_1") 3 3 (Some 1) (Some firefighter) (Some rescue) [];
     mkUser (Some "me") 9 9 (Some 1) (Some civilian) (Some evacuate) []]
    [mkFire 9 3 1] (exits lectureHall) (walls lectureHall) civilian.

(** The same hall seen by an observer whose role is firefighter. *)
Definition fireCrew : EvacuationSystem :=
  mkSystem 1 20 20 (Some "me") (users staffedHall) [mkFire 9 3 1]
    (exits lectureHall) (walls lectureHall) firefighter.

(** The bordered floor with its exit removed and a hazard on another
    floor. *)
Definition exitless : EvacuationSystem :=
  mkSystem 1 10 10 None [] [mkFire 3 3 2] [] borderWithExit civilian.

(** ** Parent chains *)

(** The cells of the parent chain of a node, nearest first. *)
Fixpoint ancestors (n : Node) : list Cell :=
  match n with
  | mkNode _ _ _ p =>
      match p with
      | Some q => key q :: ancestors q
      | None => []
      end
  end.

(** Every frontier entry stands on a cell its parent chain does not
    contain, the chain repeats no cell, and all of it is finalized. *)
Definition chainsFresh (openSet : list Node) (visited : gmap (Z * Z) Z) : Prop :=
  ∀ n, n ∈ openSet ->
    NoDup (key n :: ancestors n) ∧ ∀ c, c ∈ ancestors n -> is_Some (visited !! c).

(** ** The two planners side by side *)

(** What the earlier planner would hold for the floor on display: the
    same geometry, and the cells of the hazards of that floor. *)
Definition asLegacy (st : EvacuationSystem) : Legacy.System :=
  Legacy.mkSystem (width st) (height st)
    (map fireCell (hazardsOn (currentFloor st) (fireLocations st)))
    (exits st) (walls st).

(** The labs (floor 3) of the earlier observer on a 20 by 20 grid. *)
Definition legacyLab : Legacy.System :=
  Legacy.mkSystem 20 20 [] (legacyFloorPlan 3 20 20).2 (legacyFloorPlan 3 20 20).1.

(** * Properties *)

(** ** The stable sort *)

Lemma insert_perm n l : insert n l ≡ₚ n :: l.
Proof.
  induction l as [|m l IH]; simpl; [done|].
  destruct (ncost n <=? ncost m); [done|].
  rewrite IH. apply Permutation_swap.
Qed.

Lemma sort_perm l : sort l ≡ₚ l.
Proof.
  induction l as [|n l IH]; simpl; [done|].
  by rewrite insert_perm, IH.
Qed.

Lemma insert_sorted n l :
  StronglySorted (fun a b => ncost a <= ncost b) l ->
  StronglySorted (fun a b => ncost a <= ncost b) (insert n l).
Proof.
  induction 1 as [|m l Hl IH Hm]; simpl.
  - repeat constructor.
  - destruct (Z.leb_spec (ncost n) (ncost m)).
    + constructor; [by constructor|].
      constructor; [done|].
      eapply Forall_impl; [exact Hm|]. simpl. intros; lia.
    + constructor; [done|].
      rewrite insert_perm. constructor; [lia | done].
Qed.

Lemma sort_sorted l : StronglySorted (fun a b => ncost a <= ncost b) (sort l).
Proof.
  induction l; simpl; [constructor | by apply insert_sorted].
Qed.

Lemma sort_nil l : sort l = [] -> l = [].
Proof.
  intros H. apply Permutation_nil_r. rewrite <- H. symmetry. apply sort_perm.
Qed.

Lemma sort_head curr rest l :
  sort l = curr :: rest ->
  curr ∈ l ∧ (∀ n, n ∈ rest -> n ∈ l) ∧ (∀ n, n ∈ l -> ncost curr <= ncost n).
Proof.
  intros H.
  pose proof (sort_perm l) as Hp. rewrite H in Hp.
  pose proof (sort_sorted l) as Hs. rewrite H in Hs.
  apply StronglySorted_inv in Hs as [_ Hs].
  rewrite Forall_forall in Hs.
  split; [|split].
  - rewrite <- Hp. by left.
  - intros n Hn. rewrite <- Hp. by right.
  - intros n Hn. rewrite <- Hp in Hn.
    apply elem_of_cons in Hn as [->|Hn]; [lia|].
    by apply Hs.
Qed.

Lemma byCost_cons c n l :
  byCost c (n :: l) = if ncost n =? c then n :: byCost c l else byCost c l.
Proof. reflexivity. Qed.

Lemma byCost_app c l1 l2 : byCost c (l1 ++ l2) = byCost c l1 ++ byCost c l2.
Proof. apply List.filter_app. Qed.

Lemma byCost_insert c n l : byCost c (insert n l) = byCost c (n :: l).
Proof.
  induction l as [|m l IH]; [done|].
  simpl. destruct (Z.leb_spec (ncost n) (ncost m)); [done|].
  rewrite !byCost_cons, IH, byCost_cons.
  destruct (Z.eqb_spec (ncost n) c), (Z.eqb_spec (ncost m) c); try done; lia.
Qed.

Lemma sort_stable c l : byCost c (sort l) = byCost c l.
Proof.
  induction l as [|n l IH]; [done|].
  simpl. by rewrite byCost_insert, !byCost_cons, IH.
Qed.

Lemma sort_split curr rest l n :
  sort l = curr :: rest -> n ∈ l -> n = curr ∨ n ∈ rest.
Proof.
  intros H Hn. rewrite <- (sort_perm l), H in Hn. by apply elem_of_cons in Hn.
Qed.

Lemma length_sort l : length (sort l) = length l.
Proof. by rewrite sort_perm. Qed.

(** ** Directions, adjacency and what one expansion pushes *)

Lemma adjacent_dirs u v :
  adjacent u v ↔ ∃ d, d ∈ dirs ∧ v = (u.1 + d.1, u.2 + d.2).
Proof.
  destruct u as [ux uy], v as [vx vy]. unfold adjacent, dirs. simpl. split.
  - intros [[-> H]|[-> H]].
    + destruct (Z.abs_spec (uy - vy)) as [[_ E]|[_ E]].
      * exists (0, -1). split; [set_solver|]. simpl. f_equal; lia.
      * exists (0, 1). split; [set_solver|]. simpl. f_equal; lia.
    + destruct (Z.abs_spec (ux - vx)) as [[_ E]|[_ E]].
      * exists (-1, 0). split; [set_solver|]. simpl. f_equal; lia.
      * exists (1, 0). split; [set_solver|]. simpl. f_equal; lia.
  - intros (d & Hd & E).
    rewrite !elem_of_cons, elem_of_nil in Hd.
    destruct Hd as [->|[->|[->|[->|[]]]]]; simpl in E; injection E as -> ->; lia.
Qed.

Lemma inBounds_spec w h c :
  inBounds w h c = true ↔ 0 <= c.1 < w ∧ 0 <= c.2 < h.
Proof.
  unfold inBounds. rewrite !andb_true_iff, !Z.leb_le, !Z.ltb_lt. lia.
Qed.

Lemma foldl_relax w h getCost visited curr ds openSet :
  foldl (relax w h getCost visited curr) openSet ds
  = openSet ++ flat_map (pushed w h getCost visited curr) ds.
Proof.
  revert openSet. induction ds as [|d ds IH]; intros openSet; simpl.
  - by rewrite app_nil_r.
  - rewrite IH. unfold relax. by rewrite <- app_assoc.
Qed.

Lemma pushed_elem w h getCost visited curr d n :
  n ∈ pushed w h getCost visited curr d ->
  ∃ s, n = mkNode (nx curr + d.1) (ny curr + d.2) (ncost curr + s) (Some curr) ∧
       inBounds w h (nx curr + d.1, ny curr + d.2) = true ∧
       getCost (nx curr + d.1) (ny curr + d.2) = Finite s.
Proof.
  unfold pushed.
  destruct (inBounds w h _) eqn:Hb; [|by rewrite elem_of_nil].
  destruct (getCost _ _) as [s|] eqn:Hc; [|by rewrite elem_of_nil].
  intros Hn. exists s.
  destruct (visited !! _) as [c|].
  - destruct (_ <? c); [|by apply elem_of_nil in Hn].
    apply list_elem_of_singleton in Hn. done.
  - apply list_elem_of_singleton in Hn. done.
Qed.

Lemma pushed_covers w h getCost visited curr d s :
  inBounds w h (nx curr + d.1, ny curr + d.2) = true ->
  getCost (nx curr + d.1) (ny curr + d.2) = Finite s ->
  is_Some (visited !! (nx curr + d.1, ny curr + d.2)) ∨
  mkNode (nx curr + d.1) (ny curr + d.2) (ncost curr + s) (Some curr)
    ∈ pushed w h getCost visited curr d.
Proof.
  intros Hb Hc. unfold pushed. rewrite Hb, Hc.
  destruct (visited !! _) as [c|]; [by left; eexists|].
  right. by apply list_elem_of_singleton.
Qed.

Lemma pushed_length w h getCost visited curr d :
  (length (pushed w h getCost visited curr d) <= 1)%nat.
Proof.
  unfold pushed.
  repeat (case_match; simpl; try lia).
Qed.

Lemma expansion_length w h getCost visited curr :
  (length (flat_map (pushed w h getCost visited curr) dirs) <= 4)%nat.
Proof.
  unfold dirs. simpl. rewrite !length_app. simpl.
  pose proof (pushed_length w h getCost visited curr (0, 1)).
  pose proof (pushed_length w h getCost visited curr (0, -1)).
  pose proof (pushed_length w h getCost visited curr (1, 0)).
  pose proof (pushed_length w h getCost visited curr (-1, 0)).
  lia.
Qed.

Lemma isTarget_elem targets c : isTarget targets c = true ↔ c ∈ targets.
Proof.
  unfold isTarget. rewrite existsb_exists. split.
  - intros ([tx ty] & Hin & H). destruct c as [x y]. simpl in H.
    apply andb_true_iff in H as [H1 H2].
    apply Z.eqb_eq in H1, H2. subst. by apply list_elem_of_In.
  - intros H. exists c. split; [by apply list_elem_of_In|].
    by rewrite !Z.eqb_refl.
Qed.

Lemma search_S w h getCost targets fuel openSet visited :
  search w h getCost targets (S fuel) openSet visited =
  match sort openSet with
  | [] => Exhausted
  | curr :: rest =>
      if stale visited curr then search w h getCost targets fuel rest visited
      else
        if isTarget targets (key curr) then Found curr
        else search w h getCost targets fuel
               (foldl (relax w h getCost (<[key curr := ncost curr]> visited) curr) rest dirs)
               (<[key curr := ncost curr]> visited)
  end.
Proof. reflexivity. Qed.

(** Fuel is only a bound: once the loop has stopped, granting it more
    iterations changes nothing. *)
Lemma search_more_fuel w h getCost targets fuel :
  ∀ openSet visited,
    search w h getCost targets fuel openSet visited ≠ OutOfFuel ->
    ∀ fuel', (fuel <= fuel')%nat ->
      search w h getCost targets fuel' openSet visited
      = search w h getCost targets fuel openSet visited.
Proof.
  induction fuel as [|fuel IH]; intros openSet visited Hstop fuel' Hle; [done|].
  destruct fuel' as [|fuel']; [lia|].
  rewrite search_S in Hstop. rewrite !search_S.
  destruct (sort openSet) as [|curr rest]; [done|].
  destruct (stale visited curr); [apply IH; [done|lia]|].
  destruct (isTarget targets (key curr)); [done|].
  apply IH; [done|lia].
Qed.

(** ** The search loop: invariant, outcome, termination *)

Section Dijkstra.

Variables (w h : Z) (getCost : Z -> Z -> Cost) (targets : list Cell) (start : Cell).

Hypothesis getCost_nonneg : ∀ x y c, getCost x y = Finite c -> 0 <= c.

Local Abbreviation pathTo := (pathTo w h getCost start).
Local Abbreviation wfNode := (wfNode w h getCost start).
Local Abbreviation Inv := (Inv w h getCost targets start).
Local Abbreviation outcomeOk := (outcomeOk w h getCost targets start).

Lemma pathTo_nonneg v c : pathTo v c -> 0 <= c.
Proof.
  induction 1 as [|u v c s _ IH _ _ Hs]; [lia|].
  apply getCost_nonneg in Hs. lia.
Qed.

Lemma wfNode_pathTo n : wfNode n -> pathTo (key n) (ncost n).
Proof.
  revert n. fix IH 1. intros [x y c [q|]]; simpl.
  - intros (Hq & Hadj & Hb & s & Hs & ->).
    apply (pathTo_step _ _ _ _ (key q) (x, y)); auto.
  - intros [E ->]. unfold key. simpl. rewrite E. constructor.
Qed.

(** Every passable walk that ends outside [visited] has crossed the
    frontier: some frontier entry is no dearer than the walk. *)
Lemma frontier_bound openSet visited v c :
  Inv openSet visited -> pathTo v c -> visited !! v = None ->
  ∃ n, n ∈ openSet ∧ ncost n <= c.
Proof.
  intros HI Hp. induction Hp as [|u v c s Hp IH Hadj Hb Hs]; intros Hv.
  - destruct (inv_start _ _ _ _ _ _ _ HI) as [[? E]|(n & Hn & _ & Hc)].
    + congruence.
    + eauto.
  - pose proof (getCost_nonneg _ _ _ Hs).
    destruct (visited !! u) as [vu|] eqn:Hu.
    + pose proof (inv_min _ _ _ _ _ _ _ HI _ _ _ Hu Hp).
      destruct (inv_edge _ _ _ _ _ _ _ HI _ _ _ _ Hu Hadj Hb Hs)
        as [[? E]|(n & Hn & _ & Hc)]; [congruence|].
      exists n. split; [done|lia].
    + destruct (IH eq_refl) as (n & Hn & Hc).
      exists n. split; [done|lia].
Qed.

Lemma Inv_skip openSet visited curr rest :
  Inv openSet visited -> sort openSet = curr :: rest ->
  is_Some (visited !! key curr) -> Inv rest visited.
Proof.
  intros HI Hs Hcurr.
  destruct (sort_head _ _ _ Hs) as (Hin & Hrest & Hmin).
  pose proof (fun n => sort_split curr rest openSet n Hs) as Hsplit.
  destruct HI as [Hwf Hmono Hmin' Hstart Hedge Hgoal].
  constructor; eauto.
  - destruct Hstart as [?|(n & Hn & Hk & Hc)]; [by left|].
    destruct (Hsplit _ Hn) as [->|?]; [left; by rewrite <- Hk | right; eauto].
  - intros u vu v s Hu Hadj Hb Hcost.
    destruct (Hedge _ _ _ _ Hu Hadj Hb Hcost) as [?|(n & Hn & Hk & Hc)]; [by left|].
    destruct (Hsplit _ Hn) as [->|?]; [left; by rewrite <- Hk | right; eauto].
Qed.

Lemma Inv_expand openSet visited curr rest :
  Inv openSet visited -> sort openSet = curr :: rest ->
  visited !! key curr = None -> isTarget targets (key curr) = false ->
  Inv (foldl (relax w h getCost (<[key curr := ncost curr]> visited) curr) rest dirs)
      (<[key curr := ncost curr]> visited).
Proof.
  intros HI Hs Hcurr Hgoal'.
  destruct (sort_head _ _ _ Hs) as (Hin & Hrest & Hmin).
  pose proof (fun n => sort_split curr rest openSet n Hs) as Hsplit.
  assert (Hbound : ∀ c, pathTo (key curr) c -> ncost curr <= c).
  { intros c Hp. destruct (frontier_bound _ _ _ _ HI Hp Hcurr) as (n & Hn & Hc).
    specialize (Hmin _ Hn). lia. }
  destruct HI as [Hwf Hmono Hmin' Hstart Hedge Hgoal].
  rewrite foldl_relax.
  set (visited' := <[key curr := ncost curr]> visited).
  assert (Hnew : ∀ n, n ∈ flat_map (pushed w h getCost visited' curr) dirs ->
    ∃ d s, d ∈ dirs ∧
      n = mkNode (nx curr + d.1) (ny curr + d.2) (ncost curr + s) (Some curr) ∧
      inBounds w h (nx curr + d.1, ny curr + d.2) = true ∧
      getCost (nx curr + d.1) (ny curr + d.2) = Finite s).
  { intros n Hn. apply list_elem_of_In, in_flat_map in Hn as (d & Hd & Hn).
    apply list_elem_of_In in Hd, Hn.
    apply pushed_elem in Hn as (s & ? & ? & ?). eauto 10. }
  constructor.
  - (* nodes are well formed *)
    intros n Hn. apply elem_of_app in Hn as [Hn|Hn]; [auto|].
    apply Hnew in Hn as (d & s & Hd & -> & Hb & Hc). simpl.
    split; [auto|]. split; [|eauto].
    apply adjacent_dirs. exists d. split; [done|]. by destruct curr.
  - (* finalized costs are below frontier costs *)
    intros k v n Hk Hn.
    assert (v <= ncost curr) as Hv.
    { unfold visited' in Hk. apply lookup_insert_Some in Hk as [[_ <-]|[_ Hk]]; [lia|].
      eauto. }
    apply elem_of_app in Hn as [Hn|Hn].
    + specialize (Hmin n (Hrest _ Hn)). lia.
    + apply Hnew in Hn as (d & s & _ & -> & _ & Hc). simpl.
      apply getCost_nonneg in Hc. lia.
  - (* finalized costs are minimal *)
    intros k v c Hk Hp.
    unfold visited' in Hk. apply lookup_insert_Some in Hk as [[<- <-]|[_ Hk]]; eauto.
  - (* the start cell *)
    destruct Hstart as [Hv|(n & Hn & Hk & Hc)].
    + left. unfold visited'. rewrite lookup_insert_is_Some. destruct (decide (key curr = start)); auto.
    + destruct (Hsplit _ Hn) as [->|Hn'].
      * left. unfold visited'. rewrite <- Hk, lookup_insert_eq. by eexists.
      * right. exists n. rewrite elem_of_app. auto.
  - (* neighbours of finalized cells *)
    intros u vu v s Hu Hadj Hb Hc.
    unfold visited' in Hu. apply lookup_insert_Some in Hu as [[<- <-]|[Hne Hu]].
    + apply adjacent_dirs in Hadj as (d & Hd & ->).
      change (inBounds w h (nx curr + d.1, ny curr + d.2) = true) in Hb.
      change (getCost (nx curr + d.1) (ny curr + d.2) = Finite s) in Hc.
      destruct (pushed_covers w h getCost visited' curr d s Hb Hc) as [?|Hp];
        [by left|].
      right.
      exists (mkNode (nx curr + d.1) (ny curr + d.2) (ncost curr + s) (Some curr)).
      split; [|split; [reflexivity|]].
      * apply elem_of_app. right. apply list_elem_of_In, in_flat_map.
        exists d. split; apply list_elem_of_In; [done|exact Hp].
      * simpl. lia.
    + destruct (Hedge _ _ _ _ Hu Hadj Hb Hc) as [Hv|(n & Hn & Hk & Hle)].
      * left. unfold visited'. rewrite lookup_insert_is_Some. destruct (decide (key curr = v)); auto.
      * destruct (Hsplit _ Hn) as [->|Hn'].
        -- left. unfold visited'. rewrite <- Hk, lookup_insert_eq. by eexists.
        -- right. exists n. rewrite elem_of_app. auto.
  - (* no finalized cell is a goal *)
    intros k Hk. unfold visited' in Hk. apply lookup_insert_is_Some in Hk as [<-|[_ Hk]]; auto.
Qed.

Lemma stale_false openSet visited curr :
  Inv openSet visited -> curr ∈ openSet ->
  stale visited curr = false -> visited !! key curr = None.
Proof.
  intros HI Hin. unfold stale.
  destruct (visited !! key curr) as [c|] eqn:E; [|done].
  pose proof (inv_mono _ _ _ _ _ _ _ HI _ _ _ E Hin).
  intros Hgt%Z.leb_gt. lia.
Qed.

Lemma stale_true visited curr :
  stale visited curr = true -> is_Some (visited !! key curr).
Proof.
  unfold stale. destruct (visited !! key curr); [by eexists|done].
Qed.

Theorem search_outcome fuel openSet visited :
  Inv openSet visited ->
  outcomeOk (search w h getCost targets fuel openSet visited).
Proof.
  revert openSet visited.
  induction fuel as [|fuel IH]; intros openSet visited HI; [done|].
  rewrite search_S.
  destruct (sort openSet) as [|curr rest] eqn:Hs.
  - apply sort_nil in Hs as ->. simpl. intros g c Hp.
    destruct (visited !! g) eqn:Hg.
    + apply (inv_goal _ _ _ _ _ _ _ HI). by eexists.
    + destruct (frontier_bound _ _ _ _ HI Hp Hg) as (n & Hn & _).
      by apply elem_of_nil in Hn.
  - destruct (sort_head _ _ _ Hs) as (Hin & Hrest & Hmin).
    destruct (stale visited curr) eqn:Hst.
    + apply IH. eapply Inv_skip; eauto using stale_true.
    + pose proof (stale_false _ _ _ HI Hin Hst) as Hcurr.
      destruct (isTarget targets (key curr)) eqn:Hg.
      * simpl. split; [by apply (inv_wf _ _ _ _ _ _ _ HI)|]. split; [done|].
        intros g c Hp Hgt.
        destruct (visited !! g) eqn:Hvg.
        { rewrite (inv_goal _ _ _ _ _ _ _ HI g) in Hgt; [done|by eexists]. }
        destruct (frontier_bound _ _ _ _ HI Hp Hvg) as (n & Hn & Hc).
        specialize (Hmin _ Hn). lia.
      * apply IH. by eapply Inv_expand.
Qed.

Lemma Inv_initial : Inv [mkNode start.1 start.2 0 None] ∅.
Proof.
  constructor.
  - intros n ->%list_elem_of_singleton. simpl. by destruct start.
  - intros k v n Hk. by rewrite lookup_empty in Hk.
  - intros k v c Hk. by rewrite lookup_empty in Hk.
  - right. eexists. split; [by apply list_elem_of_singleton|]. by destruct start.
  - intros u vu v s Hu. by rewrite lookup_empty in Hu.
  - intros k [? Hk]. by rewrite lookup_empty in Hk.
Qed.

(** *** Termination *)

Local Abbreviation D := (domain w h start).
Local Abbreviation mu := (measure w h start).

Lemma wfNode_domain n : wfNode n -> key n ∈ D.
Proof.
  unfold domain.
  destruct n as [x y c [q|]]; simpl.
  - intros (_ & _ & Hb & _). apply elem_of_union_r, elem_of_list_to_set.
    apply inBounds_spec in Hb. simpl in Hb.
    apply list_elem_of_In, in_flat_map. exists x.
    split; [apply list_elem_of_In, elem_of_seqZ; lia|].
    unfold key. simpl.
    apply (in_map (fun y0 => (x, y0))), list_elem_of_In, elem_of_seqZ. lia.
  - intros [E _]. apply elem_of_union_l, elem_of_singleton. by rewrite <- E.
Qed.

Lemma size_list_to_set_le (l : list Cell) :
  (size (list_to_set l : gset Cell) <= length l)%nat.
Proof.
  induction l as [|c l IH].
  - rewrite list_to_set_nil, size_empty. simpl. lia.
  - rewrite list_to_set_cons, size_union_alt, size_singleton. simpl.
    assert (size (list_to_set l ∖ {[c]} : gset Cell) <= size (list_to_set l : gset Cell))%nat
      by (apply subseteq_size; set_solver).
    lia.
Qed.

Lemma length_grid (xs ys : list Z) :
  length (flat_map (fun x => map (fun y => (x, y)) ys) xs)
  = (length xs * length ys)%nat.
Proof.
  induction xs as [|x xs IH]; simpl; [done|].
  by rewrite length_app, length_map, IH.
Qed.

Lemma size_domain : (size D <= Z.to_nat w * Z.to_nat h + 1)%nat.
Proof.
  unfold domain. rewrite size_union_alt, size_singleton.
  set (cells := flat_map _ _).
  assert (size (list_to_set cells ∖ {[start]} : gset Cell)
          <= size (list_to_set cells : gset Cell))%nat as Hle
    by (apply subseteq_size; set_solver).
  pose proof (size_list_to_set_le cells) as Hlen.
  unfold cells in Hlen at 2. rewrite length_grid, !length_seqZ in Hlen. lia.
Qed.

Lemma size_unvisited_insert (visited : gmap (Z * Z) Z) k v :
  k ∈ D -> visited !! k = None ->
  (size (D ∖ dom (<[k := v]> visited)) + 1 = size (D ∖ dom visited))%nat.
Proof.
  intros Hk Hv. apply not_elem_of_dom in Hv.
  rewrite dom_insert_L.
  assert (D ∖ dom visited = {[k]} ∪ D ∖ ({[k]} ∪ dom visited)) as ->.
  { apply set_eq. intros c. destruct (decide (c = k)); set_solver. }
  pose proof (size_union ({[k]} : gset (Z * Z)) (D ∖ ({[k]} ∪ dom visited))) as Hsz.
  rewrite Hsz by set_solver.
  rewrite size_singleton. lia.
Qed.

Theorem search_fuel_enough fuel openSet visited :
  Inv openSet visited -> (mu openSet visited < fuel)%nat ->
  search w h getCost targets fuel openSet visited ≠ OutOfFuel.
Proof.
  revert openSet visited.
  induction fuel as [|fuel IH]; intros openSet visited HI Hm; [lia|].
  rewrite search_S.
  destruct (sort openSet) as [|curr rest] eqn:Hs; [done|].
  destruct (sort_head _ _ _ Hs) as (Hin & Hrest & Hmin).
  pose proof (length_sort openSet) as Hlen. rewrite Hs in Hlen. simpl in Hlen.
  unfold measure in Hm.
  destruct (stale visited curr) eqn:Hst.
  - apply IH; [eapply Inv_skip; eauto using stale_true|].
    unfold measure. lia.
  - pose proof (stale_false _ _ _ HI Hin Hst) as Hcurr.
    destruct (isTarget targets (key curr)) eqn:Hg; [done|].
    apply IH; [by eapply Inv_expand|].
    unfold measure. rewrite foldl_relax, length_app.
    pose proof (expansion_length w h getCost (<[key curr := ncost curr]> visited) curr).
    pose proof (size_unvisited_insert visited (key curr) (ncost curr)
                  (wfNode_domain _ (inv_wf _ _ _ _ _ _ _ HI _ Hin)) Hcurr).
    lia.
Qed.

(** The loop, started as [findPath] starts it, stops within
    [searchFuel w h] iterations with a meaningful outcome. *)
Theorem search_from_start :
  let o := search w h getCost targets (searchFuel w h)
             [mkNode start.1 start.2 0 None] ∅ in
  o ≠ OutOfFuel ∧ outcomeOk o.
Proof.
  split.
  - apply search_fuel_enough; [apply Inv_initial|].
    unfold measure, searchFuel. simpl.
    rewrite dom_empty_L, difference_empty_L.
    pose proof size_domain. lia.
  - apply search_outcome, Inv_initial.
Qed.

End Dijkstra.

(** ** From search nodes to routes *)

Lemma cadd_finite a b c :
  cadd a b = Finite c ↔ ∃ x y, a = Finite x ∧ b = Finite y ∧ c = x + y.
Proof.
  split.
  - destruct a as [x|], b as [y|]; simpl; intros [= <-]. eauto.
  - intros (x & y & -> & -> & ->). done.
Qed.

Lemma walk_snoc w h p u v :
  walk w h p -> last p = Some u -> adjacent u v -> inBounds w h v = true ->
  walk w h (p ++ [v]).
Proof.
  intros Hw. revert u. induction Hw as [|c|a b p Hab Hb Hw IH]; intros u Hl Hadj Hv.
  - done.
  - injection Hl as ->. simpl. constructor; [done..|constructor].
  - simpl. constructor; [done..|]. eapply IH; eauto.
Qed.

Lemma walk_tail w h a p : walk w h (a :: p) -> walk w h p.
Proof. inversion 1; subst; [constructor|done]. Qed.

Section Routes.

Variables (w h : Z) (getCost : Z -> Z -> Cost) (targets : list Cell) (start : Cell).

Hypothesis getCost_nonneg : ∀ x y c, getCost x y = Finite c -> 0 <= c.

Local Abbreviation pathTo := (pathTo w h getCost start).
Local Abbreviation wfNode := (wfNode w h getCost start).
Local Abbreviation cost := (routeCost getCost).

Lemma routeCost_snoc p v :
  p ≠ [] -> cost (p ++ [v]) = cadd (cost p) (getCost v.1 v.2).
Proof.
  destruct p as [|a p]; [done|]. intros _. unfold routeCost. simpl.
  induction p as [|b p IH]; simpl.
  - destruct (getCost v.1 v.2); simpl; [f_equal; lia | done].
  - rewrite IH. destruct (getCost b.1 b.2), (foldr _ _ p), (getCost v.1 v.2); simpl;
      try done. f_equal. lia.
Qed.

(** The route rebuilt from a well-formed node. *)
Lemma unwind_route n :
  wfNode n -> ∀ acc, ∃ pre,
    unwind n acc = pre ++ acc ∧ head pre = Some start ∧ last pre = Some (key n) ∧
    walk w h pre ∧ cost pre = Finite (ncost n).
Proof.
  revert n. fix IH 1. intros [x y c [q|]] Hwf acc.
  - simpl in Hwf. destruct Hwf as (Hq & Hadj & Hb & s & Hs & ->).
    destruct (IH q Hq ((x, y) :: acc)) as (pre & E & Hh & Hl & Hw & Hc).
    exists (pre ++ [(x, y)]). simpl.
    assert (pre ≠ []) by (intros ->; done).
    split; [by rewrite E, <- app_assoc|].
    split; [by destruct pre|].
    split; [by rewrite last_snoc|].
    split; [by eapply walk_snoc|].
    rewrite routeCost_snoc by done. simpl. by rewrite Hc, Hs.
  - simpl in Hwf. destruct Hwf as [E ->].
    exists [(x, y)]. unfold key. simpl. rewrite <- E. repeat split; constructor.
Qed.

(** A costed walk in list form is a [pathTo] derivation. *)
Lemma walk_pathTo p : ∀ u c0 c,
  pathTo u c0 -> walk w h (u :: p) -> cost (u :: p) = Finite c ->
  ∃ g, last (u :: p) = Some g ∧ pathTo g (c0 + c).
Proof.
  induction p as [|v p IH]; intros u c0 c Hu Hw Hc.
  - injection Hc as <-. exists u. by rewrite Z.add_0_r.
  - inversion Hw as [| |? ? ? Hadj Hb Hw']; subst.
    unfold routeCost in Hc. simpl in Hc.
    apply cadd_finite in Hc as (s & c' & Hs & Hc' & ->).
    destruct (IH v (c0 + s) c') as (g & Hl & Hp); [by econstructor|done|done|].
    exists g. split; [done|]. by rewrite Z.add_assoc.
Qed.

Theorem plan_correct :
  let route := reconstruct (search w h getCost targets (searchFuel w h)
                              [mkNode start.1 start.2 0 None] ∅) in
  (route = [] ∧ ∀ p, connects w h targets start p -> cost p = Infinity) ∨
  (connects w h targets start route ∧
   ∃ c, cost route = Finite c ∧
        ∀ p, connects w h targets start p -> cle (Finite c) (cost p)).
Proof.
  pose proof (pathTo_nonneg w h getCost start getCost_nonneg) as Hnn.
  assert (Hconn : ∀ p c, connects w h targets start p -> cost p = Finite c ->
            ∃ g, pathTo g c ∧ isTarget targets g = true).
  { intros p c (Hw & Hh & g & Hl & Hg) Hc.
    destruct p as [|u p]; [done|]. injection Hh as ->.
    destruct (walk_pathTo p start 0 c) as (g' & Hl' & Hp); [constructor|done..|].
    exists g. rewrite Hl in Hl'. injection Hl' as <-.
    split; [done|]. by apply isTarget_elem. }
  destruct (search_from_start w h getCost targets start getCost_nonneg) as [Hfuel Hok].
  simpl. destruct (search _ _ _ _ _ _ _) as [n| |]; [| |done]; simpl in *.
  - right. destruct Hok as (Hwf & Hg & Hmin).
    destruct (unwind_route n Hwf []) as (pre & E & Hh & Hl & Hw & Hc).
    rewrite app_nil_r in E. rewrite E.
    split.
    + split; [done|]. split; [done|]. exists (key n). split; [done|].
      by apply isTarget_elem.
    + exists (ncost n). split; [done|]. intros p Hp.
      destruct (cost p) as [c|] eqn:Hcp; [|done]. simpl.
      destruct (Hconn p c Hp Hcp) as (g & Hpg & Hgt). eauto.
  - left. split; [done|]. intros p Hp.
    destruct (cost p) as [c|] eqn:Hcp; [|done].
    destruct (Hconn p c Hp Hcp) as (g & Hpg & Hgt).
    rewrite (Hok _ _ Hpg) in Hgt. done.
Qed.

End Routes.

(** ** The cost function: walls and positivity *)

Lemma ceil_sqrt_le n k : 1 <= k -> n <= k * k -> ceil_sqrt n <= k.
Proof.
  intros Hk Hn. unfold ceil_sqrt.
  destruct (Z.le_gt_cases 0 n) as [H0|H0].
  - pose proof (Z.sqrt_spec n H0) as [Hlo Hhi]. pose proof (Z.sqrt_nonneg n) as Hr.
    set (r := Z.sqrt n) in *.
    assert (r * r <= k * k) as Hle by lia.
    assert (r <= k) by (apply Z.square_le_simpl_nonneg; lia).
    destruct (Z.eqb_spec (r * r) n) as [E|E]; [done|].
    assert (r <> k) by (intros ->; lia). lia.
  - destruct n as [|p|p]; try lia. simpl. lia.
Qed.

Lemma hazardCost_pos s : s < 16 -> 5 <= hazardCost s.
Proof.
  intros Hs. unfold hazardCost.
  pose proof (ceil_sqrt_le (100 * s) 40). lia.
Qed.

Lemma addFire_le floor x y cost fire : cost <= addFire floor x y cost fire.
Proof.
  unfold addFire. destruct (negb _); [lia|].
  destruct (Z.ltb_spec ((x - fx fire) ^ 2 + (y - fy fire) ^ 2) 16); [|lia].
  pose proof (hazardCost_pos _ H). lia.
Qed.

Lemma foldl_addFire_le floor x y fires cost :
  cost <= foldl (addFire floor x y) cost fires.
Proof.
  revert cost. induction fires as [|f fires IH]; intros cost; simpl; [lia|].
  pose proof (addFire_le floor x y cost f). pose proof (IH (addFire floor x y cost f)). lia.
Qed.

Lemma getCost_finite st role a x y :
  isWall st x y = false -> ∃ c, getCost st role a x y = Finite c ∧ 1 <= c.
Proof.
  intros Hw. unfold getCost. rewrite Hw. eexists. split; [done|].
  destruct (_ && _); [apply foldl_addFire_le | lia].
Qed.

Lemma getCost_wall st role a x y :
  isWall st x y = true -> getCost st role a x y = Infinity.
Proof. intros Hw. unfold getCost. by rewrite Hw. Qed.

Lemma getCost_nonneg st role a x y c :
  getCost st role a x y = Finite c -> 0 <= c.
Proof.
  destruct (isWall st x y) eqn:Hw.
  - by rewrite getCost_wall.
  - destruct (getCost_finite st role a x y Hw) as (c' & -> & ?). intros [= <-]. lia.
Qed.

Lemma getCost_Finite_inv st role a x y c :
  getCost st role a x y = Finite c -> isWall st x y = false.
Proof.
  destruct (isWall st x y) eqn:Hw; [|done]. by rewrite getCost_wall.
Qed.

Lemma legacy_addFire_le x y cost fire : cost <= Legacy.addFire x y cost fire.
Proof.
  unfold Legacy.addFire.
  destruct (Z.ltb_spec ((x - fire.1) ^ 2 + (y - fire.2) ^ 2) 16); [|lia].
  pose proof (hazardCost_pos _ H). lia.
Qed.

Lemma legacy_foldl_addFire_le x y fires cost :
  cost <= foldl (Legacy.addFire x y) cost fires.
Proof.
  revert cost. induction fires as [|f fires IH]; intros cost; simpl; [lia|].
  pose proof (legacy_addFire_le x y cost f).
  pose proof (IH (Legacy.addFire x y cost f)). lia.
Qed.

Lemma legacy_getCost_nonneg st x y c : Legacy.getCost st x y = Finite c -> 0 <= c.
Proof.
  unfold Legacy.getCost. destruct (Legacy.isWall st x y); [done|].
  intros [= <-]. destruct (_ <? _); [|lia].
  pose proof (legacy_foldl_addFire_le x y (Legacy.fireLocations st) 1). lia.
Qed.

Lemma legacy_getCost_Finite_inv st x y c :
  Legacy.getCost st x y = Finite c -> Legacy.isWall st x y = false.
Proof. unfold Legacy.getCost. by destruct (Legacy.isWall st x y). Qed.

Lemma routeCost_finite getCost p c :
  routeCost getCost p = Finite c ->
  Forall (fun v => ∃ s, getCost v.1 v.2 = Finite s) (tail p).
Proof.
  unfold routeCost. revert c. induction (tail p) as [|v l IH]; intros c; simpl.
  - constructor.
  - intros (s & c' & Hs & Hc' & _)%cadd_finite. constructor; eauto.
Qed.

Lemma routeCost_passable getCost p :
  Forall (fun v => ∃ s, getCost v.1 v.2 = Finite s) (tail p) ->
  ∃ c, routeCost getCost p = Finite c.
Proof.
  unfold routeCost. induction 1 as [|v l (s & Hs) _ (c & IH)]; simpl; [eauto|].
  rewrite Hs, IH. simpl. eauto.
Qed.

(** ** The planner's contract *)

Lemma findPath_plan st x y role a :
  (findPath st x y role a = [] ∧
   ∀ p, connects (width st) (height st) (targetsOf st role a) (x, y) p ->
        routeCost (getCost st role a) p = Infinity) ∨
  cheapest (width st) (height st) (getCost st role a) (targetsOf st role a) (x, y)
    (findPath st x y role a).
Proof.
  exact (plan_correct (width st) (height st) (getCost st role a) (targetsOf st role a)
           (x, y) (getCost_nonneg st role a)).
Qed.

Lemma legacy_findPath_plan st x y :
  (Legacy.findPath st x y = [] ∧
   ∀ p, connects (Legacy.width st) (Legacy.height st) (Legacy.exits st) (x, y) p ->
        routeCost (Legacy.getCost st) p = Infinity) ∨
  cheapest (Legacy.width st) (Legacy.height st) (Legacy.getCost st) (Legacy.exits st) (x, y)
    (Legacy.findPath st x y).
Proof.
  exact (plan_correct (Legacy.width st) (Legacy.height st) (Legacy.getCost st)
           (Legacy.exits st) (x, y) (legacy_getCost_nonneg st)).
Qed.

(** The iteration bound built into [findPath] is never what stops the
    loop: with any larger bound the route is the same. *)
Lemma findPath_fuel_independent st x y role a fuel :
  (searchFuel (width st) (height st) <= fuel)%nat ->
  reconstruct
    (search (width st) (height st) (getCost st role a) (targetsOf st role a) fuel
       [mkNode x y 0 None] ∅)
  = findPath st x y role a.
Proof.
  intros Hle. unfold findPath. f_equal.
  apply search_more_fuel; [|done].
  exact (proj1 (search_from_start (width st) (height st) (getCost st role a)
                  (targetsOf st role a) (x, y) (getCost_nonneg st role a))).
Qed.

Lemma findPath_ends st x y role a :
  findPath st x y role a ≠ [] ->
  head (findPath st x y role a) = Some (x, y) ∧
  ∃ g, last (findPath st x y role a) = Some g ∧ g ∈ targetsOf st role a.
Proof.
  intros Hne.
  destruct (findPath_plan st x y role a) as [[E _]|((Hw & Hh & Hl) & _)]; done.
Qed.

Lemma findPath_shape st x y role a :
  walk (width st) (height st) (findPath st x y role a) ∧
  avoidsWalls st (findPath st x y role a).
Proof.
  destruct (findPath_plan st x y role a) as [[-> _]|((Hw & _) & c & Hc & _)].
  - split; constructor.
  - split; [done|]. apply routeCost_finite in Hc.
    eapply Forall_impl; [exact Hc|]. simpl. intros v (s & Hs).
    by eapply getCost_Finite_inv.
Qed.

(** C1. Optimality.  Whenever the planner returns a non-empty route,
    that route is a walk from the occupant's cell to a cell of the goal
    set, its cost (the sum of the costs of the cells stepped onto, the
    start cell excluded) is finite, and no walk from the occupant's
    cell to any goal cell costs less.  This holds for the planner with
    roles and floors and for the earlier planner. *)
Theorem findPath_optimal :
  (∀ st x y role a,
     findPath st x y role a ≠ [] ->
     cheapest (width st) (height st) (getCost st role a) (targetsOf st role a) (x, y)
       (findPath st x y role a)) ∧
  (∀ st x y,
     Legacy.findPath st x y ≠ [] ->
     cheapest (Legacy.width st) (Legacy.height st) (Legacy.getCost st) (Legacy.exits st)
       (x, y) (Legacy.findPath st x y)).
Proof.
  split.
  - intros st x y role a Hne.
    destruct (findPath_plan st x y role a) as [[E _]|H]; [done|exact H].
  - intros st x y Hne.
    destruct (legacy_findPath_plan st x y) as [[E _]|H]; [done|exact H].
Qed.

Lemma findPath_optimal_witness :
  (findPath (scenario [mkFire 5 3 1]) 5 8 civilian evacuate ≠ [] ∧
   cheapest 10 10 (getCost (scenario [mkFire 5 3 1]) civilian evacuate) [(5, 0)] (5, 8)
     (findPath (scenario [mkFire 5 3 1]) 5 8 civilian evacuate)) ∧
  (Legacy.findPath (legacyScenario [(5, 3)]) 5 8 ≠ [] ∧
   cheapest 10 10 (Legacy.getCost (legacyScenario [(5, 3)])) [(5, 0)] (5, 8)
     (Legacy.findPath (legacyScenario [(5, 3)]) 5 8)).
Proof.
  split; split.
  - vm_compute. discriminate.
  - apply (proj1 findPath_optimal (scenario [mkFire 5 3 1]) 5 8 civilian evacuate).
    vm_compute. discriminate.
  - vm_compute. discriminate.
  - apply (proj2 findPath_optimal (legacyScenario [(5, 3)]) 5 8).
    vm_compute. discriminate.
Defined.

Lemma passable_not_unreachable (getCost : Z -> Z -> Cost) (p : list Cell) :
  Forall (fun c => ∃ s, getCost c.1 c.2 = Finite s) (tail p) ->
  routeCost getCost p ≠ Infinity.
Proof. intros (c & Hc)%routeCost_passable. by rewrite Hc. Qed.

(** C2. Reachability.  A non-empty route starts at the occupant's
    cell and ends at a cell of the goal set; an empty route means that
    no walk over in-bounds, non-wall cells leads from the occupant's
    cell to any goal cell.  For both planners. *)
Theorem findPath_reaches_goal :
  (∀ st x y role a,
     (findPath st x y role a ≠ [] ->
      head (findPath st x y role a) = Some (x, y) ∧
      ∃ g, last (findPath st x y role a) = Some g ∧ g ∈ targetsOf st role a) ∧
     (findPath st x y role a = [] ->
      ¬ ∃ p, connects (width st) (height st) (targetsOf st role a) (x, y) p ∧
             avoidsWalls st p)) ∧
  (∀ st x y,
     (Legacy.findPath st x y ≠ [] ->
      head (Legacy.findPath st x y) = Some (x, y) ∧
      ∃ g, last (Legacy.findPath st x y) = Some g ∧ g ∈ Legacy.exits st) ∧
     (Legacy.findPath st x y = [] ->
      ¬ ∃ p, connects (Legacy.width st) (Legacy.height st) (Legacy.exits st) (x, y) p ∧
             avoidsWallsLegacy st p)).
Proof.
  split.
  - intros st x y role a.
    destruct (findPath_plan st x y role a) as [[E Hun]|((Hw & Hh & Hl) & _)].
    + split; [done|]. intros _ (p & Hp & Hpass).
      apply (passable_not_unreachable (getCost st role a) p); [|by apply Hun].
      eapply Forall_impl; [exact Hpass|]. simpl. intros c Hc.
      destruct (getCost_finite st role a _ _ Hc) as (s & Hs & _). eauto.
    + split; [done|]. intros E. by rewrite E in Hh.
  - intros st x y.
    destruct (legacy_findPath_plan st x y) as [[E Hun]|((Hw & Hh & Hl) & _)].
    + split; [done|]. intros _ (p & Hp & Hpass).
      apply (passable_not_unreachable (Legacy.getCost st) p); [|by apply Hun].
      eapply Forall_impl; [exact Hpass|]. simpl. intros c Hc.
      unfold Legacy.getCost. rewrite Hc. eauto.
    + split; [done|]. intros E. by rewrite E in Hh.
Qed.

Lemma findPath_reaches_goal_witness :
  ((findPath (scenario []) 5 5 civilian evacuate ≠ [] ∧
    head (findPath (scenario []) 5 5 civilian evacuate) = Some (5, 5) ∧
    ∃ g, last (findPath (scenario []) 5 5 civilian evacuate) = Some g ∧ g ∈ [(5, 0)]) ∧
   (findPath sealed 1 1 civilian evacuate = [] ∧
    ¬ ∃ p, connects 3 3 [(1, 0)] (1, 1) p ∧ avoidsWalls sealed p)) ∧
  ((Legacy.findPath (legacyScenario []) 5 5 ≠ [] ∧
    head (Legacy.findPath (legacyScenario []) 5 5) = Some (5, 5) ∧
    ∃ g, last (Legacy.findPath (legacyScenario []) 5 5) = Some g ∧ g ∈ [(5, 0)]) ∧
   (Legacy.findPath legacySealed 1 1 = [] ∧
    ¬ ∃ p, connects 3 3 [(1, 0)] (1, 1) p ∧ avoidsWallsLegacy legacySealed p)).
Proof.
  split; split; split.
  - vm_compute. discriminate.
  - apply (proj1 (proj1 findPath_reaches_goal (scenario []) 5 5 civilian evacuate)).
    vm_compute. discriminate.
  - vm_compute. reflexivity.
  - apply (proj2 (proj1 findPath_reaches_goal sealed 1 1 civilian evacuate)).
    vm_compute. reflexivity.
  - vm_compute. discriminate.
  - apply (proj1 (proj2 findPath_reaches_goal (legacyScenario []) 5 5)).
    vm_compute. discriminate.
  - vm_compute. reflexivity.
  - apply (proj2 (proj2 findPath_reaches_goal legacySealed 1 1)).
    vm_compute. reflexivity.
Defined.

(** C10. Shape of a route.  In every route the planner returns,
    consecutive cells differ by exactly 1 in exactly one coordinate and
    every cell after the first lies within the grid ([walk]) and is not
    a wall; nothing is promised about the first cell, the occupant's
    reported position.  For both planners. *)
Theorem findPath_route_shape :
  (∀ st x y role a,
     walk (width st) (height st) (findPath st x y role a) ∧
     avoidsWalls st (findPath st x y role a)) ∧
  (∀ st x y,
     walk (Legacy.width st) (Legacy.height st) (Legacy.findPath st x y) ∧
     avoidsWallsLegacy st (Legacy.findPath st x y)).
Proof.
  split.
  - apply findPath_shape.
  - intros st x y.
    destruct (legacy_findPath_plan st x y) as [[-> _]|((Hw & _) & c & Hc & _)].
    + split; constructor.
    + split; [done|]. apply routeCost_finite in Hc.
      eapply Forall_impl; [exact Hc|]. simpl. intros v (s & Hs).
      by eapply legacy_getCost_Finite_inv.
Qed.

(** ** Occupants reported off the grid or inside a wall *)

Lemma search_isolated w h getCost targets x y :
  (∀ d, d ∈ dirs ->
     inBounds w h (x + d.1, y + d.2) = false ∨ getCost (x + d.1) (y + d.2) = Infinity) ->
  reconstruct (search w h getCost targets (searchFuel w h) [mkNode x y 0 None] ∅)
  = if isTarget targets (x, y) then [(x, y)] else [].
Proof.
  intros Hiso.
  assert (Hpush : ∀ visited d, d ∈ dirs ->
            pushed w h getCost visited (mkNode x y 0 None) d = []).
  { intros visited d Hd. unfold pushed. simpl.
    destruct (Hiso d Hd) as [-> | Hc]; [done|].
    rewrite Hc. by destruct (inBounds _ _ _). }
  unfold searchFuel.
  replace (4 * (Z.to_nat w * Z.to_nat h + 1) + 2)%nat
    with (S (S (4 * (Z.to_nat w * Z.to_nat h + 1))))%nat by lia.
  rewrite search_S. simpl sort. cbv iota.
  unfold stale. rewrite lookup_empty.
  change (key (mkNode x y 0 None)) with (x, y).
  destruct (isTarget targets (x, y)); [done|].
  rewrite foldl_relax. unfold dirs at 1. simpl flat_map.
  rewrite !Hpush by (unfold dirs; set_solver).
  done.
Qed.

(** Counterexample to C9 as stated.  The start cell is never checked
    against the grid or the walls, so an occupant standing inside a
    wall or just outside the grid is routed like any other as soon as
    one of its neighbours is passable: from the desk cell (2, 6) of the
    lecture hall the planner returns a fourteen-cell route, and from
    (5, -1), above the exit of the bordered floor, a two-cell one. *)
Lemma blocked_start_is_routed :
  (isWall lectureHall 2 6 = true ∧
   findPath lectureHall 2 6 civilian evacuate =
     [(2, 6); (2, 5); (2, 4); (2, 3); (2, 2); (2, 1); (3, 1); (4, 1); (5, 1);
      (6, 1); (7, 1); (8, 1); (9, 1); (10, 1)]) ∧
  (inBounds 10 10 (5, -1) = false ∧
   findPath (scenario []) 5 (-1) civilian evacuate = [(5, -1); (5, 0)]).
Proof. split; split; vm_compute; reflexivity. Qed.

(** C9, amended.  An occupant whose stored cell is off-grid or inside
    a wall, and none of whose four neighbours is an in-bounds non-wall
    cell, gets the single-cell route made of its own cell when that
    cell belongs to the goal set, and the empty route otherwise.  For
    both planners. *)
Theorem findPath_isolated_start :
  (∀ st x y role a,
     inBounds (width st) (height st) (x, y) = false ∨ isWall st x y = true ->
     isolated st x y = true ->
     findPath st x y role a
     = if isTarget (targetsOf st role a) (x, y) then [(x, y)] else []) ∧
  (∀ st x y,
     inBounds (Legacy.width st) (Legacy.height st) (x, y) = false
       ∨ Legacy.isWall st x y = true ->
     isolatedLegacy st x y = true ->
     Legacy.findPath st x y
     = if isTarget (Legacy.exits st) (x, y) then [(x, y)] else []).
Proof.
  split.
  - intros st x y role a _ Hiso. apply search_isolated.
    intros d Hd. unfold isolated in Hiso. rewrite forallb_forall in Hiso.
    specialize (Hiso d (proj1 (list_elem_of_In _ _) Hd)).
    apply orb_true_iff in Hiso as [Hb|Hw].
    + left. by apply negb_true_iff.
    + right. by apply getCost_wall.
  - intros st x y _ Hiso. apply search_isolated.
    intros d Hd. unfold isolatedLegacy in Hiso. rewrite forallb_forall in Hiso.
    specialize (Hiso d (proj1 (list_elem_of_In _ _) Hd)).
    apply orb_true_iff in Hiso as [Hb|Hw].
    + left. by apply negb_true_iff.
    + right. unfold Legacy.getCost. by rewrite Hw.
Qed.

Lemma findPath_isolated_start_witness :
  ((inBounds 10 10 (0, 0) = false ∨ isWall (scenario []) 0 0 = true) ∧
   isolated (scenario []) 0 0 = true ∧
   findPath (scenario []) 0 0 civilian evacuate = []) ∧
  ((inBounds 10 10 (12, 4) = false ∨ Legacy.isWall (legacyScenario []) 12 4 = true) ∧
   isolatedLegacy (legacyScenario []) 12 4 = true ∧
   Legacy.findPath (legacyScenario []) 12 4 = []).
Proof.
  split.
  - split; [right; reflexivity|]. split; [reflexivity|].
    apply (proj1 findPath_isolated_start (scenario []) 0 0 civilian evacuate);
      [right; reflexivity | reflexivity].
  - split; [left; reflexivity|]. split; [reflexivity|].
    apply (proj2 findPath_isolated_start (legacyScenario []) 12 4);
      [left; reflexivity | reflexivity].
Defined.

(** ** The planner as a function of its inputs *)

Lemma pushed_ext w h getCost getCost' visited curr d :
  (∀ x y, getCost x y = getCost' x y) ->
  pushed w h getCost visited curr d = pushed w h getCost' visited curr d.
Proof. intros E. unfold pushed. by rewrite E. Qed.

Lemma search_ext w h getCost getCost' targets targets' fuel :
  (∀ x y, getCost x y = getCost' x y) ->
  (∀ c, isTarget targets c = isTarget targets' c) ->
  ∀ openSet visited,
    search w h getCost targets fuel openSet visited
    = search w h getCost' targets' fuel openSet visited.
Proof.
  intros Ec Et. induction fuel as [|fuel IH]; intros openSet visited; [done|].
  rewrite !search_S. destruct (sort openSet) as [|curr rest]; [done|].
  destruct (stale visited curr); [apply IH|].
  rewrite Et. destruct (isTarget targets' (key curr)); [done|].
  rewrite !foldl_relax.
  rewrite (flat_map_ext _ (pushed w h getCost' (<[key curr := ncost curr]> visited) curr))
    by (intros d; by apply pushed_ext).
  apply IH.
Qed.

Lemma isTarget_ext targets targets' :
  (∀ c, c ∈ targets ↔ c ∈ targets') -> ∀ c, isTarget targets c = isTarget targets' c.
Proof.
  intros E c. apply eq_true_iff_eq. by rewrite !isTarget_elem.
Qed.

Lemma foldl_addFire_hazardsOn floor x y fires cost :
  foldl (addFire floor x y) cost fires
  = foldl (addFire floor x y) cost (hazardsOn floor fires).
Proof.
  revert cost. induction fires as [|f fires IH]; intros cost; [done|].
  simpl. unfold addFire at 2.
  destruct (ffloor f =? floor) eqn:Ef; simpl.
  - rewrite IH. unfold addFire at 3. by rewrite Ef.
  - apply IH.
Qed.

Lemma addFire_comm floor x y cost f g :
  addFire floor x y (addFire floor x y cost f) g
  = addFire floor x y (addFire floor x y cost g) f.
Proof. unfold addFire. repeat case_match; lia. Qed.

Lemma foldl_addFire_perm floor x y fires fires' :
  fires ≡ₚ fires' ->
  ∀ cost, foldl (addFire floor x y) cost fires = foldl (addFire floor x y) cost fires'.
Proof.
  induction 1 as [|f l l' _ IH|f g l|l l' l'' _ IH1 _ IH2]; intros cost; simpl.
  - done.
  - apply IH.
  - by rewrite addFire_comm.
  - by rewrite IH1.
Qed.

(** The cost of a cell only looks at the hazards of the current floor. *)
Lemma getCost_hazardsOn st role a x y :
  getCost st role a x y =
  if isWall st x y then Infinity
  else Finite (if shouldAvoidFire role a
               then foldl (addFire (currentFloor st) x y) 1
                      (hazardsOn (currentFloor st) (fireLocations st))
               else 1).
Proof.
  unfold getCost. destruct (isWall st x y); [done|]. f_equal.
  destruct (shouldAvoidFire role a); [|by rewrite andb_false_r].
  rewrite andb_true_r, <- foldl_addFire_hazardsOn.
  by destruct (fireLocations st).
Qed.

Lemma isWall_elem st x y : isWall st x y = true ↔ (x, y) ∈ walls st.
Proof. apply (isTarget_elem (walls st) (x, y)). Qed.

Lemma sameInputs_getCost st st' role a x y :
  sameInputs st st' -> getCost st role a x y = getCost st' role a x y.
Proof.
  intros (_ & _ & Ef & Ew & _ & Eh).
  rewrite !getCost_hazardsOn.
  assert (isWall st x y = isWall st' x y) as ->.
  { apply eq_true_iff_eq. by rewrite !isWall_elem. }
  destruct (isWall st' x y); [done|]. f_equal.
  destruct (shouldAvoidFire role a); [|done].
  rewrite <- Ef in *. by apply foldl_addFire_perm.
Qed.

Lemma sameInputs_targets st st' role a c :
  sameInputs st st' ->
  isTarget (targetsOf st role a) c = isTarget (targetsOf st' role a) c.
Proof.
  intros (_ & _ & Ef & _ & Ee & Eh).
  apply isTarget_ext. clear c. intros c. unfold targetsOf.
  destruct (_ && _); [|done].
  rewrite <- (Permutation_length Eh).
  destruct (_ =? 0); [done|]. by rewrite Eh.
Qed.

(** *** Order of discovery *)

Lemma searchLog_S w h getCost targets fuel openSet visited :
  searchLog w h getCost targets (S fuel) openSet visited =
  match sort openSet with
  | [] => (Exhausted, ([], []))
  | curr :: rest =>
      if stale visited curr then
        let r := searchLog w h getCost targets fuel rest visited in
        (r.1, (curr :: r.2.1, r.2.2))
      else
        if isTarget targets (key curr) then (Found curr, ([curr], []))
        else
          let r := searchLog w h getCost targets fuel
                     (foldl (relax w h getCost (<[key curr := ncost curr]> visited) curr)
                        rest dirs)
                     (<[key curr := ncost curr]> visited) in
          (r.1, (curr :: r.2.1,
                 flat_map (pushed w h getCost (<[key curr := ncost curr]> visited) curr) dirs
                 ++ r.2.2))
  end.
Proof. reflexivity. Qed.

Lemma searchLog_outcome w h getCost targets fuel :
  ∀ openSet visited,
    (searchLog w h getCost targets fuel openSet visited).1
    = search w h getCost targets fuel openSet visited.
Proof.
  induction fuel as [|fuel IH]; intros openSet visited; [done|].
  rewrite search_S, searchLog_S.
  destruct (sort openSet) as [|curr rest]; [done|].
  destruct (stale visited curr); [apply IH|].
  destruct (isTarget targets (key curr)); [done|]. apply IH.
Qed.

Lemma byCost_prefix_cons c n l1 l2 :
  byCost c l1 `prefix_of` byCost c l2 ->
  byCost c (n :: l1) `prefix_of` byCost c (n :: l2).
Proof.
  intros Hp. rewrite !byCost_cons. destruct (ncost n =? c); [|done].
  by apply prefix_cons.
Qed.

(** Entries of one cost leave the frontier in the order in which they
    entered it. *)
Lemma searchLog_fifo w h getCost targets c fuel :
  ∀ openSet visited,
    byCost c (searchLog w h getCost targets fuel openSet visited).2.1
    `prefix_of`
    byCost c (openSet ++ (searchLog w h getCost targets fuel openSet visited).2.2).
Proof.
  induction fuel as [|fuel IH]; intros openSet visited.
  { apply prefix_nil. }
  rewrite searchLog_S.
  destruct (sort openSet) as [|curr rest] eqn:Hs.
  { apply prefix_nil. }
  assert (Hst : ∀ l, byCost c (openSet ++ l) = byCost c (curr :: rest ++ l)).
  { intros l. rewrite byCost_app, <- (sort_stable c openSet), Hs.
    by rewrite <- byCost_app. }
  destruct (stale visited curr); cbn [fst snd].
  - rewrite Hst. apply byCost_prefix_cons, IH.
  - destruct (isTarget targets (key curr)); cbn [fst snd].
    + rewrite Hst, app_nil_r, !byCost_cons. destruct (ncost curr =? c).
      * apply prefix_cons, prefix_nil.
      * apply prefix_nil.
    + rewrite Hst. apply byCost_prefix_cons.
      rewrite app_assoc, <- foldl_relax. apply IH.
Qed.

(** C7. Determinism.  The route is a function of the floor geometry,
    of the hazards on the planner's floor and of the occupant's cell,
    role and action only: two observer states that agree on these give
    identical routes ([sameInputs]).  Ties are broken by order of
    discovery.  In one iteration: the entry the loop takes from the
    frontier has the lowest cost; among the entries of its cost it is
    the one that comes first in the frontier; the entries of any one
    cost that stay in the frontier keep their order; and the entries an
    expansion discovers are placed behind all of them.  Over a whole
    run ([searchLog], the loop with a log of what it took and what it
    pushed): entries of equal cost are taken from the frontier in the
    order in which they were put there. *)
Theorem findPath_deterministic :
  (∀ st st' x y role a,
     sameInputs st st' -> findPath st x y role a = findPath st' x y role a) ∧
  (∀ openSet curr rest,
     sort openSet = curr :: rest ->
     (∀ n, n ∈ openSet -> ncost curr <= ncost n) ∧
     byCost (ncost curr) openSet = curr :: byCost (ncost curr) rest ∧
     (∀ c, c ≠ ncost curr -> byCost c openSet = byCost c rest) ∧
     (∀ c w h getCost visited,
        byCost c (foldl (relax w h getCost visited curr) rest dirs)
        = byCost c rest ++ byCost c (flat_map (pushed w h getCost visited curr) dirs))) ∧
  (∀ w h getCost targets fuel openSet visited c,
     let log := searchLog w h getCost targets fuel openSet visited in
     log.1 = search w h getCost targets fuel openSet visited ∧
     byCost c log.2.1 `prefix_of` byCost c (openSet ++ log.2.2)).
Proof.
  split; [|split].
  - intros st st' x y role a HS. unfold findPath.
    destruct HS as (Ew & Eh & HS') eqn:E. rewrite <- Ew, <- Eh. f_equal.
    apply search_ext.
    + intros. by apply sameInputs_getCost.
    + intros. by apply sameInputs_targets.
  - intros openSet curr rest Hs.
    destruct (sort_head _ _ _ Hs) as (_ & _ & Hmin).
    split; [done|].
    assert (Hst : ∀ c, byCost c openSet = byCost c (curr :: rest)).
    { intros c. by rewrite <- Hs, sort_stable. }
    split; [|split].
    + by rewrite Hst, byCost_cons, Z.eqb_refl.
    + intros c Hc. rewrite Hst, byCost_cons.
      by destruct (Z.eqb_spec (ncost curr) c).
    + intros. by rewrite foldl_relax, byCost_app.
  - intros. split; [apply searchLog_outcome | apply searchLog_fifo].
Qed.

Lemma findPath_deterministic_witness :
  (sameInputs (scenario [mkFire 5 3 1; mkFire 4 4 2]) (scenario [mkFire 5 3 1]) ∧
   findPath (scenario [mkFire 5 3 1; mkFire 4 4 2]) 5 8 civilian evacuate
   = findPath (scenario [mkFire 5 3 1]) 5 8 civilian evacuate) ∧
  (sort frontier3 = mkNode 1 2 3 None :: [mkNode 3 2 3 None; mkNode 2 1 7 None] ∧
   byCost 3 frontier3 = mkNode 1 2 3 None :: byCost 3 [mkNode 3 2 3 None; mkNode 2 1 7 None]).
Proof.
  assert (HS : sameInputs (scenario [mkFire 5 3 1; mkFire 4 4 2]) (scenario [mkFire 5 3 1])).
  { repeat split; try reflexivity; simpl; tauto. }
  assert (Hs : sort frontier3 = mkNode 1 2 3 None :: [mkNode 3 2 3 None; mkNode 2 1 7 None])
    by reflexivity.
  split; split.
  - exact HS.
  - exact (proj1 findPath_deterministic _ _ 5 8 civilian evacuate HS).
  - exact Hs.
  - exact (proj1 (proj2 (proj1 (proj2 findPath_deterministic) _ _ _ Hs))).
Defined.

(** ** The cost function and the real-number formula *)

Lemma distance_sqrt x y f :
  distance x y f = sqrt (IZR ((x - fx f) ^ 2 + (y - fy f) ^ 2)).
Proof.
  unfold distance. f_equal.
  rewrite plus_IZR.
  change 2 with (Z.of_nat 2).
  by rewrite <- !pow_IZR, !minus_IZR.
Qed.

Lemma sqrt_IZR_square r : 0 <= r -> sqrt (IZR (r * r)) = IZR r.
Proof.
  intros Hr. rewrite mult_IZR. apply sqrt_square. by apply IZR_le.
Qed.

Lemma sqrt_lt_4 s : 0 <= s -> (sqrt (IZR s) < 4)%R ↔ s < 16.
Proof.
  intros Hs.
  assert (sqrt (IZR 16) = 4%R) as E4 by (apply (sqrt_IZR_square 4); lia).
  split.
  - intros Hlt. destruct (Z.lt_ge_cases s 16) as [|Hge]; [done|].
    apply IZR_le, sqrt_le_1_alt in Hge. lra.
  - intros Hlt. rewrite <- E4. apply sqrt_lt_1_alt.
    split; [by apply IZR_le | by apply IZR_lt].
Qed.

Lemma ceil_sqrt_bounds t :
  0 <= t -> (IZR (ceil_sqrt t) - 1 < sqrt (IZR t) <= IZR (ceil_sqrt t))%R.
Proof.
  intros Ht. unfold ceil_sqrt.
  pose proof (Z.sqrt_spec t Ht) as [Hlo Hhi]. pose proof (Z.sqrt_nonneg t) as Hr.
  set (r := Z.sqrt t) in *.
  destruct (Z.eqb_spec (r * r) t) as [E|E].
  - assert (sqrt (IZR t) = IZR r) as -> by (rewrite <- E; by apply sqrt_IZR_square).
    lra.
  - rewrite plus_IZR.
    assert (IZR r < sqrt (IZR t))%R.
    { rewrite <- (sqrt_IZR_square r) by done. apply sqrt_lt_1_alt.
      split; [apply IZR_le; nia | apply IZR_lt; lia]. }
    assert (sqrt (IZR t) <= IZR (r + 1))%R.
    { rewrite <- (sqrt_IZR_square (r + 1)) by lia. apply sqrt_le_1_alt, IZR_le.
      unfold Z.succ in Hhi. lia. }
    rewrite plus_IZR in *. lra.
Qed.

Lemma sqrt_100 s : 0 <= s -> sqrt (IZR (100 * s)) = (10 * sqrt (IZR s))%R.
Proof.
  intros Hs. rewrite mult_IZR, sqrt_mult; [|lra|by apply IZR_le].
  f_equal. apply (sqrt_IZR_square 10). lia.
Qed.

(** [hazardCost] is the integer part of the real expression. *)
Lemma hazardCost_Int_part s :
  0 <= s -> hazardCost s = Int_part ((4.5 - sqrt (IZR s)) * 10).
Proof.
  intros Hs. unfold hazardCost. apply Int_part_spec.
  pose proof (ceil_sqrt_bounds (100 * s) ltac:(lia)) as Hb.
  rewrite sqrt_100 in Hb by done.
  rewrite minus_IZR. lra.
Qed.

Lemma addFire_formula floor x y cost f :
  addFire floor x y cost f
  = cost + hazardSurcharge floor x y [f].
Proof.
  unfold addFire, hazardSurcharge. simpl.
  assert (0 <= (x - fx f) ^ 2 + (y - fy f) ^ 2) as Hs by nia.
  destruct (Z.eq_dec (ffloor f) floor) as [E|E].
  - rewrite (proj2 (Z.eqb_eq _ _) E). simpl.
    destruct (Rlt_dec (distance x y f) 4) as [Hd|Hd];
      rewrite distance_sqrt, sqrt_lt_4 in Hd by done.
    + rewrite (proj2 (Z.ltb_lt _ _) Hd).
      unfold surcharge. rewrite distance_sqrt, <- hazardCost_Int_part by done. lia.
    + rewrite (proj2 (Z.ltb_ge _ _)) by lia. lia.
  - rewrite (proj2 (Z.eqb_neq _ _) E). simpl. lia.
Qed.

Lemma foldl_addFire_formula floor x y fires cost :
  foldl (addFire floor x y) cost fires = cost + hazardSurcharge floor x y fires.
Proof.
  revert cost. induction fires as [|f fires IH]; intros cost; simpl; [lia|].
  rewrite IH, addFire_formula. unfold hazardSurcharge. simpl.
  destruct (Z.eq_dec (ffloor f) floor); [|lia].
  destruct (Rlt_dec (distance x y f) 4); lia.
Qed.

Lemma legacy_foldl_addFire x y fires cost :
  foldl (Legacy.addFire x y) cost fires
  = foldl (addFire 1 x y) cost (map (fun c => mkFire c.1 c.2 1) fires).
Proof.
  revert cost. induction fires as [|c l IH]; intros cost; [done|].
  simpl. by rewrite IH.
Qed.

Lemma legacy_getCost_asCurrent st x y :
  Legacy.getCost st x y = getCost (asCurrent st) civilian evacuate x y.
Proof.
  unfold Legacy.getCost, getCost. simpl.
  change (isWall (asCurrent st) x y) with (Legacy.isWall st x y).
  destruct (Legacy.isWall st x y); [done|]. f_equal.
  by rewrite length_map, andb_true_r, legacy_foldl_addFire.
Qed.

(** C3. The cost function.  For every cell, [getCost] returns
    [Infinity] if the cell is a wall; otherwise, for a civilian or a
    firefighter who evacuates, 1 plus the sum, over every hazard of the
    planner's floor at Euclidean distance [d < 4], of
    [floor((4.5 - d) * 10)], with no cap; and exactly 1 for a
    firefighter on rescue duty, whatever hazards are near
    ([getCostFormula], stated over the reals).  The cost function of
    the earlier planner is the civilian case, all hazards being on the
    one floor. *)
Theorem getCost_formula :
  (∀ st role a x y, getCost st role a x y = getCostFormula st role a x y) ∧
  (∀ st x y,
     Legacy.getCost st x y = getCostFormula (asCurrent st) civilian evacuate x y).
Proof.
  assert (H : ∀ st role a x y, getCost st role a x y = getCostFormula st role a x y).
  { intros st role a x y. unfold getCost, getCostFormula.
    destruct (isWall st x y); [done|].
    assert (foldl (addFire (currentFloor st) x y) 1 (fireLocations st)
            = 1 + hazardSurcharge (currentFloor st) x y (fireLocations st)) as Hsum
      by apply foldl_addFire_formula.
    assert ((if 0 <? Z.of_nat (length (fireLocations st))
             then foldl (addFire (currentFloor st) x y) 1 (fireLocations st) else 1)
            = 1 + hazardSurcharge (currentFloor st) x y (fireLocations st)) as Hguard.
    { rewrite <- Hsum. by destruct (fireLocations st). }
    destruct role, a; simpl; rewrite ?andb_true_r, ?andb_false_r; by rewrite ?Hguard. }
  split; [exact H|].
  intros st x y. by rewrite legacy_getCost_asCurrent.
Qed.

(** ** The authoritative node *)

Lemma set_elem k v o p :
  p ∈ Server.set k v o -> p = (k, v) ∨ p ∈ o.
Proof.
  induction o as [|[k' v'] o IH]; simpl.
  - intros ->%list_elem_of_singleton. by left.
  - destruct (String.eqb k' k).
    + rewrite !elem_of_cons. tauto.
    + rewrite !elem_of_cons. intros [->|H]; [tauto|]. destruct (IH H); tauto.
Qed.

Lemma set_stores k v o : (k, v) ∈ Server.set k v o.
Proof.
  induction o as [|[k' v'] o IH]; simpl.
  - by apply list_elem_of_singleton.
  - destruct (String.eqb k' k); rewrite elem_of_cons; tauto.
Qed.

Lemma delete_elem k o p : p ∈ Server.delete k o ↔ p ∈ o ∧ p.1 ≠ k.
Proof.
  unfold Server.delete. rewrite list_elem_of_In, filter_In, <- list_elem_of_In.
  rewrite negb_true_iff, String.eqb_neq. done.
Qed.

Lemma reachable_keysMatch st : Server.reachable st -> keysMatch st.
Proof.
  induction 1 as [|st socket _ IH _|st socket ev _ IH _]; unfold keysMatch in *.
  - intros k u H. by apply elem_of_nil in H.
  - exact IH.
  - destruct ev; simpl; try exact IH.
    + intros k u [[= -> ->]|H]%set_elem; [done|eauto].
    + intros k u [H _]%delete_elem. eauto.
Qed.

Lemma emitAll_elem st s m :
  (s, m) ∈ Server.emitAll st ↔
  s ∈ Server.sockets st ∧
  m = Server.stateUpdate (Server.values (Server.users st)) (Server.fireLocations st).
Proof.
  unfold Server.emitAll. rewrite list_elem_of_fmap. split.
  - intros (s' & [= -> ->] & Hs). done.
  - intros [Hs ->]. by exists s.
Qed.

Lemma on_emits st socket ev :
  (Server.on st socket ev).2 = Server.emitAll (Server.on st socket ev).1.
Proof. by destruct ev. Qed.

Lemma on_sockets st socket ev :
  ev ≠ Server.disconnect ->
  Server.sockets (Server.on st socket ev).1 = Server.sockets st.
Proof. by destruct ev. Qed.

(** C6. Broadcast after every mutation.  Whatever event a connected
    observer delivers (occupant upsert, hazard toggle, hazard clear, or
    its disconnection), the node answers by sending to every observer
    connected after the event one message each, the snapshot made of
    the whole occupant registry and the whole hazard registry as they
    are after the mutation, and nothing else.  For the first three
    events the recipients are all the connected observers, the sender
    included.  On disconnect the recipients are all the other
    observers, and the occupant of the departing connection is already
    gone from the registry the snapshot lists. *)
Theorem snapshot_after_every_mutation st socket ev :
  Server.reachable st -> socket ∈ Server.sockets st ->
  let st' := (Server.on st socket ev).1 in
  let out := (Server.on st socket ev).2 in
  let snapshot :=
    Server.stateUpdate (Server.values (Server.users st')) (Server.fireLocations st') in
  out = map (fun s => (s, snapshot)) (Server.sockets st') ∧
  (ev ≠ Server.disconnect ->
   Server.sockets st' = Server.sockets st ∧ (socket, snapshot) ∈ out) ∧
  (ev = Server.disconnect ->
   (∀ s, s ∈ Server.sockets st' ↔ s ∈ Server.sockets st ∧ s ≠ socket) ∧
   (∀ u, u ∈ Server.values (Server.users st') -> Server.id u ≠ socket) ∧
   (∀ k u, (k, u) ∈ Server.users st -> k ≠ socket ->
           u ∈ Server.values (Server.users st'))).
Proof.
  intros Hreach Hsock st' out snapshot.
  split; [|split].
  - unfold out. by rewrite on_emits.
  - intros Hev. split; [by apply on_sockets|].
    unfold out. rewrite on_emits. apply emitAll_elem. split; [|done].
    fold st'. unfold st'. by rewrite on_sockets.
  - intros ->. simpl in *. split; [|split].
    + intros s. rewrite list_elem_of_In, filter_In, <- list_elem_of_In.
      by rewrite negb_true_iff, String.eqb_neq.
    + intros u (p & -> & [Hp Hk]%delete_elem)%list_elem_of_fmap.
      destruct p as [k u]. simpl in *.
      by rewrite (reachable_keysMatch st Hreach k u Hp).
    + intros k u Hu Hk. apply list_elem_of_fmap. exists (k, u).
      split; [done|]. by apply delete_elem.
Qed.

Lemma twoObservers_reachable : Server.reachable twoObservers.
Proof.
  change twoObservers with
    (Server.on
       (Server.on
          (Server.connection (Server.connection Server.initial "a").1 "b").1
          "a" (Server.updateUser 1 1 (Some 1) None None)).1
       "a" (Server.toggleFire 3 3 (Some 1))).1.
  repeat first
    [ apply Server.reach_on
    | apply Server.reach_connection
    | apply Server.reach_initial ]; simpl; set_solver.
Qed.

Lemma snapshot_after_every_mutation_witness :
  Server.reachable twoObservers ∧ "b" ∈ Server.sockets twoObservers ∧
  (Server.on twoObservers "b" (Server.updateUser 2 2 None None None)).2
  = [("a", Server.stateUpdate [Server.mkUser "a" 1 1 1; Server.mkUser "b" 2 2 1]
             [mkFire 3 3 1]);
     ("b", Server.stateUpdate [Server.mkUser "a" 1 1 1; Server.mkUser "b" 2 2 1]
             [mkFire 3 3 1])].
Proof.
  assert (Hin : "b" ∈ Server.sockets twoObservers) by (simpl; set_solver).
  split; [exact twoObservers_reachable|]. split; [exact Hin|].
  exact (proj1 (snapshot_after_every_mutation twoObservers "b"
                  (Server.updateUser 2 2 None None None) twoObservers_reachable Hin)).
Defined.

(** C4, at a failing input.  The handler of a position report reads
    [x], [y] and [floor] and nothing else: a report carrying a role
    and an intent leaves the node exactly as the same report without
    them, and the stored entry has no role.  Observer "b" reports
    itself at (8, 8) as a firefighter on rescue duty while a hazard
    burns at (3, 3): the snapshot lists it without a role, an observer
    of the bordered floor therefore routes it to the exit (5, 0) as an
    evacuating civilian, whereas the planner asked with the role sends
    it to the hazard. *)
Theorem updateUser_discards_role :
  (∀ st socket x y floor role intent,
     Server.on st socket (Server.updateUser x y floor role intent)
     = Server.on st socket (Server.updateUser x y floor None None)) ∧
  let ev := Server.updateUser 8 8 (Some 1) (Some firefighter) (Some rescue) in
  let st' := (Server.on twoObservers "b" ev).1 in
  Server.users st' = [("a", Server.mkUser "a" 1 1 1); ("b", Server.mkUser "b" 8 8 1)] ∧
  users (receive (scenario [])
           (Server.stateUpdate (Server.values (Server.users st')) (Server.fireLocations st')))
  = [mkUser (Some "a") 1 1 (Some 1) None None
       [(1, 1); (2, 1); (3, 1); (4, 1); (5, 1); (5, 0)];
     mkUser (Some "b") 8 8 (Some 1) None None
       [(8, 8); (8, 7); (8, 6); (8, 5); (8, 4); (8, 3); (8, 2); (8, 1); (7, 1);
        (6, 1); (5, 1); (5, 0)]] ∧
  findPath (scenario [mkFire 3 3 1]) 8 8 firefighter rescue
  = [(8, 8); (8, 7); (8, 6); (8, 5); (8, 4); (8, 3); (7, 3); (6, 3); (5, 3);
     (4, 3); (3, 3)].
Proof.
  split; [reflexivity|]. split; [reflexivity|]. split; vm_compute; reflexivity.
Qed.

(** ** Clearing the hazards of a floor *)

Lemma clear_elem floor fires f :
  f ∈ List.filter (fun f => negb (ffloor f =? floor)) fires ↔ f ∈ fires ∧ ffloor f ≠ floor.
Proof.
  rewrite list_elem_of_In, filter_In, <- list_elem_of_In.
  by rewrite negb_true_iff, Z.eqb_neq.
Qed.

Lemma clear_sublist floor fires :
  List.filter (fun f => negb (ffloor f =? floor)) fires `sublist_of` fires.
Proof.
  induction fires as [|f fires IH]; simpl; [done|].
  destruct (negb _); by constructor.
Qed.

(** Counterexample to C8 as stated: a floor of 0 is falsy, so
    [data.floor || 1] reads it as floor 1.  Clearing floor 0 removes
    the hazards of floor 1, which are not hazards of floor 0. *)
Lemma clearFire_zero_clears_floor_one :
  Server.fireLocations twoFloors = [mkFire 2 2 1; mkFire 4 4 2; mkFire 6 6 1] ∧
  Server.fireLocations (Server.on twoFloors "a" (Server.clearFire (Some 0))).1
  = [mkFire 4 4 2].
Proof. split; reflexivity. Qed.

(** C8, amended.  For every state of the node and every floor [f]
    other than 0, clearing floor [f] removes exactly the hazards whose
    floor is [f]: none of them remains, every hazard of another floor
    is still present, the remaining hazards are the old ones in their
    old order, and the occupant registry is untouched. *)
Theorem clearFire_floor_scoped st socket f :
  f ≠ 0 ->
  let st' := (Server.on st socket (Server.clearFire (Some f))).1 in
  (∀ fire, fire ∈ Server.fireLocations st' -> ffloor fire ≠ f) ∧
  (∀ fire, fire ∈ Server.fireLocations st -> ffloor fire ≠ f ->
           fire ∈ Server.fireLocations st') ∧
  Server.fireLocations st' `sublist_of` Server.fireLocations st ∧
  Server.users st' = Server.users st.
Proof.
  intros Hf. simpl. destruct (Z.eqb_spec f 0) as [|_]; [done|].
  split; [|split; [|split]].
  - by intros fire [_ H]%clear_elem.
  - intros fire Hin Hne. by apply clear_elem.
  - apply clear_sublist.
  - done.
Qed.

Lemma clearFire_floor_scoped_witness :
  2 ≠ 0 ∧
  Server.fireLocations (Server.on twoFloors "a" (Server.clearFire (Some 2))).1
  = [mkFire 2 2 1; mkFire 6 6 1] ∧
  ∀ fire,
    fire ∈ Server.fireLocations (Server.on twoFloors "a" (Server.clearFire (Some 2))).1 ->
    ffloor fire ≠ 2.
Proof.
  split; [lia|]. split; [reflexivity|].
  exact (proj1 (clearFire_floor_scoped twoFloors "a" 2 ltac:(lia))).
Defined.

(** ** Which floor a recomputed route is planned on *)

Lemma recalculate_users st u :
  u ∈ users (recalculate st) ↔
  ∃ u0, u0 ∈ users st ∧
        u = setPath u0 (findPath st (ux u0) (uy u0) (roleOf u0) (actionOf u0)).
Proof.
  unfold recalculate. simpl. rewrite list_elem_of_fmap. naive_solver.
Qed.

(** Counterexample to C5 as stated.  An observer showing floor 1 (the
    lecture hall, 20 by 20) receives a snapshot with an occupant of
    floor 2 at (1, 10).  Its route is planned through the lecture hall
    to that floor's exit (10, 18); on the geometry of its own floor the
    occupant stands next to the corridor exit (1, 11). *)
Lemma other_floor_routed_on_active_floor :
  currentFloor (receive lectureHall floor2Snapshot) = 1 ∧
  users (receive lectureHall floor2Snapshot) = [visitor] ∧
  ufloor visitor = Some 2 ∧
  upath visitor =
    [(1, 10); (1, 11); (1, 12); (1, 13); (1, 14); (1, 15); (1, 16); (1, 17);
     (1, 18); (2, 18); (3, 18); (4, 18); (5, 18); (6, 18); (7, 18); (8, 18);
     (9, 18); (10, 18)] ∧
  ownFloorRoute (receive lectureHall floor2Snapshot) visitor = [(1, 10); (1, 11)].
Proof.
  split; [reflexivity|]. split; [vm_compute; reflexivity|].
  split; [reflexivity|]. split; vm_compute; reflexivity.
Qed.

Lemma adopt_geometry st m :
  currentFloor (adopt st m) = currentFloor st ∧
  width (adopt st m) = width st ∧ height (adopt st m) = height st ∧
  walls (adopt st m) = walls st ∧ exits (adopt st m) = exits st.
Proof. by destruct m. Qed.

(** C5, amended.  Every recomputed route, also after a received
    snapshot, is planned on the observer's active floor, whatever the
    occupant's own floor: the stored route is the planner's answer for
    the occupant's cell, role and action on the observer's current
    bounds, walls, exits and floor index (a snapshot changes none of
    these); it is a walk within these bounds that avoids these walls
    and, when it is not empty, ends in a goal cell of the active
    floor. *)
Theorem recalculate_plans_on_active_floor :
  (∀ st u,
     u ∈ users (recalculate st) ->
     upath u = findPath st (ux u) (uy u) (roleOf u) (actionOf u) ∧
     walk (width st) (height st) (upath u) ∧ avoidsWalls st (upath u) ∧
     (upath u ≠ [] ->
      ∃ g, last (upath u) = Some g ∧ g ∈ targetsOf st (roleOf u) (actionOf u))) ∧
  (∀ st m u,
     u ∈ users (receive st m) ->
     upath u = findPath (adopt st m) (ux u) (uy u) (roleOf u) (actionOf u) ∧
     currentFloor (adopt st m) = currentFloor st ∧
     width (adopt st m) = width st ∧ height (adopt st m) = height st ∧
     walls (adopt st m) = walls st ∧ exits (adopt st m) = exits st).
Proof.
  assert (Hrec : ∀ st u, u ∈ users (recalculate st) ->
            upath u = findPath st (ux u) (uy u) (roleOf u) (actionOf u)).
  { intros st u (u0 & _ & ->)%recalculate_users. done. }
  split.
  - intros st u Hu. rewrite (Hrec st u Hu).
    destruct (findPath_shape st (ux u) (uy u) (roleOf u) (actionOf u)) as [Hw Ha].
    split; [done|]. split; [done|]. split; [done|]. intros Hne.
    by destruct (findPath_ends st (ux u) (uy u) (roleOf u) (actionOf u) Hne) as [_ Hg].
  - intros st m u Hu. split; [by apply Hrec|]. apply adopt_geometry.
Qed.

Lemma recalculate_plans_on_active_floor_witness :
  (visitor ∈ users (recalculate (adopt lectureHall floor2Snapshot)) ∧
   upath visitor ≠ [] ∧
   avoidsWalls lectureHall (upath visitor) ∧
   ∃ g, last (upath visitor) = Some g ∧ g ∈ exits lectureHall) ∧
  (visitor ∈ users (receive lectureHall floor2Snapshot) ∧
   ufloor visitor = Some 2 ∧
   currentFloor (adopt lectureHall floor2Snapshot) = 1).
Proof.
  assert (Hin : visitor ∈ users (recalculate (adopt lectureHall floor2Snapshot))).
  { vm_compute. apply list_elem_of_singleton. reflexivity. }
  assert (Hne : upath visitor ≠ []) by discriminate.
  split.
  - split; [exact Hin|]. split; [exact Hne|].
    pose proof (proj1 recalculate_plans_on_active_floor
                  (adopt lectureHall floor2Snapshot) visitor Hin) as (_ & _ & Ha & Hg).
    split; [exact Ha | exact (Hg Hne)].
  - split; [exact Hin|]. split; [reflexivity|].
    exact (proj1 (proj2 (proj2 recalculate_plans_on_active_floor
                           lectureHall floor2Snapshot visitor Hin))).
Defined.

(** ** The scenarios of the design document *)

(** An open floor: the civilian at (5, 5) walks straight up to the
    exit, at cost 5. *)
Example scenario_straight_route :
  findPath (scenario []) 5 5 civilian evacuate
  = [(5, 5); (5, 4); (5, 3); (5, 2); (5, 1); (5, 0)] ∧
  routeCost (getCost (scenario []) civilian evacuate)
    (findPath (scenario []) 5 5 civilian evacuate) = Finite 5.
Proof. split; vm_compute; reflexivity. Qed.

(** A hazard at (5, 3) on the way: the route leaves column 5 and costs
    more than the 8 steps of the straight line. *)
Example scenario_detour :
  findPath (scenario [mkFire 5 3 1]) 5 8 civilian evacuate
  = [(5, 8); (5, 7); (4, 7); (3, 7); (2, 7); (2, 6); (1, 6); (1, 5); (1, 4);
     (1, 3); (1, 2); (1, 1); (2, 1); (3, 1); (4, 1); (5, 1); (5, 0)] ∧
  routeCost (getCost (scenario [mkFire 5 3 1]) civilian evacuate)
    (findPath (scenario [mkFire 5 3 1]) 5 8 civilian evacuate) = Finite 102.
Proof. split; vm_compute; reflexivity. Qed.

(** A firefighter on rescue duty walks to the hazard at (3, 3) at the
    plain cost of 10 steps. *)
Example scenario_responder :
  last (findPath (scenario [mkFire 3 3 1]) 8 8 firefighter rescue) = Some (3, 3) ∧
  routeCost (getCost (scenario [mkFire 3 3 1]) firefighter rescue)
    (findPath (scenario [mkFire 3 3 1]) 8 8 firefighter rescue) = Finite 10.
Proof. split; vm_compute; reflexivity. Qed.

(** Without hazards on the floor a firefighter on rescue duty is
    routed like one who evacuates. *)
Example scenario_responder_fallback :
  findPath (scenario [mkFire 3 3 2]) 8 8 firefighter rescue
  = findPath (scenario [mkFire 3 3 2]) 8 8 firefighter evacuate.
Proof. vm_compute. reflexivity. Qed.

(** Toggling the same hazard twice leaves the registry as it was. *)
Example scenario_toggle_twice :
  Server.toggle 2 2 1 (Server.toggle 2 2 1 []) = [] ∧
  Server.toggle 2 2 1 (Server.toggle 2 2 1 [mkFire 3 3 1]) = [mkFire 3 3 1].
Proof. split; reflexivity. Qed.

(** Observer "a" leaves: the snapshot goes to "b" alone and lists no
    occupant "a". *)
Example scenario_disconnect :
  Server.on twoObservers "a" Server.disconnect
  = (Server.mkState [] [mkFire 3 3 1] ["b"],
     [("b", Server.stateUpdate [] [mkFire 3 3 1])]).
Proof. reflexivity. Qed.

(** The earlier planner returns what the current one returns for a
    civilian when every hazard is on the current floor. *)
Lemma legacy_findPath_asCurrent st x y :
  Legacy.findPath st x y = findPath (asCurrent st) x y civilian evacuate.
Proof.
  unfold Legacy.findPath, findPath. f_equal.
  apply search_ext; [apply legacy_getCost_asCurrent | done].
Qed.

(** * Further properties of the authoritative node *)

(** ** The occupant registry as a map *)

Lemma set_keys_present k v o :
  k ∈ map fst o -> map fst (Server.set k v o) = map fst o.
Proof.
  induction o as [|[k' v'] o IH]; simpl; intros Hin.
  - by apply elem_of_nil in Hin.
  - destruct (String.eqb_spec k' k) as [->|Hne]; [done|]. simpl.
    apply elem_of_cons in Hin as [->|Hin]; [done|]. by rewrite IH.
Qed.

Lemma set_keys_absent k v o :
  k ∉ map fst o -> map fst (Server.set k v o) = map fst o ++ [k].
Proof.
  induction o as [|[k' v'] o IH]; simpl; intros Hin; [done|].
  apply not_elem_of_cons in Hin as [Hne Hin].
  destruct (String.eqb_spec k' k) as [->|_]; [done|]. simpl. by rewrite IH.
Qed.

Lemma set_NoDup k v o : NoDup (map fst o) -> NoDup (map fst (Server.set k v o)).
Proof.
  intros Hnd. destruct (decide (k ∈ map fst o)) as [Hin|Hin].
  - by rewrite set_keys_present.
  - rewrite set_keys_absent by done.
    apply NoDup_app. split; [done|]. split; [|apply NoDup_singleton].
    intros x Hx ->%list_elem_of_singleton. done.
Qed.

Lemma set_set k v1 v2 o : Server.set k v2 (Server.set k v1 o) = Server.set k v2 o.
Proof.
  induction o as [|[k' v'] o IH]; cbn [Server.set].
  - by rewrite String.eqb_refl.
  - destruct (String.eqb k' k) eqn:E; cbn [Server.set].
    + by rewrite String.eqb_refl.
    + by rewrite E, IH.
Qed.

Lemma List_filter_cons {A} (f : A -> bool) (x : A) (l : list A) :
  List.filter f (x :: l) = if f x then x :: List.filter f l else List.filter f l.
Proof. reflexivity. Qed.

Lemma List_filter_NoDup {A} (f : A -> bool) (l : list A) :
  NoDup l -> NoDup (List.filter f l).
Proof. rewrite !NoDup_ListNoDup. apply List.NoDup_filter. Qed.

Lemma set_others k v o :
  List.filter (fun p => negb (String.eqb p.1 k)) (Server.set k v o)
  = List.filter (fun p => negb (String.eqb p.1 k)) o.
Proof.
  induction o as [|[k' v'] o IH]; cbn [Server.set].
  - rewrite List_filter_cons. cbn [fst]. by rewrite String.eqb_refl.
  - destruct (String.eqb k' k) eqn:E; rewrite !List_filter_cons; cbn [fst].
    + by rewrite String.eqb_refl, E.
    + by rewrite E, IH.
Qed.

Lemma set_unique k v o u :
  NoDup (map fst o) -> (k, u) ∈ Server.set k v o -> u = v.
Proof.
  induction o as [|[k' v'] o IH]; simpl; intros Hnd Hin.
  - apply list_elem_of_singleton in Hin. congruence.
  - apply NoDup_cons in Hnd as [Hk' Hnd].
    destruct (String.eqb_spec k' k) as [->|Hne].
    + apply elem_of_cons in Hin as [[= ->]|Hin]; [done|].
      destruct Hk'. apply list_elem_of_fmap. by exists (k, u).
    + apply elem_of_cons in Hin as [[= -> _]|Hin]; [done|]. by apply IH.
Qed.

Lemma delete_absent k o : k ∉ map fst o -> Server.delete k o = o.
Proof.
  unfold Server.delete.
  induction o as [|[k' v'] o IH]; [done|].
  cbn [map fst]. rewrite not_elem_of_cons. intros [Hne Hin].
  rewrite List_filter_cons. cbn [fst].
  assert (String.eqb k' k = false) as -> by (apply String.eqb_neq; congruence).
  cbn [negb]. by rewrite IH.
Qed.

(** ** Toggling a hazard *)

Lemma sameFire_eq x y floor f :
  Server.sameFire x y floor f = true ↔ f = mkFire x y floor.
Proof.
  unfold Server.sameFire. rewrite !andb_true_iff, !Z.eqb_eq.
  destruct f as [a b c]. simpl. split.
  - by intros [[-> ->] ->].
  - by intros [= -> -> ->].
Qed.

Lemma toggle_absent x y floor fires :
  mkFire x y floor ∉ fires ->
  Server.toggle x y floor fires = fires ++ [mkFire x y floor].
Proof.
  induction fires as [|f fires IH]; simpl; [done|].
  rewrite not_elem_of_cons. intros [Hne Hin].
  destruct (Server.sameFire x y floor f) eqn:E.
  - apply sameFire_eq in E. congruence.
  - by rewrite IH.
Qed.

Lemma toggle_last x y floor fires :
  mkFire x y floor ∉ fires ->
  Server.toggle x y floor (fires ++ [mkFire x y floor]) = fires.
Proof.
  induction fires as [|f fires IH]; simpl.
  - intros _. by rewrite (proj2 (sameFire_eq x y floor _) eq_refl).
  - rewrite not_elem_of_cons. intros [Hne Hin].
    destruct (Server.sameFire x y floor f) eqn:E.
    + apply sameFire_eq in E. congruence.
    + by rewrite IH.
Qed.

Lemma toggle_elem x y floor fires g :
  NoDup fires ->
  g ∈ Server.toggle x y floor fires ↔
  (g ≠ mkFire x y floor ∧ g ∈ fires) ∨ (g = mkFire x y floor ∧ g ∉ fires).
Proof.
  induction fires as [|f fires IH]; simpl; intros Hnd.
  - rewrite list_elem_of_singleton. split.
    + intros ->. right. split; [done|apply not_elem_of_nil].
    + intros [[_ H]|[-> _]]; [by apply elem_of_nil in H|done].
  - apply NoDup_cons in Hnd as [Hf Hnd].
    destruct (Server.sameFire x y floor f) eqn:E.
    + apply sameFire_eq in E. subst f. rewrite elem_of_cons. split.
      * intros Hg. left. split; [|by right]. by intros ->.
      * intros [[Hne [?|?]]|[-> Hn]]; [done|done|]. destruct Hn. by left.
    + assert (f ≠ mkFire x y floor) as Hne.
      { intros Hf'. apply sameFire_eq in Hf'. congruence. }
      rewrite !elem_of_cons, (IH Hnd). clear IH. naive_solver.
Qed.

Lemma toggle_NoDup x y floor fires :
  NoDup fires -> NoDup (Server.toggle x y floor fires).
Proof.
  induction fires as [|f fires IH]; simpl; intros Hnd.
  - apply NoDup_singleton.
  - apply NoDup_cons in Hnd as [Hf Hnd].
    destruct (Server.sameFire x y floor f) eqn:E; [done|].
    apply NoDup_cons. split; [|by apply IH].
    rewrite toggle_elem by done. intros [[_ ?]|[-> ?]]; [done|].
    rewrite (proj2 (sameFire_eq x y floor _) eq_refl) in E. done.
Qed.

Lemma toggle_twice x y floor fires :
  NoDup fires ->
  Server.toggle x y floor (Server.toggle x y floor fires) ≡ₚ fires.
Proof.
  induction fires as [|f fires IH]; simpl; intros Hnd.
  - by rewrite (proj2 (sameFire_eq x y floor _) eq_refl).
  - apply NoDup_cons in Hnd as [Hf Hnd].
    destruct (Server.sameFire x y floor f) eqn:E.
    + apply sameFire_eq in E. subst f.
      rewrite toggle_absent by done. by rewrite Permutation_app_comm.
    + simpl. rewrite E. by rewrite IH.
Qed.

Lemma toggle_twice_absent x y floor fires :
  mkFire x y floor ∉ fires ->
  Server.toggle x y floor (Server.toggle x y floor fires) = fires.
Proof.
  intros Hf. rewrite (toggle_absent x y floor fires) by done. by apply toggle_last.
Qed.

Lemma toggle_twice_present x y floor fires :
  NoDup fires -> mkFire x y floor ∈ fires ->
  Server.toggle x y floor (Server.toggle x y floor fires)
  = List.filter (fun g => negb (Server.sameFire x y floor g)) fires ++ [mkFire x y floor].
Proof.
  induction fires as [|g l IH]; intros Hnd Hf.
  - by apply elem_of_nil in Hf.
  - apply NoDup_cons in Hnd as [Hg Hnd]. cbn [Server.toggle].
    rewrite List_filter_cons.
    destruct (Server.sameFire x y floor g) eqn:E; cbn [negb].
    + apply sameFire_eq in E. subst g.
      rewrite toggle_absent by done. f_equal.
      symmetry. apply forallb_filter_id, forallb_forall.
      intros g Hin. apply negb_true_iff.
      destruct (Server.sameFire x y floor g) eqn:E'; [|done].
      apply sameFire_eq in E'. subst g. by apply list_elem_of_In in Hin.
    + cbn [Server.toggle]. rewrite E. simpl. f_equal. apply IH; [done|].
      apply elem_of_cons in Hf as [Hf|Hf]; [|done].
      symmetry in Hf. apply sameFire_eq in Hf. congruence.
Qed.

Lemma floorOr1_nonzero floor : Server.floorOr1 floor ≠ 0.
Proof. destruct floor as [f|]; simpl; [|done]. by destruct (Z.eqb_spec f 0). Qed.

(** ** Invariants of the node *)

Lemma reachable_wf st : Server.reachable st -> wellFormed st.
Proof.
  induction 1 as [|st socket _ IH Hnew|st socket ev _ IH Hsock].
  - split; [apply NoDup_nil_2|]. split; [|split; [apply NoDup_nil_2|split; [apply NoDup_nil_2|]]].
    + intros k u Hu. by apply elem_of_nil in Hu.
    + intros f Hf. by apply elem_of_nil in Hf.
  - destruct IH as (Hk & He & Hs & Hf & Hz). unfold wellFormed. simpl.
    split; [done|]. split; [|split; [|done]].
    + intros k u Hu. destruct (He k u Hu) as (? & ? & ?).
      rewrite elem_of_app. auto.
    + apply NoDup_app. split; [done|]. split; [|apply NoDup_singleton].
      intros s Hs' ->%list_elem_of_singleton. done.
  - destruct IH as (Hk & He & Hs & Hf & Hz).
    destruct ev as [x y floor r i|x y floor|floor|]; unfold wellFormed; simpl.
    + split; [by apply set_NoDup|]. split; [|done].
      intros k u [[= -> ->]|Hu]%set_elem; [|by apply He].
      simpl. split; [done|]. split; [done|]. apply floorOr1_nonzero.
    + split; [done|]. split; [done|]. split; [done|].
      split; [by apply toggle_NoDup|].
      intros f [[_ Hin]|[-> _]]%toggle_elem; [by apply Hz| |done].
      simpl. apply floorOr1_nonzero.
    + split; [done|]. split; [done|]. split; [done|]. split.
      * by apply List_filter_NoDup.
      * intros f [Hin _]%clear_elem. by apply Hz.
    + split; [|split; [|split; [|done]]].
      * unfold Server.delete.
        induction (Server.users st) as [|[k u] o IHo]; [done|].
        cbn [map fst] in Hk. apply NoDup_cons in Hk as [Hko Hk].
        rewrite List_filter_cons. cbn [fst].
        destruct (negb _); [|by apply IHo; eauto using list_elem_of_further].
        cbn [map fst]. apply NoDup_cons. split; [|by apply IHo; eauto using list_elem_of_further].
        intros (p & Hp1 & [Hp _]%list_elem_of_In%filter_In)%list_elem_of_fmap.
        apply Hko, list_elem_of_fmap. exists p. split; [done|by apply list_elem_of_In].
      * intros k u [Hu Hne]%delete_elem. destruct (He k u Hu) as (? & ? & ?).
        split; [done|]. split; [|done].
        apply list_elem_of_In, filter_In. split; [by apply list_elem_of_In|].
        apply negb_true_iff, String.eqb_neq. done.
      * by apply List_filter_NoDup.
Qed.

(** X1. Whatever sequence of connections and events the node has gone
    through, its registries are well formed: one occupant entry per
    identity, stored under the identity it carries, belonging to a
    socket that is still connected, on a floor other than 0; no socket
    listed twice; no two hazards at the same cell of the same floor, and
    none on floor 0. *)
Theorem reachable_wellFormed st : Server.reachable st -> wellFormed st.
Proof. apply reachable_wf. Qed.

Lemma reachable_wellFormed_witness :
  Server.reachable twoObservers ∧ wellFormed twoObservers.
Proof.
  split; [exact twoObservers_reachable|].
  exact (reachable_wellFormed twoObservers twoObservers_reachable).
Defined.

(** X2. Last write wins.  After a position report of a socket, the
    registry holds exactly one entry for that socket, the one just
    reported (floor defaulted to 1); the entries of all other sockets
    are the same as before and in the same order; and a second report
    of the socket leaves the node in the state the second report alone
    would have produced. *)
Theorem updateUser_last_write_wins st socket x y floor role intent :
  Server.reachable st ->
  let entry := Server.mkUser socket x y (Server.floorOr1 floor) in
  let st' := (Server.on st socket (Server.updateUser x y floor role intent)).1 in
  (socket, entry) ∈ Server.users st' ∧
  (∀ u, (socket, u) ∈ Server.users st' -> u = entry) ∧
  Server.delete socket (Server.users st') = Server.delete socket (Server.users st) ∧
  ∀ x2 y2 floor2 role2 intent2,
    Server.on st' socket (Server.updateUser x2 y2 floor2 role2 intent2)
    = Server.on st socket (Server.updateUser x2 y2 floor2 role2 intent2).
Proof.
  intros Hreach. destruct (reachable_wf st Hreach) as (Hk & _). simpl.
  split; [apply set_stores|]. split; [|split].
  - intros u Hu. by eapply set_unique.
  - apply set_others.
  - intros. unfold Server.emitAll. simpl. by rewrite set_set.
Qed.

Lemma updateUser_last_write_wins_witness :
  Server.reachable twoObservers ∧
  Server.users (Server.on twoObservers "a" (Server.updateUser 4 5 None None None)).1
  = [("a", Server.mkUser "a" 4 5 1)] ∧
  ∀ u, ("a", u) ∈ Server.users
         (Server.on twoObservers "a" (Server.updateUser 4 5 None None None)).1 ->
       u = Server.mkUser "a" 4 5 1.
Proof.
  split; [exact twoObservers_reachable|]. split; [reflexivity|].
  exact (proj1 (proj2 (updateUser_last_write_wins twoObservers "a" 4 5 None None None
                         twoObservers_reachable))).
Defined.

(** X3. A hazard toggle flips the presence of the one hazard it names
    (floor defaulted to 1) and of no other. *)
Theorem toggleFire_flips_one st socket x y floor :
  Server.reachable st ->
  let f := mkFire x y (Server.floorOr1 floor) in
  let st' := (Server.on st socket (Server.toggleFire x y floor)).1 in
  (f ∈ Server.fireLocations st' ↔ f ∉ Server.fireLocations st) ∧
  (∀ g, g ≠ f -> g ∈ Server.fireLocations st' ↔ g ∈ Server.fireLocations st) ∧
  Server.users st' = Server.users st.
Proof.
  intros Hreach. destruct (reachable_wf st Hreach) as (_ & _ & _ & Hnd & _). simpl.
  split; [|split; [|done]].
  - rewrite toggle_elem by done. naive_solver.
  - intros g Hg. rewrite toggle_elem by done. naive_solver.
Qed.

Lemma toggleFire_flips_one_witness :
  Server.reachable twoObservers ∧
  (mkFire 3 3 1 ∈ Server.fireLocations
     (Server.on twoObservers "a" (Server.toggleFire 3 3 None)).1
   ↔ mkFire 3 3 1 ∉ Server.fireLocations twoObservers).
Proof.
  split; [exact twoObservers_reachable|].
  exact (proj1 (toggleFire_flips_one twoObservers "a" 3 3 None twoObservers_reachable)).
Defined.

(** X4. Toggling the same hazard twice gives back the same set of
    hazards and leaves the occupants alone.  The list itself is given
    back when the hazard was absent; when it was present it returns at
    the end of the list. *)
Theorem toggleFire_twice st socket x y floor :
  Server.reachable st ->
  let f := mkFire x y (Server.floorOr1 floor) in
  let st2 :=
    (Server.on (Server.on st socket (Server.toggleFire x y floor)).1 socket
       (Server.toggleFire x y floor)).1 in
  Server.fireLocations st2 ≡ₚ Server.fireLocations st ∧
  Server.users st2 = Server.users st ∧
  (f ∉ Server.fireLocations st -> Server.fireLocations st2 = Server.fireLocations st) ∧
  (f ∈ Server.fireLocations st ->
   Server.fireLocations st2
   = List.filter (fun g => negb (Server.sameFire x y (Server.floorOr1 floor) g))
       (Server.fireLocations st) ++ [f]).
Proof.
  intros Hreach. destruct (reachable_wf st Hreach) as (_ & _ & _ & Hnd & _).
  cbn zeta. cbn [Server.on fst Server.fireLocations Server.users].
  split; [by apply toggle_twice|]. split; [done|]. split.
  - apply toggle_twice_absent.
  - by apply toggle_twice_present.
Qed.

Lemma toggleFire_twice_witness :
  Server.reachable twoObservers ∧
  Server.fireLocations
    (Server.on (Server.on twoObservers "a" (Server.toggleFire 5 5 (Some 2))).1 "a"
       (Server.toggleFire 5 5 (Some 2))).1
  ≡ₚ Server.fireLocations twoObservers.
Proof.
  split; [exact twoObservers_reachable|].
  exact (proj1 (toggleFire_twice twoObservers "a" 5 5 (Some 2) twoObservers_reachable)).
Defined.

(** X5. An observer that connects and disconnects without reporting
    anything leaves the node in the state it found: it is the only
    recipient of the initial snapshot, which lists the registries as
    they are and does not list the newcomer, and its departure changes
    neither registry. *)
Theorem connect_then_disconnect st socket :
  Server.reachable st -> socket ∉ Server.sockets st ->
  (Server.connection st socket).2
  = [(socket, Server.init socket (Server.values (Server.users st))
                (Server.fireLocations st))] ∧
  (∀ u, u ∈ Server.values (Server.users st) -> Server.id u ≠ socket) ∧
  (Server.on (Server.connection st socket).1 socket Server.disconnect).1 = st.
Proof.
  intros Hreach Hnew. destruct (reachable_wf st Hreach) as (_ & He & _).
  assert (Hkey : socket ∉ map fst (Server.users st)).
  { intros ([k u] & -> & Hu)%list_elem_of_fmap. by destruct (He k u Hu) as (_ & ? & _). }
  split; [done|]. split.
  - intros u ([k u'] & -> & Hu)%list_elem_of_fmap. simpl.
    destruct (He k u' Hu) as (-> & ? & _). by intros ->.
  - destruct st as [us fs ss]. simpl in *. f_equal.
    + by apply delete_absent.
    + rewrite List.filter_app. simpl. rewrite String.eqb_refl. simpl.
      rewrite app_nil_r. apply forallb_filter_id, forallb_forall.
      intros s Hs. apply negb_true_iff, String.eqb_neq.
      intros ->. by apply list_elem_of_In in Hs.
Qed.

Lemma connect_then_disconnect_witness :
  Server.reachable twoObservers ∧ ("c" ∉ Server.sockets twoObservers) ∧
  (Server.on (Server.connection twoObservers "c").1 "c" Server.disconnect).1
  = twoObservers.
Proof.
  assert (Hc : "c" ∉ Server.sockets twoObservers) by (simpl; set_solver).
  split; [exact twoObservers_reachable|]. split; [exact Hc|].
  exact (proj2 (proj2 (connect_then_disconnect twoObservers "c"
                         twoObservers_reachable Hc))).
Defined.

(** * Further properties of the planner *)

(** ** Degenerate goal sets *)

Lemma search_start_on_goal w h getCost targets x y :
  isTarget targets (x, y) = true ->
  reconstruct (search w h getCost targets (searchFuel w h) [mkNode x y 0 None] ∅)
  = [(x, y)].
Proof.
  intros Hg. unfold searchFuel.
  replace (4 * (Z.to_nat w * Z.to_nat h + 1) + 2)%nat
    with (S (S (4 * (Z.to_nat w * Z.to_nat h + 1))))%nat by lia.
  rewrite search_S. simpl sort. cbv iota.
  unfold stale. rewrite lookup_empty.
  change (key (mkNode x y 0 None)) with (x, y). by rewrite Hg.
Qed.

(** X6. An occupant standing on a goal cell gets the single-cell route
    made of its own cell, whether or not that cell is a wall or lies
    on the grid; and a single-cell route is returned in no other case.
    For both planners. *)
Theorem findPath_start_on_goal :
  (∀ st x y role a,
     (x, y) ∈ targetsOf st role a ↔ findPath st x y role a = [(x, y)]) ∧
  (∀ st x y, (x, y) ∈ Legacy.exits st ↔ Legacy.findPath st x y = [(x, y)]).
Proof.
  split.
  - intros st x y role a. split.
    + intros Hg. apply search_start_on_goal. by apply isTarget_elem.
    + intros E.
      destruct (findPath_plan st x y role a) as [[E' _]|((_ & _ & g & Hl & Hg) & _)].
      * congruence.
      * rewrite E in Hl. injection Hl as <-. done.
  - intros st x y. split.
    + intros Hg. apply search_start_on_goal. by apply isTarget_elem.
    + intros E.
      destruct (legacy_findPath_plan st x y) as [[E' _]|((_ & _ & g & Hl & Hg) & _)].
      * congruence.
      * rewrite E in Hl. injection Hl as <-. done.
Qed.

(** X7. With an empty goal set (no exit on the floor, and for a
    firefighter on rescue duty no hazard on the floor either) the
    planner returns the empty route, wherever the occupant stands. *)
Theorem findPath_no_goal st x y role a :
  targetsOf st role a = [] -> findPath st x y role a = [].
Proof.
  intros E.
  destruct (findPath_plan st x y role a) as [[E' _]|((_ & _ & g & _ & Hg) & _)]; [done|].
  rewrite E in Hg. by apply elem_of_nil in Hg.
Qed.

Lemma findPath_no_goal_witness :
  targetsOf exitless firefighter rescue = [] ∧
  findPath exitless 5 5 firefighter rescue = [].
Proof.
  split; [reflexivity|].
  exact (findPath_no_goal exitless 5 5 firefighter rescue eq_refl).
Defined.

(** ** Firefighters on rescue duty *)

(** X8. Fallback.  When no hazard is on the planner's floor, a
    firefighter on rescue duty is given exactly the route of one who
    evacuates: the goals are the exits and every passable cell costs 1
    for both. *)
Theorem rescue_falls_back_to_exits st x y :
  hazardsOn (currentFloor st) (fireLocations st) = [] ->
  findPath st x y firefighter rescue = findPath st x y firefighter evacuate.
Proof.
  intros E. unfold findPath. f_equal. apply search_ext.
  - intros x' y'. rewrite !getCost_hazardsOn, E. by destruct (isWall st x' y').
  - intros c. unfold targetsOf. by rewrite E.
Qed.

Lemma rescue_falls_back_to_exits_witness :
  hazardsOn 1 [mkFire 3 3 2] = [] ∧
  findPath (scenario [mkFire 3 3 2]) 8 8 firefighter rescue
  = findPath (scenario [mkFire 3 3 2]) 8 8 firefighter evacuate.
Proof.
  split; [reflexivity|].
  exact (rescue_falls_back_to_exits (scenario [mkFire 3 3 2]) 8 8 eq_refl).
Defined.

Lemma routeCost_unit getCost (wall : Z -> Z -> bool) p :
  (∀ x y, getCost x y = if wall x y then Infinity else Finite 1) ->
  Forall (fun c => wall c.1 c.2 = false) (tail p) ->
  routeCost getCost p = Finite (Z.of_nat (length (tail p))).
Proof.
  intros Hc. unfold routeCost. induction 1 as [|c l Hw _ IH]; [done|].
  cbn [foldr length]. rewrite IH, Hc, Hw. simpl. f_equal. lia.
Qed.

Lemma getCost_rescue st x y :
  getCost st firefighter rescue x y = if isWall st x y then Infinity else Finite 1.
Proof. unfold getCost. by rewrite andb_false_r. Qed.

(** X9. Hazards do not weigh on a firefighter on rescue duty: the cost
    of its route is the number of its steps, and no walk from its cell
    to a goal cell that avoids the walls has fewer steps, however many
    hazards the route passes. *)
Theorem rescue_route_fewest_steps st x y :
  findPath st x y firefighter rescue ≠ [] ->
  routeCost (getCost st firefighter rescue) (findPath st x y firefighter rescue)
  = Finite (Z.of_nat (length (findPath st x y firefighter rescue)) - 1) ∧
  ∀ p, connects (width st) (height st) (targetsOf st firefighter rescue) (x, y) p ->
       avoidsWalls st p ->
       (length (findPath st x y firefighter rescue) <= length p)%nat.
Proof.
  intros Hne.
  destruct (findPath_plan st x y firefighter rescue) as [[E _]|(Hconn & c & Hc & Hmin)];
    [done|].
  destruct (findPath_shape st x y firefighter rescue) as [_ Hav].
  pose proof (routeCost_unit _ (isWall st) _ (getCost_rescue st) Hav) as Hunit.
  set (route := findPath st x y firefighter rescue) in *.
  assert (length route = S (length (tail route))) as Hlen by (by destruct route).
  split; [rewrite Hunit, Hlen; f_equal; lia|].
  intros p Hp Hpw. specialize (Hmin p Hp).
  rewrite (routeCost_unit _ (isWall st) _ (getCost_rescue st) Hpw) in Hmin.
  rewrite Hc in Hunit. injection Hunit as ->. simpl in Hmin.
  destruct Hp as (_ & Hh & _). destruct p as [|? p]; [done|]. simpl in *. lia.
Qed.

Lemma rescue_route_fewest_steps_witness :
  findPath (scenario [mkFire 3 3 1; mkFire 8 5 1]) 8 8 firefighter rescue ≠ [] ∧
  routeCost (getCost (scenario [mkFire 3 3 1; mkFire 8 5 1]) firefighter rescue)
    (findPath (scenario [mkFire 3 3 1; mkFire 8 5 1]) 8 8 firefighter rescue)
  = Finite 3.
Proof.
  assert (H : findPath (scenario [mkFire 3 3 1; mkFire 8 5 1]) 8 8 firefighter rescue ≠ [])
    by (vm_compute; discriminate).
  split; [exact H|].
  exact (proj1 (rescue_route_fewest_steps (scenario [mkFire 3 3 1; mkFire 8 5 1]) 8 8 H)).
Defined.

(** ** A route never passes a cell twice *)

Lemma unwind_ancestors n : ∀ acc, unwind n acc = rev (ancestors n) ++ key n :: acc.
Proof.
  revert n. fix IH 1. intros [x y c [q|]] acc; [|done].
  cbn [unwind ancestors]. rewrite IH. cbn [rev]. by rewrite <- app_assoc.
Qed.

Section SimpleRoutes.

Variables (w h : Z) (getCost : Z -> Z -> Cost) (targets : list Cell) (start : Cell).

Hypothesis getCost_nonneg : ∀ x y c, getCost x y = Finite c -> 0 <= c.

Local Abbreviation Inv := (Inv w h getCost targets start).

Lemma pushed_fresh openSet visited curr d n :
  Inv openSet visited -> curr ∈ openSet ->
  n ∈ pushed w h getCost (<[key curr := ncost curr]> visited) curr d ->
  (<[key curr := ncost curr]> visited) !! key n = None ∧ nparent n = Some curr.
Proof.
  intros HI Hin. unfold pushed.
  destruct (inBounds w h _); [|by rewrite elem_of_nil].
  destruct (getCost _ _) as [s|] eqn:Hs; [|by rewrite elem_of_nil].
  apply getCost_nonneg in Hs.
  destruct (_ !! (nx curr + d.1, ny curr + d.2)) as [c|] eqn:Hv.
  - assert (c <= ncost curr) as Hc.
    { apply lookup_insert_Some in Hv as [[_ <-]|[_ Hv]]; [lia|].
      by eapply (inv_mono _ _ _ _ _ _ _ HI). }
    destruct (Z.ltb_spec (ncost curr + s) c); [lia|]. by rewrite elem_of_nil.
  - intros ->%list_elem_of_singleton. done.
Qed.

Lemma chainsFresh_skip openSet visited curr rest :
  chainsFresh openSet visited -> sort openSet = curr :: rest ->
  chainsFresh rest visited.
Proof.
  intros HJ Hs n Hn. apply HJ. by apply (sort_head _ _ _ Hs).
Qed.

Lemma chainsFresh_expand openSet visited curr rest :
  Inv openSet visited -> chainsFresh openSet visited ->
  sort openSet = curr :: rest ->
  chainsFresh
    (foldl (relax w h getCost (<[key curr := ncost curr]> visited) curr) rest dirs)
    (<[key curr := ncost curr]> visited).
Proof.
  intros HI HJ Hs.
  destruct (sort_head _ _ _ Hs) as (Hin & Hrest & _).
  assert (Hmono : ∀ c, is_Some (visited !! c) ->
            is_Some (<[key curr := ncost curr]> visited !! c)).
  { intros c Hc. rewrite lookup_insert_is_Some. destruct (decide (key curr = c)); auto. }
  rewrite foldl_relax. intros n [Hn|Hn]%elem_of_app.
  - destruct (HJ n (Hrest n Hn)) as [Hnd Hanc]. split; [done|]. auto.
  - apply list_elem_of_In, in_flat_map in Hn as (d & _ & Hn). apply list_elem_of_In in Hn.
    destruct (pushed_fresh _ _ _ _ _ HI Hin Hn) as [Hfresh Hpar].
    destruct n as [x y c p]. simpl in Hpar. subst p. cbn [ancestors].
    destruct (HJ curr Hin) as [Hnd Hanc].
    assert (Hall : ∀ c', c' ∈ key curr :: ancestors curr ->
              is_Some (<[key curr := ncost curr]> visited !! c')).
    { intros c' [->|Hc']%elem_of_cons; [by rewrite lookup_insert_eq|]. auto. }
    split; [|done].
    apply NoDup_cons. split; [|done].
    intros Hk. apply Hall in Hk as [? Hk]. congruence.
Qed.

Lemma search_simple fuel : ∀ openSet visited,
  Inv openSet visited -> chainsFresh openSet visited ->
  match search w h getCost targets fuel openSet visited with
  | Found n => NoDup (key n :: ancestors n)
  | _ => True
  end.
Proof.
  induction fuel as [|fuel IH]; intros openSet visited HI HJ; [done|].
  rewrite search_S.
  destruct (sort openSet) as [|curr rest] eqn:Hs; [done|].
  destruct (sort_head _ _ _ Hs) as (Hin & _ & _).
  destruct (stale visited curr) eqn:Hst.
  - apply IH; [eapply Inv_skip; eauto using stale_true | by eapply chainsFresh_skip].
  - pose proof (stale_false _ _ _ _ _ _ _ _ HI Hin Hst) as Hcurr.
    destruct (isTarget targets (key curr)) eqn:Hg; [by apply HJ|].
    apply IH; [by eapply Inv_expand | by eapply chainsFresh_expand].
Qed.

Lemma plan_simple :
  NoDup (reconstruct (search w h getCost targets (searchFuel w h)
                        [mkNode start.1 start.2 0 None] ∅)).
Proof.
  pose proof (search_simple (searchFuel w h) [mkNode start.1 start.2 0 None] ∅
                (Inv_initial w h getCost targets start)) as H.
  destruct (search _ _ _ _ _ _ _) as [n| |]; simpl; try apply NoDup_nil_2.
  rewrite unwind_ancestors.
  assert (NoDup (key n :: ancestors n)) as Hnd.
  { apply H. intros m ->%list_elem_of_singleton. simpl. split; [|by intros c Hc%elem_of_nil].
    apply NoDup_singleton. }
  assert (rev (ancestors n) ++ [key n] ≡ₚ key n :: ancestors n) as ->; [|done].
  rewrite Permutation_app_comm. simpl. constructor.
  symmetry. apply Permutation_rev.
Qed.

End SimpleRoutes.

(** X10. A route never passes a cell twice.  For both planners. *)
Theorem findPath_simple :
  (∀ st x y role a, NoDup (findPath st x y role a)) ∧
  (∀ st x y, NoDup (Legacy.findPath st x y)).
Proof.
  split.
  - intros st x y role a.
    exact (plan_simple (width st) (height st) (getCost st role a) (targetsOf st role a)
             (x, y) (getCost_nonneg st role a)).
  - intros st x y.
    exact (plan_simple (Legacy.width st) (Legacy.height st) (Legacy.getCost st)
             (Legacy.exits st) (x, y) (legacy_getCost_nonneg st)).
Qed.

(** ** How much a hazard weighs *)

Lemma hazardCost_le s : hazardCost s <= 45.
Proof.
  unfold hazardCost, ceil_sqrt. pose proof (Z.sqrt_nonneg (100 * s)).
  destruct (_ =? _); lia.
Qed.

Lemma square_far d : 4 <= Z.abs d -> 16 <= d ^ 2.
Proof. intros Hd. rewrite Z.pow_2_r. destruct (Z.abs_spec d) as [[? E]|[? E]]; nia. Qed.

Lemma square_nonneg d : 0 <= d ^ 2.
Proof. rewrite Z.pow_2_r. nia. Qed.

Lemma addFire_bounds floor x y cost f :
  cost <= addFire floor x y cost f <= cost + 45 ∧
  (ffloor f ≠ floor ∨ 4 <= Z.abs (x - fx f) ∨ 4 <= Z.abs (y - fy f) ->
   addFire floor x y cost f = cost) ∧
  (ffloor f = floor -> fx f = x -> fy f = y -> addFire floor x y cost f = cost + 45).
Proof.
  pose proof (addFire_le floor x y cost f) as Hle.
  unfold addFire in *.
  destruct (Z.eqb_spec (ffloor f) floor) as [Ef|Ef]; simpl in *.
  - destruct (Z.ltb_spec ((x - fx f) ^ 2 + (y - fy f) ^ 2) 16) as [Hs|Hs].
    + pose proof (hazardCost_le ((x - fx f) ^ 2 + (y - fy f) ^ 2)).
      split; [lia|]. split.
      * pose proof (square_nonneg (x - fx f)). pose proof (square_nonneg (y - fy f)).
        intros [Hne|[Hd%square_far|Hd%square_far]]; [congruence|lia|lia].
      * intros _ -> ->. by rewrite !Z.sub_diag.
    + split; [lia|]. split; [done|].
      intros _ Hx Hy. rewrite Hx, Hy, !Z.sub_diag in Hs. simpl in Hs. lia.
  - split; [lia|]. split; [done|]. done.
Qed.

Lemma foldl_addFire_bounds floor x y fires : ∀ cost,
  foldl (addFire floor x y) cost fires
  <= cost + 45 * Z.of_nat (length (hazardsOn floor fires)).
Proof.
  induction fires as [|f fires IH]; intros cost; [simpl; lia|].
  cbn [foldl]. specialize (IH (addFire floor x y cost f)).
  destruct (addFire_bounds floor x y cost f) as (Hb & Hfar & _).
  unfold hazardsOn in *. rewrite List_filter_cons.
  destruct (Z.eqb_spec (ffloor f) floor) as [Ef|Ef].
  - cbn [length]. lia.
  - rewrite Hfar in IH |- * by auto. done.
Qed.

Lemma foldl_addFire_far floor x y fires : ∀ cost,
  (∀ f, f ∈ hazardsOn floor fires ->
        4 <= Z.abs (x - fx f) ∨ 4 <= Z.abs (y - fy f)) ->
  foldl (addFire floor x y) cost fires = cost.
Proof.
  induction fires as [|f fires IH]; intros cost Hfar; [done|].
  cbn [foldl]. unfold hazardsOn in *. rewrite List_filter_cons in Hfar.
  destruct (addFire_bounds floor x y cost f) as (_ & Hf & _).
  destruct (Z.eqb_spec (ffloor f) floor) as [Ef|Ef].
  - rewrite Hf by (right; apply Hfar; by left). apply IH.
    intros g Hg. apply Hfar. by right.
  - rewrite Hf by auto. by apply IH.
Qed.

Lemma foldl_addFire_at floor x y fires : ∀ cost f,
  f ∈ hazardsOn floor fires -> fx f = x -> fy f = y ->
  cost + 45 <= foldl (addFire floor x y) cost fires.
Proof.
  induction fires as [|g fires IH]; intros cost f Hf Hx Hy.
  - by apply elem_of_nil in Hf.
  - cbn [foldl]. unfold hazardsOn in *. rewrite List_filter_cons in Hf.
    pose proof (addFire_le floor x y cost g).
    destruct (Z.eqb_spec (ffloor g) floor) as [Eg|Eg].
    + apply elem_of_cons in Hf as [->|Hf].
      * destruct (addFire_bounds floor x y cost g) as (_ & _ & Hat).
        rewrite Hat by done. apply foldl_addFire_le.
      * specialize (IH (addFire floor x y cost g) f Hf Hx Hy). lia.
    + specialize (IH (addFire floor x y cost g) f Hf Hx Hy). lia.
Qed.

(** X11. What hazards add to the cost of a passable cell.  The cost is
    at least 1 and at most 1 plus 45 for each hazard of the planner's
    floor; it is exactly 1 when every such hazard is 4 or more cells
    away along a row or a column; and for an occupant that avoids
    hazards the cell of a hazard itself costs at least 46. *)
Theorem getCost_hazard_bounds st role a x y :
  isWall st x y = false ->
  ∃ c, getCost st role a x y = Finite c ∧
       1 <= c <= 1 + 45 * Z.of_nat (length (hazardsOn (currentFloor st) (fireLocations st))) ∧
       ((∀ f, f ∈ hazardsOn (currentFloor st) (fireLocations st) ->
              4 <= Z.abs (x - fx f) ∨ 4 <= Z.abs (y - fy f)) -> c = 1) ∧
       (shouldAvoidFire role a = true ->
        (∃ f, f ∈ hazardsOn (currentFloor st) (fireLocations st) ∧ fx f = x ∧ fy f = y) ->
        46 <= c).
Proof.
  intros Hw. rewrite getCost_hazardsOn, Hw. eexists. split; [done|].
  set (hs := hazardsOn (currentFloor st) (fireLocations st)).
  assert (hazardsOn (currentFloor st) hs = hs) as Hhs.
  { unfold hs, hazardsOn. apply forallb_filter_id, forallb_forall.
    by intros f [_ Hf]%filter_In. }
  pose proof (foldl_addFire_le (currentFloor st) x y hs 1) as Hlo.
  pose proof (foldl_addFire_bounds (currentFloor st) x y hs 1) as Hhi.
  rewrite Hhs in Hhi.
  destruct (shouldAvoidFire role a).
  - split; [lia|]. split.
    + intros Hfar. apply foldl_addFire_far. by rewrite Hhs.
    + intros _ (f & Hf & Hx & Hy).
      pose proof (foldl_addFire_at (currentFloor st) x y hs 1 f) as Hat.
      rewrite Hhs in Hat. specialize (Hat Hf Hx Hy). lia.
  - split; [lia|]. split; [done|]. done.
Qed.

Lemma getCost_hazard_bounds_witness :
  isWall (scenario [mkFire 5 3 1]) 5 3 = false ∧
  ∃ c, getCost (scenario [mkFire 5 3 1]) civilian evacuate 5 3 = Finite c ∧ 1 <= c <= 46.
Proof.
  split; [reflexivity|].
  destruct (getCost_hazard_bounds (scenario [mkFire 5 3 1]) civilian evacuate 5 3 eq_refl)
    as (c & Hc & Hb & _).
  exists c. split; [exact Hc | exact Hb].
Defined.

(** * Further properties of the observer *)

(** ** Routes are derived data *)

(** X12. Routes are always derived, never an input: recomputation
    gives every occupant the same route whatever routes were stored
    before, so recomputing twice is the same as recomputing once. *)
Theorem recalculate_forgets_routes st :
  (∀ old : User -> list Cell,
     recalculate (setUsers st (map (fun u => setPath u (old u)) (users st)))
     = recalculate st) ∧
  recalculate (recalculate st) = recalculate st.
Proof.
  assert (H : ∀ old : User -> list Cell,
            recalculate (setUsers st (map (fun u => setPath u (old u)) (users st)))
            = recalculate st).
  { intros old. unfold recalculate. simpl. unfold setUsers. simpl. f_equal.
    rewrite map_map. apply map_ext. intros u. reflexivity. }
  split; [exact H|]. apply (H (fun u => findPath st (ux u) (uy u) (roleOf u) (actionOf u))).
Qed.

(** ** Snapshots replace the view *)

(** X13. A snapshot replaces the observer's view of occupants and
    hazards entirely: after two snapshots the occupants, their routes
    and the hazards are those the second snapshot alone would give, and
    the floor geometry is still the one held before the first. *)
Theorem snapshot_supersedes st m1 m2 :
  users (receive (receive st m1) m2) = users (receive st m2) ∧
  fireLocations (receive (receive st m1) m2) = fireLocations (receive st m2) ∧
  currentFloor (receive (receive st m1) m2) = currentFloor st ∧
  width (receive (receive st m1) m2) = width st ∧
  height (receive (receive st m1) m2) = height st ∧
  walls (receive (receive st m1) m2) = walls st ∧
  exits (receive (receive st m1) m2) = exits st.
Proof. destruct m1, m2; repeat split; reflexivity. Qed.

(** ** Observers agree *)

Lemma findPath_sameInputs st st' x y role a :
  sameInputs st st' -> findPath st x y role a = findPath st' x y role a.
Proof.
  intros HS. unfold findPath.
  destruct HS as (Ew & Eh & HS') eqn:E. rewrite <- Ew, <- Eh. f_equal.
  apply search_ext.
  - intros. by apply sameInputs_getCost.
  - intros. by apply sameInputs_targets.
Qed.

(** X14. Observers converge.  Two observers that show the same floor
    (same bounds and floor index, same wall cells and exit cells in
    whatever order) and receive the same snapshot hold the same
    occupants with the same routes, whatever they held before and
    whoever they are. *)
Theorem observers_converge st1 st2 m :
  width st1 = width st2 -> height st1 = height st2 ->
  currentFloor st1 = currentFloor st2 ->
  (∀ c, c ∈ walls st1 ↔ c ∈ walls st2) ->
  (∀ c, c ∈ exits st1 ↔ c ∈ exits st2) ->
  users (receive st1 m) = users (receive st2 m) ∧
  fireLocations (receive st1 m) = fireLocations (receive st2 m).
Proof.
  intros Ew Eh Ef Ewalls Eexits.
  assert (HS : sameInputs (adopt st1 m) (adopt st2 m)).
  { destruct m; repeat split; simpl; try done; try apply Ewalls; try apply Eexits;
      by rewrite Ef. }
  split; [|by destruct m].
  unfold receive, recalculate. simpl.
  assert (users (adopt st1 m) = users (adopt st2 m)) as -> by (by destruct m).
  apply map_ext. intros u. f_equal. by apply findPath_sameInputs.
Qed.

Lemma observers_converge_witness :
  (∀ c, c ∈ walls lectureHall ↔ c ∈ walls staffedHall) ∧
  users (receive lectureHall floor2Snapshot) = users (receive staffedHall floor2Snapshot).
Proof.
  assert (Hw : ∀ c, c ∈ walls lectureHall ↔ c ∈ walls staffedHall) by (intros c; reflexivity).
  split; [exact Hw|].
  exact (proj1 (observers_converge lectureHall staffedHall floor2Snapshot
                  eq_refl eq_refl eq_refl Hw (fun c => conj (fun H => H) (fun H => H)))).
Defined.

(** * Generated floors *)

Lemma Qfloor_plus_Z (q : Q) (k : Z) : Qfloor (q + inject_Z k) = (Qfloor q + k)%Z.
Proof.
  destruct q as [n d]. unfold Qfloor, Qplus, inject_Z. simpl.
  rewrite Z.mul_1_r, Pos.mul_1_r. apply Z.div_add. lia.
Qed.

Lemma elem_of_flat_map {A B} (f : A -> list B) (l : list A) (b : B) :
  b ∈ flat_map f l ↔ ∃ a, a ∈ l ∧ b ∈ f a.
Proof.
  rewrite list_elem_of_In, in_flat_map.
  split; intros (a & Ha & Hb); exists a; by rewrite ?list_elem_of_In in *.
Qed.

Lemma addToWalls_elem x y w h walls c :
  c ∈ addToWalls x y w h walls ↔
  c ∈ walls ∨
  ((Qfloor x <= c.1 < Qfloor x + Qceiling w)%Z ∧
   (Qfloor y <= c.2 < Qfloor y + Qceiling h)%Z).
Proof.
  unfold addToWalls, upTo. rewrite elem_of_app, elem_of_flat_map.
  split; (intros [H|H]; [by left|right]).
  - destruct H as (i & Hi & Hc). apply list_elem_of_fmap in Hc as (j & -> & Hj).
    apply elem_of_seqZ in Hi, Hj. cbn [fst snd]. rewrite !Qfloor_plus_Z. lia.
  - destruct c as [cx cy]. cbn [fst snd] in H. exists (cx - Qfloor x)%Z. split.
    + apply elem_of_seqZ. lia.
    + apply list_elem_of_fmap. exists (cy - Qfloor y)%Z. split.
      * rewrite !Qfloor_plus_Z. f_equal; lia.
      * apply elem_of_seqZ. lia.
Qed.

(** X15. [addToWalls(x, y, w, h)] keeps every wall already there and
    adds exactly the cells of the rectangle whose corner is the cell
    containing [(x, y)] and whose sides are [w] and [h] rounded up;
    with a side that is zero or negative it adds nothing.  The
    arguments may be fractional. *)
Theorem addToWalls_rectangle st x y w h cx cy :
  isWall (mkSystem (currentFloor st) (width st) (height st) (myId st) (users st)
            (fireLocations st) (exits st) (addToWalls x y w h (walls st)) (role st))
    cx cy = true ↔
  isWall st cx cy = true ∨
  ((Qfloor x <= cx < Qfloor x + Qceiling w)%Z ∧
   (Qfloor y <= cy < Qfloor y + Qceiling h)%Z).
Proof. rewrite !isWall_elem. simpl. apply addToWalls_elem. Qed.

Lemma bounds_elem w h x y :
  (x, y) ∈ bounds w h ↔
  ((0 <= x < w)%Z ∧ (y = 0 ∨ y = h - 1)%Z) ∨ ((0 <= y < h)%Z ∧ (x = 0 ∨ x = w - 1)%Z).
Proof.
  unfold bounds. rewrite elem_of_app, !elem_of_flat_map. split.
  - intros [(k & Hk & Hc)|(k & Hk & Hc)]; apply elem_of_seqZ in Hk;
      rewrite !elem_of_cons, elem_of_nil in Hc;
      destruct Hc as [Hc|[Hc|[]]]; inversion Hc; subst; lia.
  - intros [(Hx & Hy)|(Hy & Hx)]; [left; exists x|right; exists y];
      (split; [apply elem_of_seqZ; lia|]);
      rewrite !elem_of_cons; destruct Hy, Hx; subst; auto.
Qed.

Lemma addToWalls_keeps x y w h walls c : c ∈ walls -> c ∈ addToWalls x y w h walls.
Proof. intros H. apply addToWalls_elem. by left. Qed.

Lemma foldl_keeps {A} (f : list Cell -> A -> list Cell) (l : list A) walls c :
  (∀ ws a, c ∈ ws -> c ∈ f ws a) -> c ∈ walls -> c ∈ foldl f walls l.
Proof.
  intros Hf. revert walls. induction l as [|a l IH]; intros walls H; simpl; [done|].
  apply IH. by apply Hf.
Qed.

Lemma floorPlan_keeps_bounds f w h c : c ∈ bounds w h -> c ∈ (floorPlan f w h).1.
Proof.
  intros H. unfold floorPlan.
  destruct (f =? 1)%Z; [|destruct (f =? 2)%Z]; simpl.
  - apply foldl_keeps; [|done]. intros. by do 2 apply addToWalls_keeps.
  - do 2 apply addToWalls_keeps. apply foldl_keeps.
    + intros. by do 2 apply addToWalls_keeps.
    + by do 2 apply addToWalls_keeps.
  - by do 8 apply addToWalls_keeps.
Qed.

Lemma legacyFloorPlan_keeps_bounds f w h c :
  c ∈ bounds w h -> c ∈ (legacyFloorPlan f w h).1.
Proof.
  intros H. unfold legacyFloorPlan.
  destruct (f =? 1)%Z; [|destruct (f =? 2)%Z]; simpl.
  - by do 6 apply addToWalls_keeps.
  - exact (floorPlan_keeps_bounds 2 w h c H).
  - exact (floorPlan_keeps_bounds 3 w h c H).
Qed.

Lemma border_elem w h x y :
  inBounds w h (x, y) = true ->
  (x = 0 ∨ x = w - 1 ∨ y = 0 ∨ y = h - 1)%Z -> (x, y) ∈ bounds w h.
Proof.
  intros Hb%inBounds_spec Hxy. simpl in Hb. apply bounds_elem. lia.
Qed.

(** X16. Every generated floor is walled in: on each floor index, for
    each grid size, every cell of the outermost rows and columns of the
    grid is a wall once the floor is loaded, in both versions of the
    observer's floor plans. *)
Theorem loadFloor_border_walled st floorNum x y :
  inBounds (width st) (height st) (x, y) = true ->
  (x = 0 ∨ x = width st - 1 ∨ y = 0 ∨ y = height st - 1)%Z ->
  isWall (loadFloor st floorNum) x y = true ∧
  (x, y) ∈ (legacyFloorPlan floorNum (width st) (height st)).1.
Proof.
  intros Hb Hxy. pose proof (border_elem _ _ _ _ Hb Hxy) as H. split.
  - apply isWall_elem. unfold loadFloor. simpl. by apply floorPlan_keeps_bounds.
  - by apply legacyFloorPlan_keeps_bounds.
Qed.

Lemma loadFloor_border_walled_witness :
  isWall (loadFloor lectureHall 3) 19 7 = true ∧
  (19, 7) ∈ (legacyFloorPlan 3 (width lectureHall) (height lectureHall)).1.
Proof.
  apply (loadFloor_border_walled lectureHall 3 19 7); [reflexivity|].
  right; left. reflexivity.
Defined.

(** ** Routes on a walled-in floor *)

Lemma getCost_wall_elem st role a x y :
  (x, y) ∈ walls st -> getCost st role a x y = Infinity.
Proof. intros H. apply getCost_wall. by apply isWall_elem. Qed.

(** X17. On a floor whose outermost rows and columns are walls (every
    generated floor), an occupant reported outside the grid cannot move:
    the planner answers with the one-cell route when the occupant's
    cell is itself a goal and with no route otherwise.  For any
    occupant, every cell of a route after the first lies strictly
    inside the border. *)
Theorem walled_floor_routes st x y role a :
  (∀ c, c ∈ bounds (width st) (height st) -> c ∈ walls st) ->
  (inBounds (width st) (height st) (x, y) = false ->
   findPath st x y role a
   = if isTarget (targetsOf st role a) (x, y) then [(x, y)] else []) ∧
  Forall (fun c => (1 <= c.1 <= width st - 2)%Z ∧ (1 <= c.2 <= height st - 2)%Z)
    (tail (findPath st x y role a)).
Proof.
  intros Hwalled. split.
  - intros Hout. unfold findPath. apply search_isolated.
    intros d Hd.
    destruct (inBounds (width st) (height st) (x + d.1, y + d.2)%Z) eqn:Hin; [right|by left].
    apply getCost_wall_elem, Hwalled, border_elem; [done|].
    apply inBounds_spec in Hin. simpl in Hin.
    assert (Hout' : ¬ ((0 <= x < width st)%Z ∧ (0 <= y < height st)%Z)).
    { intros H. assert (inBounds (width st) (height st) (x, y) = true)
        by (by apply inBounds_spec). congruence. }
    unfold dirs in Hd. rewrite !elem_of_cons, elem_of_nil in Hd.
    destruct Hd as [->|[->|[->|[->|[]]]]]; simpl in *; lia.
  - destruct (findPath_shape st x y role a) as [Hwalk Havoid].
    unfold avoidsWalls in Havoid.
    assert (Hin : Forall (fun c => inBounds (width st) (height st) c = true)
                    (tail (findPath st x y role a))).
    { clear Havoid. induction Hwalk as [|c|c1 c2 p Hadj Hb Hw IH]; simpl; auto. }
    rewrite Forall_forall in *. intros [cx cy] Hc.
    specialize (Hin _ Hc). specialize (Havoid _ Hc). simpl in *.
    apply inBounds_spec in Hin as Hin'. simpl in Hin'.
    destruct (decide (cx = 0 ∨ cx = width st - 1 ∨ cy = 0 ∨ cy = height st - 1)%Z) as [Hb|Hb];
      [|lia].
    exfalso. pose proof (border_elem _ _ _ _ Hin Hb) as Hbd.
    apply Hwalled, isWall_elem in Hbd. congruence.
Qed.

Lemma walled_floor_routes_witness :
  findPath (loadFloor lectureHall 2) (-1) 11 civilian evacuate = [] ∧
  Forall (fun c => (1 <= c.1 <= 18)%Z ∧ (1 <= c.2 <= 18)%Z)
    (tail (findPath (loadFloor lectureHall 2) 5 11 civilian evacuate)).
Proof.
  assert (Hwalled : ∀ c, c ∈ bounds (width (loadFloor lectureHall 2))
                               (height (loadFloor lectureHall 2)) ->
                         c ∈ walls (loadFloor lectureHall 2)).
  { intros c Hc. exact (floorPlan_keeps_bounds 2 20 20 c Hc). }
  split.
  - exact (proj1 (walled_floor_routes (loadFloor lectureHall 2) (-1) 11 civilian evacuate
                    Hwalled) eq_refl).
  - exact (proj2 (walled_floor_routes (loadFloor lectureHall 2) 5 11 civilian evacuate
                    Hwalled)).
Defined.

(** ** Exits of the generated floors *)

Lemma stride_elem from to step a :
  a ∈ stride from to step ↔
  ∃ k, (0 <= k < (to - from + step - 1) / step)%Z ∧ a = (from + step * k)%Z.
Proof.
  unfold stride. rewrite list_elem_of_fmap. split.
  - intros (k & -> & Hk%elem_of_seqZ). exists k. split; [lia|done].
  - intros (k & Hk & ->). exists k. split; [done|]. apply elem_of_seqZ. lia.
Qed.

Lemma foldl_rows {A} (P : Cell -> Prop) (f : list Cell -> A -> list Cell) l walls c :
  (∀ ws a, a ∈ l -> c ∈ f ws a -> c ∈ ws ∨ P c) ->
  c ∈ foldl f walls l -> c ∈ walls ∨ P c.
Proof.
  revert walls. induction l as [|a l IH]; intros walls Hf H; simpl in H; [by left|].
  apply IH in H.
  - destruct H as [H|H]; [|by right]. eapply Hf; [|exact H]. by left.
  - intros ws b Hb. apply Hf. by right.
Qed.

Lemma addToWalls_rows (y0 hh : Z) x w walls c :
  c ∈ addToWalls x (inject_Z y0) w (inject_Z hh) walls ->
  c ∈ walls ∨ (y0 <= c.2 < y0 + hh)%Z.
Proof.
  intros [H|[_ H]]%addToWalls_elem; [by left|right].
  by rewrite Qfloor_Z, Qceiling_Z in H.
Qed.

Lemma addToWalls_below (y0 : Z) x w h walls c :
  c ∈ addToWalls x (inject_Z y0) w h walls -> c ∈ walls ∨ (y0 <= c.2)%Z.
Proof.
  intros [H|[_ H]]%addToWalls_elem; [by left|right].
  rewrite Qfloor_Z in H. lia.
Qed.

(** The lecture hall: besides the border, walls only stand in the desk
    rows. *)
Lemma floor1_walls w h c :
  c ∈ (floorPlan 1 w h).1 -> c ∈ bounds w h ∨ (6 <= c.2 <= h - 5)%Z.
Proof.
  unfold floorPlan. cbn [Z.eqb Pos.eqb fst].
  apply (foldl_rows (fun c => (6 <= c.2 <= h - 5)%Z)). intros ws y Hy H.
  apply stride_elem in Hy as (k & Hk & ->).
  change (2 + 3)%Z with 5%Z in *. cbn beta.
  assert (Hk' : (5 * k <= h - 12)%Z) by (Z.div_mod_to_equations; lia).
  apply (addToWalls_rows _ 2) in H as [H|H]; [|right; lia].
  apply (addToWalls_rows _ 2) in H as [H|H]; [by left|right; lia].
Qed.

(** The offices: besides the border, no wall stands in rows 10 to 12. *)
Lemma floor2_walls w h c :
  c ∈ (floorPlan 2 w h).1 -> c ∈ bounds w h ∨ (c.2 <= 9 ∨ 13 <= c.2)%Z.
Proof.
  unfold floorPlan. cbn [Z.eqb Pos.eqb fst].
  intros H.
  apply (addToWalls_below 15) in H as [H|H]; [|right; lia].
  apply (addToWalls_below 15) in H as [H|H]; [|right; lia].
  apply (foldl_rows (fun c => (c.2 <= 9 ∨ 13 <= c.2)%Z)) in H.
  - destruct H as [H|H]; [|by right].
    apply (addToWalls_rows 13 1) in H as [H|H]; [|right; lia].
    apply (addToWalls_rows 9 1) in H as [H|H]; [by left|right; lia].
  - clear H. intros ws i _ H.
    apply (addToWalls_rows 8 1) in H as [H|H]; [|right; lia].
    apply (addToWalls_rows 2 6) in H as [H|H]; [by left|right; lia].
Qed.

Lemma Qfloor_half (w : Z) : Qfloor (inject_Z w / 2) = (w / 2)%Z.
Proof. symmetry. apply (Zdiv_Qdiv w 2). Qed.

(** X18. The exits of the lecture hall (floor 1) and of the offices
    (floor 2) can be used: on a grid at least 3 cells wide and at least
    3 cells high (13 for the offices, whose exits are in row 11), every
    exit of the loaded floor is a cell of the grid and is not a wall. *)
Theorem generated_exits_passable st floorNum e :
  (3 <= width st)%Z ->
  (floorNum = 1 ∧ 3 <= height st)%Z ∨ (floorNum = 2 ∧ 13 <= height st)%Z ->
  e ∈ exits (loadFloor st floorNum) ->
  inBounds (width st) (height st) e = true ∧
  isWall (loadFloor st floorNum) e.1 e.2 = false.
Proof.
  intros Hw Hf He.
  assert (Hhalf : (1 <= width st / 2 <= width st - 2)%Z) by (Z.div_mod_to_equations; lia).
  destruct Hf as [[-> Hh]|[-> Hh]].
  - assert (He' : e = (width st / 2, 1)%Z ∨ e = (width st / 2, height st - 2)%Z
                  ∨ e = (width st - 2, height st - 2)%Z).
    { unfold loadFloor in He. cbn [exits recalculate setUsers floorPlan Z.eqb Pos.eqb snd] in He.
      rewrite Qfloor_half in He. rewrite !elem_of_cons, elem_of_nil in He. tauto. }
    split.
    + apply inBounds_spec. destruct He' as [-> | [-> | ->]]; simpl; lia.
    + apply not_true_is_false. intros Hwall%isWall_elem.
      apply (floor1_walls (width st) (height st)) in Hwall as [Hwall|Hwall].
      * destruct e as [ex ey]. apply bounds_elem in Hwall.
        destruct He' as [E|[E|E]]; inversion E; subst; cbn [fst snd] in Hwall; lia.
      * destruct He' as [-> | [-> | ->]]; simpl in Hwall; lia.
  - assert (He' : e = (1, 11)%Z ∨ e = (width st - 2, 11)%Z).
    { unfold loadFloor in He. cbn [exits recalculate setUsers floorPlan Z.eqb Pos.eqb snd] in He.
      rewrite !elem_of_cons, elem_of_nil in He. tauto. }
    split.
    + apply inBounds_spec. destruct He' as [-> | ->]; simpl; lia.
    + apply not_true_is_false. intros Hwall%isWall_elem.
      apply (floor2_walls (width st) (height st)) in Hwall as [Hwall|Hwall].
      * destruct e as [ex ey]. apply bounds_elem in Hwall.
        destruct He' as [E|E]; inversion E; subst; cbn [fst snd] in Hwall; lia.
      * destruct He' as [-> | ->]; simpl in Hwall; lia.
Qed.

Lemma generated_exits_passable_witness :
  inBounds 20 20 (18, 11) = true ∧ isWall (loadFloor lectureHall 2) 18 11 = false.
Proof.
  apply (generated_exits_passable lectureHall 2 (18, 11)%Z).
  - simpl. lia.
  - right. simpl. lia.
  - vm_compute. apply list_elem_of_In. right. left. reflexivity.
Defined.

(** * Goals that are walls *)

Lemma last_in_tail {A} (p : list A) (s e : A) :
  head p = Some s -> last p = Some e -> s ≠ e -> e ∈ tail p.
Proof.
  destruct p as [|a t]; [done|]. simpl. intros [= ->] Hl Hne.
  apply last_cons_Some_ne in Hl; [|done]. by apply last_Some_elem_of.
Qed.

Lemma legacy_isWall_elem st x y :
  Legacy.isWall st x y = true ↔ (x, y) ∈ Legacy.walls st.
Proof. apply (isTarget_elem (Legacy.walls st) (x, y)). Qed.

Lemma legacy_findPath_shape st x y :
  avoidsWallsLegacy st (Legacy.findPath st x y).
Proof.
  destruct (legacy_findPath_plan st x y) as [[-> _]|(_ & c & Hc & _)].
  - constructor.
  - apply routeCost_finite in Hc.
    eapply Forall_impl; [exact Hc|]. simpl. intros v (s & Hs).
    by eapply legacy_getCost_Finite_inv.
Qed.

Lemma walled_goal st x y role a e :
  isWall st e.1 e.2 = true -> (x, y) ≠ e ->
  last (findPath st x y role a) ≠ Some e.
Proof.
  intros Hwall Hne Hlast.
  assert (Hnil : findPath st x y role a ≠ []) by (intros E; by rewrite E in Hlast).
  destruct (findPath_ends st x y role a Hnil) as [Hhead _].
  pose proof (last_in_tail _ _ _ Hhead Hlast Hne) as Hin.
  destruct (findPath_shape st x y role a) as [_ Havoid].
  unfold avoidsWalls in Havoid. rewrite Forall_forall in Havoid.
  specialize (Havoid _ Hin). congruence.
Qed.

Lemma legacy_walled_goal st x y e :
  Legacy.isWall st e.1 e.2 = true -> (x, y) ≠ e ->
  last (Legacy.findPath st x y) ≠ Some e.
Proof.
  intros Hwall Hne Hlast.
  assert (Hhead : head (Legacy.findPath st x y) = Some (x, y)).
  { destruct (legacy_findPath_plan st x y) as [[E _]|((_ & Hh & _) & _)]; [|done].
    by rewrite E in Hlast. }
  pose proof (last_in_tail _ _ _ Hhead Hlast Hne) as Hin.
  pose proof (legacy_findPath_shape st x y) as Havoid.
  unfold avoidsWallsLegacy in Havoid. rewrite Forall_forall in Havoid.
  specialize (Havoid _ Hin). congruence.
Qed.

(** X19. A goal inside a wall is never reached.  If an exit (or, for
    a firefighter on rescue duty, a hazard) lies on a wall cell, no
    route of an occupant standing elsewhere ends on it, in either
    planner: such a goal only counts for an occupant who is already
    there. *)
Theorem walled_goal_unreachable :
  (∀ st x y role a e,
     isWall st e.1 e.2 = true -> (x, y) ≠ e ->
     last (findPath st x y role a) ≠ Some e) ∧
  (∀ st x y e,
     Legacy.isWall st e.1 e.2 = true -> (x, y) ≠ e ->
     last (Legacy.findPath st x y) ≠ Some e).
Proof. split; [apply walled_goal | apply legacy_walled_goal]. Qed.

Lemma walled_goal_unreachable_witness :
  last (findPath (loadFloor lectureHall 3) 5 5 civilian evacuate) ≠ Some (10, 1)%Z ∧
  last (Legacy.findPath legacyLab 5 5) ≠ Some (10, 0)%Z.
Proof.
  split.
  - apply (proj1 walled_goal_unreachable (loadFloor lectureHall 3) 5 5 civilian evacuate
             (10, 1)%Z); [reflexivity | discriminate].
  - apply (proj2 walled_goal_unreachable legacyLab 5 5 (10, 0)%Z);
      [reflexivity | discriminate].
Defined.

(** ** The exits of the labs *)

Lemma Qceiling_minus_Z (m k : Z) : Qceiling (inject_Z m - inject_Z k) = (m - k)%Z.
Proof.
  assert (inject_Z m - inject_Z k == inject_Z (m - k)) as ->.
  { unfold Qeq, Qminus, Qplus, Qopp, inject_Z. simpl. lia. }
  apply Qceiling_Z.
Qed.

Lemma Qfloor_minus_Z (m k : Z) : Qfloor (inject_Z m - inject_Z k) = (m - k)%Z.
Proof.
  assert (inject_Z m - inject_Z k == inject_Z (m - k)) as ->.
  { unfold Qeq, Qminus, Qplus, Qopp, inject_Z. simpl. lia. }
  apply Qfloor_Z.
Qed.

(** X20. In the labs of the earlier observer (floor 3, and any floor
    index other than 1 and 2) the third exit, in row 0, lies on the
    walled border for every grid size: the cell is an exit and a wall
    at once, and no route of an occupant standing elsewhere ends
    there. *)
Theorem legacy_lab_exit_walled (st : Legacy.System) floorNum x y :
  floorNum ≠ 1%Z -> floorNum ≠ 2%Z ->
  (1 <= Legacy.width st)%Z ->
  Legacy.walls st = (legacyFloorPlan floorNum (Legacy.width st) (Legacy.height st)).1 ->
  Legacy.exits st = (legacyFloorPlan floorNum (Legacy.width st) (Legacy.height st)).2 ->
  (Legacy.width st / 2, 0)%Z ∈ Legacy.exits st ∧
  Legacy.isWall st (Legacy.width st / 2) 0 = true ∧
  ((x, y) ≠ (Legacy.width st / 2, 0)%Z ->
   last (Legacy.findPath st x y) ≠ Some (Legacy.width st / 2, 0)%Z).
Proof.
  intros Hf1 Hf2 Hw Ewalls Eexits.
  assert (Hwall : Legacy.isWall st (Legacy.width st / 2) 0 = true).
  { apply legacy_isWall_elem. rewrite Ewalls.
    apply legacyFloorPlan_keeps_bounds, bounds_elem.
    left. split; [Z.div_mod_to_equations; lia | by left]. }
  split; [|split; [done|]].
  - rewrite Eexits. unfold legacyFloorPlan.
    destruct (floorNum =? 1)%Z eqn:E1; [lia|]. destruct (floorNum =? 2)%Z eqn:E2; [lia|].
    cbn [snd]. rewrite Qfloor_half. set_solver.
  - by apply legacy_walled_goal.
Qed.

Lemma legacy_lab_exit_walled_witness :
  (10, 0)%Z ∈ Legacy.exits legacyLab ∧
  Legacy.isWall legacyLab 10 0 = true ∧
  ((5, 5)%Z ≠ (10, 0)%Z -> last (Legacy.findPath legacyLab 5 5) ≠ Some (10, 0)%Z).
Proof.
  apply (legacy_lab_exit_walled legacyLab 3 5 5); try reflexivity; try discriminate.
Defined.

(** X21. In the labs of the current observer (floor 3, and any floor
    index other than 1 and 2), on a grid 19 to 21 cells wide and at
    least 8 cells high, the exit in row 1 stands inside one of the two
    vertical hallway walls: it is an exit and a wall at once, and no
    route of an occupant standing elsewhere ends there. *)
Theorem lab_exit_walled st floorNum x y role a :
  floorNum ≠ 1%Z -> floorNum ≠ 2%Z ->
  (19 <= width st <= 21)%Z -> (8 <= height st)%Z ->
  walls st = (floorPlan floorNum (width st) (height st)).1 ->
  exits st = (floorPlan floorNum (width st) (height st)).2 ->
  (width st / 2, 1)%Z ∈ exits st ∧
  isWall st (width st / 2) 1 = true ∧
  ((x, y) ≠ (width st / 2, 1)%Z ->
   last (findPath st x y role a) ≠ Some (width st / 2, 1)%Z).
Proof.
  intros Hf1 Hf2 Hw Hh Ewalls Eexits.
  assert (Hmid : (4 <= height st / 2)%Z) by (Z.div_mod_to_equations; lia).
  assert (Hwall : isWall st (width st / 2) 1 = true).
  { apply isWall_elem. rewrite Ewalls. unfold floorPlan.
    destruct (floorNum =? 1)%Z eqn:E1; [lia|]. destruct (floorNum =? 2)%Z eqn:E2; [lia|].
    cbn [fst]. rewrite Qfloor_half.
    do 5 apply addToWalls_keeps.
    destruct (decide (width st = 19)) as [E|E].
    - apply addToWalls_elem. right. cbn [fst snd].
      change (Qfloor 0) with 0%Z. change (Qceiling 1) with 1%Z.
      change 10%Q with (inject_Z 10). change 2%Q with (inject_Z 2).
      rewrite (Qfloor_minus_Z (width st) 10), (Qceiling_minus_Z (height st / 2) 2).
      rewrite E. split; [|lia]. change (19 / 2)%Z with 9%Z. lia.
    - do 2 apply addToWalls_keeps.
      apply addToWalls_elem. right. cbn [fst snd].
      change (Qfloor 0) with 0%Z. change (Qceiling 1) with 1%Z.
      change (Qfloor 10) with 10%Z. change 2%Q with (inject_Z 2).
      rewrite (Qceiling_minus_Z (height st / 2) 2).
      split; [Z.div_mod_to_equations; lia | lia]. }
  split; [|split; [done|]].
  - rewrite Eexits. unfold floorPlan.
    destruct (floorNum =? 1)%Z eqn:E1; [lia|]. destruct (floorNum =? 2)%Z eqn:E2; [lia|].
    cbn [snd]. rewrite Qfloor_half. set_solver.
  - by apply walled_goal.
Qed.

Lemma lab_exit_walled_witness :
  (10, 1)%Z ∈ exits (loadFloor lectureHall 3) ∧
  isWall (loadFloor lectureHall 3) 10 1 = true ∧
  ((5, 5)%Z ≠ (10, 1)%Z ->
   last (findPath (loadFloor lectureHall 3) 5 5 civilian evacuate) ≠ Some (10, 1)%Z).
Proof.
  apply (lab_exit_walled (loadFloor lectureHall 3) 3 5 5 civilian evacuate);
    try reflexivity; try discriminate; simpl; lia.
Defined.

(** * The two planners side by side *)

Lemma foldl_addFire_asLegacy floor x y fires cost :
  foldl (addFire floor x y) cost (hazardsOn floor fires)
  = foldl (Legacy.addFire x y) cost (map fireCell (hazardsOn floor fires)).
Proof.
  unfold hazardsOn. revert cost.
  induction fires as [|f fires IH]; intros cost; [done|].
  cbn [List.filter]. destruct (ffloor f =? floor) eqn:E; [|apply IH].
  cbn [map foldl]. rewrite <- IH. f_equal.
  unfold addFire, Legacy.addFire. by rewrite E.
Qed.

(** X22. The current planner extends the earlier one.  For everybody
    who keeps away from hazards (civilians, and firefighters who
    evacuate), the route of the current planner is the route the
    earlier planner returns on the same geometry when it is given the
    cells of the hazards of the floor on display; hazards of other
    floors play no part. *)
Theorem planners_agree st x y role a :
  shouldAvoidFire role a = true ->
  findPath st x y role a = Legacy.findPath (asLegacy st) x y.
Proof.
  intros Havoid. unfold findPath, Legacy.findPath. f_equal.
  apply search_ext.
  - intros cx cy. rewrite getCost_hazardsOn, Havoid. unfold Legacy.getCost.
    change (Legacy.isWall (asLegacy st) cx cy) with (isWall st cx cy).
    destruct (isWall st cx cy); [done|]. f_equal.
    change (Legacy.fireLocations (asLegacy st))
      with (map fireCell (hazardsOn (currentFloor st) (fireLocations st))).
    rewrite foldl_addFire_asLegacy.
    by destruct (map fireCell (hazardsOn (currentFloor st) (fireLocations st))).
  - intros c. by destruct role, a.
Qed.

Lemma planners_agree_witness :
  findPath (scenario [mkFire 5 3 1; mkFire 5 4 2]) 5 8 firefighter evacuate
  = Legacy.findPath (asLegacy (scenario [mkFire 5 3 1; mkFire 5 4 2])) 5 8.
Proof.
  apply (planners_agree (scenario [mkFire 5 3 1; mkFire 5 4 2]) 5 8 firefighter evacuate).
  reflexivity.
Defined.

(** * Pointer and button handlers *)

Lemma toggleUser_elem x y floor new us u :
  u ∈ toggleUser x y floor new us -> u ∈ us ∨ u = new.
Proof.
  induction us as [|v us IH]; simpl.
  - rewrite list_elem_of_singleton. by right.
  - destruct (sameSpot x y floor v).
    + intros H. left. by right.
    + rewrite !elem_of_cons. intros [->|H]; [by left; left|].
      destruct (IH H) as [H'|H']; [left; by right|by right].
Qed.

Lemma List_filter_elem {A} (p : A -> bool) (l : list A) (a : A) :
  a ∈ List.filter p l ↔ a ∈ l ∧ p a = true.
Proof. by rewrite !list_elem_of_In, filter_In. Qed.

(** X23. Clicking never puts an occupant inside a wall.  Whatever the
    mode, the role and the connection state, a click leaves the walls
    as they are; if no occupant stood on a wall before, none does
    afterwards; and a position is only ever reported to the node for a
    cell that is not a wall, tagged with the floor on display. *)
Theorem click_respects_walls isOnline mode chance st x y :
  (∀ u, u ∈ users st -> isWall st (ux u) (uy u) = false) ->
  walls (handleClick isOnline mode chance st x y).1 = walls st ∧
  (∀ u, u ∈ users (handleClick isOnline mode chance st x y).1 ->
        isWall st (ux u) (uy u) = false) ∧
  (∀ x' y' f r i,
     Server.updateUser x' y' f r i ∈ (handleClick isOnline mode chance st x y).2 ->
     isWall st x' y' = false ∧ f = Some (currentFloor st)).
Proof.
  intros Hfree. unfold handleClick.
  destruct mode.
  - destruct (isWall st x y) eqn:Hwall.
    { repeat split; try done; simpl; intros; set_solver. }
    destruct isOnline.
    { split; [done|]. split; [done|]. simpl. intros x' y' f r i Hin.
      apply list_elem_of_singleton in Hin. by inversion Hin; subst. }
    destruct (role st).
    + split; [done|]. split; [|simpl; intros; set_solver].
      intros u (u0 & Hu0 & ->)%recalculate_users. simpl in *.
      apply elem_of_app in Hu0 as [Hu0|Hu0].
      * apply List_filter_elem in Hu0 as [Hu0 _]. by apply Hfree.
      * apply list_elem_of_singleton in Hu0. by subst u0.
    + split; [done|]. split; [|simpl; intros; set_solver].
      intros u (u0 & Hu0 & ->)%recalculate_users. simpl in *.
      apply toggleUser_elem in Hu0 as [Hu0| ->]; [by apply Hfree|done].
  - destruct isOnline.
    { split; [done|]. split; [done|]. simpl. intros x' y' f r i Hin.
      apply list_elem_of_singleton in Hin. by inversion Hin. }
    split; [done|]. split; [|simpl; intros; set_solver].
    intros u (u0 & Hu0 & ->)%recalculate_users. simpl in *. by apply Hfree.
Qed.

Lemma click_respects_walls_witness :
  walls (handleClick false viewMode (mkChance rescue "ff_2") staffedHall 4 4).1
  = walls staffedHall ∧
  (∀ u, u ∈ users (handleClick false viewMode (mkChance rescue "ff_2") staffedHall 4 4).1 ->
        isWall staffedHall (ux u) (uy u) = false) ∧
  (∀ x' y' f r i,
     Server.updateUser x' y' f r i
       ∈ (handleClick false viewMode (mkChance rescue "ff_2") staffedHall 4 4).2 ->
     isWall staffedHall x' y' = false ∧ f = Some (currentFloor staffedHall)).
Proof.
  apply (click_respects_walls false viewMode (mkChance rescue "ff_2") staffedHall 4 4).
  intros u Hu. unfold staffedHall in Hu. cbn [users] in Hu.
  rewrite !elem_of_cons, elem_of_nil in Hu.
  destruct Hu as [->|[->|[]]]; reflexivity.
Defined.

(** ** Offline placement of occupants *)

Lemma List_filter_map_comm {A} (p : A -> bool) (f : A -> A) (l : list A) :
  (∀ a, p (f a) = p a) ->
  List.filter p (map f l) = map f (List.filter p l).
Proof.
  intros Hp. induction l as [|a l IH]; simpl; [done|].
  rewrite Hp. destruct (p a); simpl; by rewrite IH.
Qed.

Lemma List_filter_idem {A} (p : A -> bool) (l : list A) :
  List.filter p (List.filter p l) = List.filter p l.
Proof.
  induction l as [|a l IH]; simpl; [done|].
  destruct (p a) eqn:E; simpl; rewrite ?E, IH; done.
Qed.

Lemma List_filter_none {A} (p : A -> bool) (l : list A) :
  List.filter (fun a => negb (p a)) (List.filter p l) = [].
Proof.
  induction l as [|a l IH]; simpl; [done|].
  destruct (p a) eqn:E; simpl; rewrite ?E; done.
Qed.

Lemma civilian_click chance st x y :
  role st = civilian -> isWall st x y = false ->
  handleClick false viewMode chance st x y
  = (recalculate
       (mkSystem (currentFloor st) (width st) (height st) (Some "me")
          (List.filter isFirefighter (users st) ++
           [mkUser (Some "me") x y (Some (currentFloor st)) (Some civilian)
              (Some evacuate) []])
          (fireLocations st) (exits st) (walls st) (role st)), []).
Proof. intros Hrole Hwall. unfold handleClick. by rewrite Hwall, Hrole. Qed.

Lemma filter_firefighters_replanned (g : User -> list Cell) l :
  List.filter isFirefighter (map (fun u => setPath u (g u)) l)
  = map (fun u => setPath u (g u)) (List.filter isFirefighter l).
Proof. by apply List_filter_map_comm. Qed.

Lemma filter_others_replanned (g : User -> list Cell) l :
  List.filter (fun u => negb (isFirefighter u)) (map (fun u => setPath u (g u)) l)
  = map (fun u => setPath u (g u)) (List.filter (fun u => negb (isFirefighter u)) l).
Proof. by apply (List_filter_map_comm (fun u => negb (isFirefighter u))). Qed.

(** X24. Offline, a civilian's click moves the one civilian there
    is.  After a click on a cell that is not a wall the observer is
    "me"; the only occupant that is not a firefighter is "me", on the
    clicked cell of the floor on display, with the route of an
    evacuating civilian from there; the firefighters are those held
    before, with recomputed routes; and a second click supersedes the
    first: the state is the one the second click alone would give. *)
Theorem civilian_click_moves_me chance st x y :
  role st = civilian -> isWall st x y = false ->
  myId (handleClick false viewMode chance st x y).1 = Some "me" ∧
  List.filter (fun u => negb (isFirefighter u))
    (users (handleClick false viewMode chance st x y).1)
  = [mkUser (Some "me") x y (Some (currentFloor st)) (Some civilian) (Some evacuate)
       (findPath st x y civilian evacuate)] ∧
  List.filter isFirefighter (users (handleClick false viewMode chance st x y).1)
  = List.filter isFirefighter (users (recalculate st)) ∧
  (∀ chance' x2 y2,
     isWall st x2 y2 = false ->
     handleClick false viewMode chance' (handleClick false viewMode chance st x y).1 x2 y2
     = handleClick false viewMode chance' st x2 y2).
Proof.
  intros Hrole Hwall. rewrite (civilian_click chance st x y Hrole Hwall).
  cbn [fst]. split; [done|]. split; [|split].
  - unfold recalculate at 1. cbn [users setUsers].
    rewrite filter_others_replanned, List.filter_app, List_filter_none. reflexivity.
  - unfold recalculate. cbn [users setUsers].
    rewrite !filter_firefighters_replanned, List.filter_app, List_filter_idem.
    simpl. rewrite app_nil_r. apply map_ext. intros u. reflexivity.
  - intros chance' x2 y2 Hwall2.
    rewrite (civilian_click chance' st x2 y2 Hrole Hwall2).
    rewrite civilian_click; [|exact Hrole|exact Hwall2].
    f_equal. unfold recalculate. cbn [users setUsers currentFloor width height myId
      fireLocations exits walls role]. f_equal.
    rewrite filter_firefighters_replanned, List.filter_app, List_filter_idem.
    simpl List.filter. rewrite app_nil_r, !map_app. f_equal.
    rewrite map_map. apply map_ext. intros u. reflexivity.
Qed.

Lemma civilian_click_moves_me_witness :
  myId (handleClick false viewMode (mkChance rescue "ff_2") staffedHall 4 4).1 = Some "me" ∧
  List.filter (fun u => negb (isFirefighter u))
    (users (handleClick false viewMode (mkChance rescue "ff_2") staffedHall 4 4).1)
  = [mkUser (Some "me") 4 4 (Some (currentFloor staffedHall)) (Some civilian) (Some evacuate)
       (findPath staffedHall 4 4 civilian evacuate)] ∧
  List.filter isFirefighter
    (users (handleClick false viewMode (mkChance rescue "ff_2") staffedHall 4 4).1)
  = List.filter isFirefighter (users (recalculate staffedHall)) ∧
  (∀ chance' x2 y2,
     isWall staffedHall x2 y2 = false ->
     handleClick false viewMode chance'
       (handleClick false viewMode (mkChance rescue "ff_2") staffedHall 4 4).1 x2 y2
     = handleClick false viewMode chance' staffedHall x2 y2).
Proof.
  apply (civilian_click_moves_me (mkChance rescue "ff_2") staffedHall 4 4); reflexivity.
Defined.

Lemma toggleUser_absent x y floor new us :
  (∀ u, u ∈ us -> sameSpot x y floor u = false) ->
  toggleUser x y floor new us = us ++ [new].
Proof.
  induction us as [|v us IH]; intros Hfree; simpl; [done|].
  rewrite (Hfree v) by (by left). rewrite IH; [done|].
  intros u Hu. apply Hfree. by right.
Qed.

Lemma toggleUser_last x y floor new standing us :
  (∀ u, u ∈ us -> sameSpot x y floor u = false) ->
  sameSpot x y floor standing = true ->
  toggleUser x y floor new (us ++ [standing]) = us.
Proof.
  intros Hfree Hst. induction us as [|v us IH]; simpl.
  - by rewrite Hst.
  - rewrite (Hfree v) by (by left). rewrite IH; [done|].
    intros u Hu. apply Hfree. by right.
Qed.

Lemma firefighter_click chance st x y :
  role st = firefighter -> isWall st x y = false ->
  handleClick false viewMode chance st x y
  = (recalculate
       (setUsers st
          (toggleUser x y (currentFloor st)
             (mkUser (Some (freshId chance)) x y (Some (currentFloor st))
                (Some firefighter) (Some (drawnAction chance)) [])
             (users st))), []).
Proof. intros Hrole Hwall. unfold handleClick. by rewrite Hwall, Hrole. Qed.

(** X25. Offline, a firefighter's click toggles.  On a free cell
    that is not a wall it appends one firefighter there, on the floor
    on display, with the action that was drawn and the route for that
    action, and leaves everybody else in place; a second click on the
    same cell takes that firefighter away again, and the state is the
    recomputed state from before the first click. *)
Theorem firefighter_click_toggles chance chance' st x y :
  role st = firefighter -> isWall st x y = false ->
  (∀ u, u ∈ users st -> sameSpot x y (currentFloor st) u = false) ->
  users (handleClick false viewMode chance st x y).1
  = users (recalculate st) ++
    [mkUser (Some (freshId chance)) x y (Some (currentFloor st)) (Some firefighter)
       (Some (drawnAction chance)) (findPath st x y firefighter (drawnAction chance))] ∧
  (handleClick false viewMode chance' (handleClick false viewMode chance st x y).1 x y).1
  = recalculate st.
Proof.
  intros Hrole Hwall Hfree.
  rewrite (firefighter_click chance st x y Hrole Hwall). cbn [fst].
  rewrite toggleUser_absent by done.
  set (new := mkUser (Some (freshId chance)) x y (Some (currentFloor st))
                (Some firefighter) (Some (drawnAction chance)) []).
  set (st1 := recalculate (setUsers st (users st ++ [new]))).
  assert (Hus : users st1
                = users (recalculate st) ++
                  [setPath new (findPath st x y firefighter (drawnAction chance))]).
  { unfold st1, recalculate. cbn [users setUsers]. by rewrite map_app. }
  split; [exact Hus|].
  rewrite firefighter_click; [|exact Hrole|exact Hwall]. cbn [fst].
  rewrite Hus.
  change (currentFloor st1) with (currentFloor st).
  rewrite toggleUser_last.
  - unfold recalculate, setUsers. cbn [users currentFloor width height myId
      fireLocations exits walls role]. f_equal.
    rewrite map_map. apply map_ext. intros u. reflexivity.
  - intros u (u0 & Hu0 & ->)%recalculate_users.
    change (sameSpot x y (currentFloor st) u0 = false). by apply Hfree.
  - unfold sameSpot. cbn [ux uy ufloor setPath new]. by rewrite !Z.eqb_refl.
Qed.

Lemma firefighter_click_toggles_witness :
  users (handleClick false viewMode (mkChance rescue "ff_2") fireCrew 4 4).1
  = users (recalculate fireCrew) ++
    [mkUser (Some "ff_2") 4 4 (Some 1) (Some firefighter) (Some rescue)
       (findPath fireCrew 4 4 firefighter rescue)] ∧
  (handleClick false viewMode (mkChance evacuate "ff_3")
     (handleClick false viewMode (mkChance rescue "ff_2") fireCrew 4 4).1 4 4).1
  = recalculate fireCrew.
Proof.
  apply (firefighter_click_toggles (mkChance rescue "ff_2") (mkChance evacuate "ff_3")
           fireCrew 4 4).
  - reflexivity.
  - reflexivity.
  - intros u Hu. unfold fireCrew, staffedHall in Hu. cbn [users] in Hu.
    rewrite !elem_of_cons, elem_of_nil in Hu.
    destruct Hu as [->|[->|[]]]; reflexivity.
Defined.

(** ** The clear button *)

Lemma hazardsOn_cleared floor fires :
  hazardsOn floor (List.filter (fun f => negb (ffloor f =? floor)) fires) = [].
Proof.
  unfold hazardsOn. induction fires as [|f fires IH]; simpl; [done|].
  destruct (ffloor f =? floor) eqn:E; simpl; rewrite ?E; done.
Qed.

Lemma getCost_no_hazard st role a x y :
  hazardsOn (currentFloor st) (fireLocations st) = [] ->
  isWall st x y = false -> getCost st role a x y = Finite 1.
Proof.
  intros Hnone Hwall. rewrite getCost_hazardsOn, Hwall, Hnone.
  by destruct (shouldAvoidFire role a).
Qed.

(** X26. The clear button clears the floor on display.  Offline, no
    hazard of that floor is left, the hazards of the other floors stay
    and nothing is sent.  Online, when the floor index is not 0, the
    button sends one request, and every snapshot the node sends in
    answer leaves the observer without hazards on its floor, so every
    cell that is not a wall costs 1 for everybody. *)
Theorem clear_button_clears_floor st :
  (hazardsOn (currentFloor st) (fireLocations (clearClick false st).1) = [] ∧
   (∀ f, ffloor f ≠ currentFloor st ->
         f ∈ fireLocations (clearClick false st).1 ↔ f ∈ fireLocations st) ∧
   (clearClick false st).2 = []) ∧
  (currentFloor st ≠ 0 ->
   ∃ ev, (clearClick true st).2 = [ev] ∧ (clearClick true st).1 = st ∧
     ∀ node socket recipient m,
       (recipient, m) ∈ (Server.on node socket ev).2 ->
       hazardsOn (currentFloor st) (fireLocations (receive st m)) = [] ∧
       ∀ role a x y, isWall st x y = false ->
                     getCost (receive st m) role a x y = Finite 1).
Proof.
  split.
  - unfold clearClick. cbn [fst snd recalculate setUsers setFires fireLocations].
    split; [apply hazardsOn_cleared|]. split; [|done].
    intros f Hf. rewrite clear_elem. tauto.
  - intros Hfloor. exists (Server.clearFire (Some (currentFloor st))).
    split; [done|]. split; [done|].
    intros node socket recipient m Hm.
    rewrite on_emits in Hm. apply emitAll_elem in Hm as [_ ->].
    assert (Hnone : hazardsOn (currentFloor st)
                      (fireLocations
                         (receive st
                            (Server.stateUpdate
                               (Server.values
                                  (Server.users
                                     (Server.on node socket
                                        (Server.clearFire (Some (currentFloor st)))).1))
                               (Server.fireLocations
                                  (Server.on node socket
                                     (Server.clearFire (Some (currentFloor st)))).1))))
                    = []).
    { cbn [receive adopt recalculate setUsers fireLocations Server.on fst
           Server.fireLocations Server.floorOr1].
      destruct (currentFloor st =? 0) eqn:E; [lia|]. apply hazardsOn_cleared. }
    split; [exact Hnone|].
    intros role a x y Hwall. by apply getCost_no_hazard.
Qed.

Lemma clear_button_clears_floor_witness :
  ∃ ev, (clearClick true staffedHall).2 = [ev] ∧ (clearClick true staffedHall).1 = staffedHall ∧
    ∀ node socket recipient m,
      (recipient, m) ∈ (Server.on node socket ev).2 ->
      hazardsOn (currentFloor staffedHall) (fireLocations (receive staffedHall m)) = [] ∧
      ∀ role a x y, isWall staffedHall x y = false ->
                    getCost (receive staffedHall m) role a x y = Finite 1.
Proof.
  apply (proj2 (clear_button_clears_floor staffedHall)). discriminate.
Defined.

(** ** Demo occupants *)

Lemma occupied_false us c :
  occupied us c = false ↔ ∀ u, u ∈ us -> (ux u, uy u) ≠ c.
Proof.
  unfold occupied. induction us as [|v us IH]; simpl.
  - split; [|done]. intros _ u Hu. by apply elem_of_nil in Hu.
  - rewrite orb_false_iff, IH, andb_false_iff, !Z.eqb_neq. split.
    + intros [Hv Hus] u [->|Hu]%elem_of_cons; [|by apply Hus].
      intros E. rewrite <- E in Hv. simpl in Hv. tauto.
    + intros H. split.
      * destruct (decide (ux v = c.1)) as [E1|]; [|by left].
        destruct (decide (uy v = c.2)) as [E2|]; [|by right].
        exfalso. apply (H v); [by left|]. destruct c; simpl in *; congruence.
      * intros u Hu. apply H. by right.
Qed.

Lemma spawnLoop_spec st count draws us :
  ∃ new,
    spawnLoop st count draws us = us ++ new ∧
    (length new <= length draws)%nat ∧
    (length (us ++ new) <= Nat.max count (length us))%nat ∧
    (∀ u, u ∈ new ->
       u = mkUser None (ux u) (uy u) None None None [] ∧
       isWall st (ux u) (uy u) = false ∧ (ux u, uy u) ∈ draws) ∧
    NoDup (map (fun u => (ux u, uy u)) new) ∧
    (∀ u v, u ∈ us -> v ∈ new -> (ux u, uy u) ≠ (ux v, uy v)).
Proof.
  revert us. induction draws as [|c draws IH]; intros us.
  - exists []. rewrite app_nil_r. simpl. repeat split; try lia; try constructor;
      intros; set_solver.
  - cbn [spawnLoop]. destruct (length us <? count)%nat eqn:Hlen.
    2:{ exists []. rewrite app_nil_r. simpl. repeat split; try lia; try constructor;
          intros; set_solver. }
    apply Nat.ltb_lt in Hlen.
    destruct (negb (isWall st c.1 c.2) && negb (occupied us c)) eqn:Hok.
    + apply andb_true_iff in Hok as [Hwall Hocc].
      apply negb_true_iff in Hwall, Hocc.
      set (n := mkUser None c.1 c.2 None None None []).
      destruct (IH (us ++ [n])) as (new & -> & Hl & Hmax & Hnew & Hnd & Hdis).
      exists (n :: new). split; [by rewrite <- app_assoc|].
      split; [simpl; lia|]. split.
      { rewrite length_app in *. simpl in *. rewrite length_app in Hmax. simpl in Hmax. lia. }
      split; [|split].
      * intros u [->|Hu]%elem_of_cons.
        -- split; [done|]. split; [done|]. destruct c. by left.
        -- destruct (Hnew u Hu) as (? & ? & ?). repeat split; try done. by right.
      * simpl. apply NoDup_cons. split; [|done].
        intros (v & Hv & Hin)%list_elem_of_fmap.
        apply (Hdis n v); [set_solver|done|done].
      * intros u v Hu [->|Hv]%elem_of_cons.
        -- simpl. apply occupied_false with (u := u) in Hocc; [|done].
           by destruct c.
        -- apply Hdis; [set_solver|done].
    + destruct (IH us) as (new & -> & Hl & Hmax & Hnew & Hnd & Hdis).
      exists new. split; [done|]. split; [simpl; lia|]. split; [done|].
      split; [|done].
      intros u Hu. destruct (Hnew u Hu) as (? & ? & ?). repeat split; try done. by right.
Qed.

(** X27. The demo occupants [spawnUsers] adds.  The occupants held
    before stay, in order, in front of the new ones; the new ones are
    at most 100 and never bring the total above [count] (if there were
    that many already, nothing is added); each new occupant stands on
    one of the cells that were drawn, which is not a wall, has no role,
    floor or route yet, and no two occupants of the result that were
    not both there before share a cell. *)
Theorem spawnUsers_places st count random :
  ∃ new,
    users (spawnUsers st count random) = users st ++ new ∧
    (length new <= 100)%nat ∧
    (length (users (spawnUsers st count random)) <= Nat.max count (length (users st)))%nat ∧
    (∀ u, u ∈ new ->
       u = mkUser None (ux u) (uy u) None None None [] ∧
       isWall st (ux u) (uy u) = false ∧ ∃ i, (i < 100)%nat ∧ (ux u, uy u) = random i) ∧
    NoDup (map (fun u => (ux u, uy u)) new) ∧
    (∀ u v, u ∈ users st -> v ∈ new -> (ux u, uy u) ≠ (ux v, uy v)).
Proof.
  destruct (spawnLoop_spec st count (map random (seq 0 100)) (users st))
    as (new & E & Hl & Hmax & Hnew & Hnd & Hdis).
  exists new. unfold spawnUsers. cbn [users setUsers]. rewrite E.
  split; [done|]. split; [by rewrite length_map, length_seq in Hl|].
  split; [done|]. split; [|done].
  intros u Hu. destruct (Hnew u Hu) as (Hu1 & Hu2 & Hu3).
  split; [done|]. split; [done|].
  apply list_elem_of_fmap in Hu3 as (i & Hi & Hin).
  exists i. split; [|done]. apply elem_of_seq in Hin. lia.
Qed.
